(** * quais: HD wallets, shard identifiers and shard readiness

    A shallow embedding of the wallet code of the quais library
    ([lib.esm/wallet/hdwallet.js], [src/wallet/quai-hdwallet.ts],
    [src/providers/provider-websocket.ts], [src/constants/shards.ts],
    [src.ts/wallet/wallet.ts]) and the properties proved about it.

    Conventions.
    - A JavaScript string is a [string]: a sequence of code units below 256.
    - A JavaScript integer-valued number (an index, a depth, a counter) is a [Z].
    - A byte string (a [Uint8Array], or the hex string ["0x.."] that
      [hexlify] makes of one) is a [list byte].
    - Code that may throw returns a [result]: [Ok v] or [Throw e]. *)

From Stdlib Require Import ZArith Lia String Ascii.
From Stdlib.Strings Require Byte.
From stdpp Require Import base option list gmap strings.

Local Open Scope string_scope.
Local Open Scope list_scope.
Local Open Scope Z_scope.

(** ** Exceptions *)

(** What the code throws: [new Error(message)], the library's
    [assertArgument(check, message, name, value)] (code INVALID_ARGUMENT) and
    [assert(check, message, code, info)] for the other codes, and the
    [TypeError] of the language for a method called on [undefined]. *)
Inductive JsError : Type :=
| Error (message : string)
| InvalidArgument (message : string) (name : string)
| Fault (code : string) (message : string)
| TypeError (message : string).

Inductive result (A : Type) : Type :=
| Ok (value : A)
| Throw (e : JsError).
Arguments Ok {A} value.
Arguments Throw {A} e.

Definition bind {A B : Type} (r : result A) (k : A -> result B) : result B :=
  match r with
  | Ok a => k a
  | Throw e => Throw e
  end.

Notation "'let*' x ':=' r 'in' k" := (bind r (fun x => k))
  (at level 10, x pattern, r at level 100, k at level 200).

Definition assertArgument (check : bool) (message name : string) : result unit :=
  if check then Ok tt else Throw (InvalidArgument message name).

Definition is_Ok {A : Type} (r : result A) : bool :=
  match r with Ok _ => true | Throw _ => false end.

(** ** Shard identifiers ([src/constants/shards.ts]) *)

Module Shards.

Inductive Shard : Type :=
| Cyprus | Cyprus1 | Cyprus2 | Cyprus3
| Paxos | Paxos1 | Paxos2 | Paxos3
| Hydra | Hydra1 | Hydra2 | Hydra3
| Prime.

(** The string each member of the TypeScript enum stands for at run time. *)
Definition Shard_value (s : Shard) : string :=
  match s with
  | Cyprus => "0x0" | Cyprus1 => "0x00" | Cyprus2 => "0x01" | Cyprus3 => "0x02"
  | Paxos => "0x1" | Paxos1 => "0x10" | Paxos2 => "0x11" | Paxos3 => "0x12"
  | Hydra => "0x2" | Hydra1 => "0x20" | Hydra2 => "0x21" | Hydra3 => "0x22"
  | Prime => "0x"
  end.

(** The nine zone-level members. *)
Definition is_zone_level (s : Shard) : bool :=
  match s with
  | Cyprus1 | Cyprus2 | Cyprus3
  | Paxos1 | Paxos2 | Paxos3
  | Hydra1 | Hydra2 | Hydra3 => true
  | Cyprus | Paxos | Hydra | Prime => false
  end.

#[global] Instance Shard_eq_dec : EqDecision Shard.
Proof. solve_decision. Defined.

Definition Shard_index (s : Shard) : nat :=
  match s with
  | Cyprus => 0 | Cyprus1 => 1 | Cyprus2 => 2 | Cyprus3 => 3
  | Paxos => 4 | Paxos1 => 5 | Paxos2 => 6 | Paxos3 => 7
  | Hydra => 8 | Hydra1 => 9 | Hydra2 => 10 | Hydra3 => 11
  | Prime => 12
  end%nat.

Definition Shard_of_index (n : nat) : option Shard :=
  match n with
  | 0 => Some Cyprus | 1 => Some Cyprus1 | 2 => Some Cyprus2 | 3 => Some Cyprus3
  | 4 => Some Paxos | 5 => Some Paxos1 | 6 => Some Paxos2 | 7 => Some Paxos3
  | 8 => Some Hydra | 9 => Some Hydra1 | 10 => Some Hydra2 | 11 => Some Hydra3
  | 12 => Some Prime
  | _ => None
  end%nat.

#[global] Instance Shard_countable : Countable Shard.
Proof.
  apply (inj_countable Shard_index Shard_of_index).
  intros []; reflexivity.
Defined.

Definition shardFromBytes (shard : string) : result Shard :=
  if String.eqb shard "0x00" then Ok Cyprus1
  else if String.eqb shard "0x01" then Ok Cyprus2
  else if String.eqb shard "0x02" then Ok Cyprus3
  else if String.eqb shard "0x10" then Ok Paxos1
  else if String.eqb shard "0x11" then Ok Paxos2
  else if String.eqb shard "0x12" then Ok Paxos3
  else if String.eqb shard "0x20" then Ok Hydra1
  else if String.eqb shard "0x21" then Ok Hydra2
  else if String.eqb shard "0x22" then Ok Hydra3
  else Throw (Error "Invalid shard").

(** An entry of [ShardData] (and of [ZoneData]). *)
Record ShardInfo : Type := mkShardInfo {
  sd_name : string;
  sd_nickname : string;
  sd_shard : string;
  sd_context : Z;
  sd_byte : string
}.

#[global] Instance ShardInfo_eq_dec : EqDecision ShardInfo.
Proof. solve_decision. Defined.

(** The four entries the source appends to [ZoneData]. *)
Definition region_entries : list ShardInfo :=
  [ mkShardInfo "Cyprus" "cyprus" "region-0" 2 "0x0";
    mkShardInfo "Paxos" "paxos" "region-1" 2 "0x1";
    mkShardInfo "Hydra" "hydra" "region-2" 2 "0x2";
    mkShardInfo "Prime" "prime" "prime" 2 "0x" ].

(** [it.name == shard || it.byte == shard || it.nickname == shard || it.shard == shard] *)
Definition identifies (shard : string) (it : ShardInfo) : bool :=
  String.eqb (sd_name it) shard || String.eqb (sd_byte it) shard
  || String.eqb (sd_nickname it) shard || String.eqb (sd_shard it) shard.

(** [x || ''] on a string that may be [undefined]. *)
Definition or_empty (x : option string) : string :=
  match x with
  | Some s => if String.eqb s "" then "" else s
  | None => ""
  end.

Section ToShard.

(** [ZoneData] comes from [zones.js], which is not among the sources: the
    table is a parameter. *)
Variable ZoneData : list ShardInfo.

Definition ShardData : list ShardInfo := ZoneData ++ region_entries.

Definition toShard (shard : string) : result Shard :=
  shardFromBytes (or_empty (sd_byte <$> List.find (identifies shard) ShardData)).

End ToShard.

(** Modelled from the spec: the nine zone entries of [zones.js], each with a
    canonical byte, a human name and a nickname.  The bytes are those of the
    [Shard] enum; names, nicknames and shard strings follow the pattern of
    the region entries above. *)
Definition ZoneData_nine : list ShardInfo :=
  [ mkShardInfo "Cyprus One" "cyprus1" "zone-0-0" 2 "0x00";
    mkShardInfo "Cyprus Two" "cyprus2" "zone-0-1" 2 "0x01";
    mkShardInfo "Cyprus Three" "cyprus3" "zone-0-2" 2 "0x02";
    mkShardInfo "Paxos One" "paxos1" "zone-1-0" 2 "0x10";
    mkShardInfo "Paxos Two" "paxos2" "zone-1-1" 2 "0x11";
    mkShardInfo "Paxos Three" "paxos3" "zone-1-2" 2 "0x12";
    mkShardInfo "Hydra One" "hydra1" "zone-2-0" 2 "0x20";
    mkShardInfo "Hydra Two" "hydra2" "zone-2-1" 2 "0x21";
    mkShardInfo "Hydra Three" "hydra3" "zone-2-2" 2 "0x22" ].

(** *** Properties *)

Lemma shardFromBytes_zone_level (b : string) (s : Shard) :
  shardFromBytes b = Ok s -> is_zone_level s = true /\ Shard_value s = b.
Proof.
  unfold shardFromBytes.
  repeat match goal with
         | |- context [String.eqb b ?c] =>
             destruct (String.eqb_spec b c) as [->|_];
             [intros [= <-]; split; reflexivity|]
         end.
  discriminate.
Qed.

Lemma shardFromBytes_complete (s : Shard) :
  is_zone_level s = true -> shardFromBytes (Shard_value s) = Ok s.
Proof. destruct s; (reflexivity || discriminate). Qed.

Lemma shardFromBytes_region_entries (it : ShardInfo) :
  In it region_entries ->
  shardFromBytes (or_empty (Some (sd_byte it))) = Throw (Error "Invalid shard").
Proof.
  simpl. intros [<-|[<-|[<-|[<-|[]]]]]; reflexivity.
Qed.

Lemma find_app {A : Type} (f : A -> bool) (l1 l2 : list A) :
  List.find f (l1 ++ l2) =
  match List.find f l1 with Some x => Some x | None => List.find f l2 end.
Proof.
  induction l1 as [|x l1 IH]; simpl; [reflexivity|].
  destruct (f x); [reflexivity|exact IH].
Qed.

Lemma or_empty_byte (it : ShardInfo) :
  shardFromBytes (or_empty (Some (sd_byte it))) = shardFromBytes (sd_byte it).
Proof.
  unfold or_empty. destruct (String.eqb_spec (sd_byte it) "") as [->|_]; reflexivity.
Qed.

(** C10. [toShard] returns a shard only through an entry of [ZoneData] that
    the identifier matches by name, byte, nickname or shard string, and the
    shard it returns is one of the nine zone-level ones, the one whose
    byte the entry carries; an identifier that no zone entry matches
    (a region-level one, Prime's, or an unknown string) throws
    'Invalid shard', although [ShardData] holds the region and Prime
    entries. *)
Theorem toShard_zone_level_only (ZoneData : list ShardInfo) (shard : string) :
  match List.find (identifies shard) ZoneData with
  | Some it =>
      toShard ZoneData shard = shardFromBytes (sd_byte it) /\
      match toShard ZoneData shard with
      | Ok s => is_zone_level s = true /\ Shard_value s = sd_byte it
      | Throw e => e = Error "Invalid shard"
      end
  | None => toShard ZoneData shard = Throw (Error "Invalid shard")
  end
  /\ (forall it, In it region_entries -> In it (ShardData ZoneData)).
Proof.
  split.
  - unfold toShard, ShardData. rewrite find_app.
    destruct (List.find (identifies shard) ZoneData) as [it|] eqn:Hz.
    + change (sd_byte <$> Some it) with (Some (sd_byte it)).
      rewrite or_empty_byte. split; [reflexivity|].
      destruct (shardFromBytes (sd_byte it)) as [s|e] eqn:Hs.
      * apply shardFromBytes_zone_level in Hs. exact Hs.
      * unfold shardFromBytes in Hs.
        repeat (destruct (String.eqb _ _); [discriminate|]).
        congruence.
    + destruct (List.find (identifies shard) region_entries) as [it|] eqn:Hr.
      * change (sd_byte <$> Some it) with (Some (sd_byte it)).
        apply shardFromBytes_region_entries.
        apply find_some in Hr. tauto.
      * reflexivity.
  - intros it Hin. unfold ShardData. apply in_or_app. right. exact Hin.
Qed.

Example toShard_nine_zones :
  toShard ZoneData_nine "cyprus1" = Ok Cyprus1 /\
  toShard ZoneData_nine "Paxos Two" = Ok Paxos2 /\
  toShard ZoneData_nine "zone-2-2" = Ok Hydra3 /\
  toShard ZoneData_nine "0x20" = Ok Hydra1.
Proof. repeat split. Qed.

Example toShard_nine_regions :
  toShard ZoneData_nine "Cyprus" = Throw (Error "Invalid shard") /\
  toShard ZoneData_nine "paxos" = Throw (Error "Invalid shard") /\
  toShard ZoneData_nine "region-2" = Throw (Error "Invalid shard") /\
  toShard ZoneData_nine "0x1" = Throw (Error "Invalid shard") /\
  toShard ZoneData_nine "Prime" = Throw (Error "Invalid shard") /\
  toShard ZoneData_nine "0x" = Throw (Error "Invalid shard") /\
  toShard ZoneData_nine "0x33" = Throw (Error "Invalid shard") /\
  toShard ZoneData_nine "" = Throw (Error "Invalid shard").
Proof. repeat split. Qed.

(** The strings of the enum are all different, and [shardFromBytes] reads
    the string of a zone-level member back to the member; it throws on the
    strings of the other four members, as on every other string. *)
Theorem shardFromBytes_Shard_value :
  (forall s1 s2, Shard_value s1 = Shard_value s2 -> s1 = s2) /\
  (forall s, shardFromBytes (Shard_value s)
             = if is_zone_level s then Ok s else Throw (Error "Invalid shard")) /\
  (forall b, match shardFromBytes b with
             | Ok s => Shard_value s = b /\ is_zone_level s = true
             | Throw e => e = Error "Invalid shard" /\ forall s, is_zone_level s = true -> Shard_value s <> b
             end).
Proof.
  split; [|split].
  - intros s1 s2. destruct s1, s2; (reflexivity || discriminate).
  - intros s. destruct s; reflexivity.
  - intros b. destruct (shardFromBytes b) as [s|e] eqn:Hb.
    + apply shardFromBytes_zone_level in Hb. tauto.
    + split.
      * unfold shardFromBytes in Hb.
        repeat (destruct (String.eqb _ _); [discriminate|]). congruence.
      * intros s Hs <-. rewrite (shardFromBytes_complete s Hs) in Hb. discriminate.
Qed.

End Shards.

(** ** Shard readiness ([src/providers/provider-websocket.ts]) *)

Module WebSocketProvider.
Import Shards.

(** [waitShardReady] reads [this.readyMap] once per evaluation of the loop
    condition and is suspended in [setTimeout] in between; the [onopen]
    handlers write the map while it is suspended.  The environment is the
    sequence of maps the condition finds: [readyMap k] is the map at the
    evaluation that follows [k] completed sleeps. *)
Section WaitShardReady.

Variable readyMap : nat -> gmap Shard bool.

Definition timeout_error : JsError := Error "Timeout waiting for shard to be ready".

(** [!this.readyMap.get(shard)]: an absent entry is [undefined]. *)
Definition not_ready (k : nat) (shard : Shard) : bool :=
  match readyMap k !! shard with
  | Some true => false
  | Some false | None => true
  end.

(** The [while] loop, one iteration per unit of fuel; [slept] lists the
    delays of the sleeps so far, in milliseconds.  [None]: the fuel ran out
    with the loop still running. *)
Fixpoint waitShardReady_loop (fuel : nat) (shard : Shard) (k : nat) (count : Z)
    (slept : list Z) : option (list Z * result unit) :=
  match fuel with
  | O => None
  | S fuel' =>
      if not_ready k shard then
        let slept' := slept ++ [2 ^ count] in
        if 7 <? count then Some (slept', Throw timeout_error)
        else waitShardReady_loop fuel' shard (S k) (count + 1) slept'
      else Some (slept, Ok tt)
  end.

Definition waitShardReady (fuel : nat) (shard : Shard) : option (list Z * result unit) :=
  waitShardReady_loop fuel shard 0 0 [].

End WaitShardReady.

(** The delays of the first [n] sleeps: 1, 2, 4, ... *)
Definition backoff (n : nat) : list Z := (fun k => 2 ^ Z.of_nat k) <$> seq 0 n.

(** *** Properties *)

Lemma backoff_S (n : nat) : backoff (S n) = backoff n ++ [2 ^ Z.of_nat n].
Proof. unfold backoff. rewrite seq_S, fmap_app. reflexivity. Qed.

(** The loop from its [k]-th iteration on, when no earlier check found the
    shard ready: it stops at the first check [j <= 8] that does, and times
    out after the ninth sleep otherwise. *)
Lemma waitShardReady_loop_never
    (readyMap : nat -> gmap Shard bool) (shard : Shard) (fuel k : nat) :
  (forall j, (k <= j)%nat -> not_ready readyMap j shard = true) ->
  (k <= 8)%nat -> (9 - k <= fuel)%nat ->
  waitShardReady_loop readyMap fuel shard k (Z.of_nat k) (backoff k)
  = Some (backoff 9, Throw timeout_error).
Proof.
  revert k. induction fuel as [|fuel IH]; intros k Hn Hk Hfuel; [lia|].
  simpl. rewrite (Hn k) by lia. rewrite <- backoff_S.
  destruct (Z.ltb_spec 7 (Z.of_nat k)) as [H7|H7].
  - assert (k = 8%nat) as -> by lia. reflexivity.
  - replace (Z.of_nat k + 1) with (Z.of_nat (S k)) by lia.
    apply IH; [intros j Hj; apply Hn; lia|lia|lia].
Qed.

Lemma waitShardReady_loop_ready
    (readyMap : nat -> gmap Shard bool) (shard : Shard) (fuel k j : nat) :
  (forall i, (k <= i < j)%nat -> not_ready readyMap i shard = true) ->
  not_ready readyMap j shard = false ->
  (k <= j)%nat -> (j <= 8)%nat -> (j - k < fuel)%nat ->
  waitShardReady_loop readyMap fuel shard k (Z.of_nat k) (backoff k)
  = Some (backoff j, Ok tt).
Proof.
  revert k. induction fuel as [|fuel IH]; intros k Hn Hj Hkj Hj8 Hfuel; [lia|].
  simpl. destruct (decide (k = j)) as [->|Hne].
  - rewrite Hj. reflexivity.
  - rewrite (Hn k) by lia. rewrite <- backoff_S.
    destruct (Z.ltb_spec 7 (Z.of_nat k)) as [H7|H7]; [lia|].
    replace (Z.of_nat k + 1) with (Z.of_nat (S k)) by lia.
    apply IH; [intros i Hi; apply Hn; lia|exact Hj|lia|lia|lia].
Qed.

(** The loop ends within nine iterations, whatever the environment does. *)
Lemma waitShardReady_loop_ends
    (readyMap : nat -> gmap Shard bool) (shard : Shard) (fuel k : nat)
    (slept : list Z) :
  (k <= 8)%nat -> (9 - k <= fuel)%nat ->
  exists r, waitShardReady_loop readyMap fuel shard k (Z.of_nat k) slept = Some r.
Proof.
  revert k slept. induction fuel as [|fuel IH]; intros k slept Hk Hfuel; [lia|].
  simpl. destruct (not_ready readyMap k shard); [|eauto].
  destruct (Z.ltb_spec 7 (Z.of_nat k)) as [H7|H7]; [eauto|].
  replace (Z.of_nat k + 1) with (Z.of_nat (S k)) by lia.
  apply IH; lia.
Qed.

(** C8. With nine iterations of fuel or more [waitShardReady] always ends.
    When no check finds the shard's flag set it sleeps nine times, for
    1, 2, 4, ..., 256 ms (each delay twice the one before: eight doublings),
    and then throws the timeout error; when the flag is set at the call it
    returns at once without sleeping; when the check after [j <= 8] sleeps
    is the first to find it set it returns after those [j] sleeps. *)
Theorem waitShardReady_backoff
    (readyMap : nat -> gmap Shard bool) (shard : Shard) (fuel : nat) :
  (9 <= fuel)%nat ->
  (exists r, waitShardReady readyMap fuel shard = Some r) /\
  ((forall k, readyMap k !! shard <> Some true) ->
     waitShardReady readyMap fuel shard
     = Some ([1; 2; 4; 8; 16; 32; 64; 128; 256], Throw timeout_error)) /\
  (readyMap 0%nat !! shard = Some true ->
     waitShardReady readyMap fuel shard = Some ([], Ok tt)) /\
  (forall j, (j <= 8)%nat ->
     (forall i, (i < j)%nat -> readyMap i !! shard <> Some true) ->
     readyMap j !! shard = Some true ->
     waitShardReady readyMap fuel shard = Some (backoff j, Ok tt)).
Proof.
  intros Hfuel.
  assert (Hnr : forall k, readyMap k !! shard <> Some true ->
                          not_ready readyMap k shard = true).
  { intros k Hk. unfold not_ready.
    destruct (readyMap k !! shard) as [[|]|]; congruence. }
  assert (Hr : forall k, readyMap k !! shard = Some true ->
                         not_ready readyMap k shard = false).
  { intros k Hk. unfold not_ready. rewrite Hk. reflexivity. }
  assert (Hfirst : forall j, (j <= 8)%nat ->
     (forall i, (i < j)%nat -> readyMap i !! shard <> Some true) ->
     readyMap j !! shard = Some true ->
     waitShardReady readyMap fuel shard = Some (backoff j, Ok tt)).
  { intros j Hj Hbefore Hat.
    apply (waitShardReady_loop_ready readyMap shard fuel 0 j); try lia.
    - intros i Hi. apply Hnr, Hbefore. lia.
    - apply Hr, Hat. }
  split; [|split; [|split]].
  - apply (waitShardReady_loop_ends readyMap shard fuel 0 []); lia.
  - intros Hnever.
    apply (waitShardReady_loop_never readyMap shard fuel 0); try lia.
    intros j _. apply Hnr, Hnever.
  - intros H0. apply (Hfirst 0%nat); [lia| |exact H0]. intros i Hi. lia.
  - exact Hfirst.
Qed.

(** An environment in which the shard never becomes ready, and one in which
    the third check finds it ready. *)
Definition never_ready : nat -> gmap Shard bool := fun _ => {[ Cyprus1 := false ]}.

Definition ready_after_two : nat -> gmap Shard bool :=
  fun k => if (k <? 2)%nat then ∅ else {[ Cyprus1 := true ]}.

Lemma waitShardReady_backoff_witness :
  waitShardReady never_ready 9 Cyprus1
  = Some ([1; 2; 4; 8; 16; 32; 64; 128; 256], Throw timeout_error) /\
  waitShardReady ready_after_two 9 Cyprus1 = Some ([1; 2], Ok tt).
Proof.
  destruct (waitShardReady_backoff never_ready Cyprus1 9 ltac:(lia))
    as (_ & Hnever & _ & _).
  destruct (waitShardReady_backoff ready_after_two Cyprus1 9 ltac:(lia))
    as (_ & _ & _ & Hfirst).
  split.
  - apply Hnever. intros k. unfold never_ready.
    rewrite lookup_singleton_eq. discriminate.
  - apply (Hfirst 2%nat); [lia| |reflexivity].
    intros i Hi. unfold ready_after_two.
    destruct (Nat.ltb_spec i 2); [|lia]. rewrite lookup_empty. discriminate.
Defined.

(** *** Writing to a shard *)

(** When [waitShardReady] returns, some check, the ninth at the latest, has
    found the shard's flag set, no check before it has, and the sleeps are
    those of the backoff up to that check. *)
Lemma waitShardReady_loop_Ok
    (readyMap : nat -> gmap Shard bool) (shard : Shard) (fuel k : nat) (slept : list Z) :
  (k <= 8)%nat ->
  waitShardReady_loop readyMap fuel shard k (Z.of_nat k) (backoff k) = Some (slept, Ok tt) ->
  exists j, (k <= j <= 8)%nat /\ readyMap j !! shard = Some true /\
            (forall i, (k <= i < j)%nat -> readyMap i !! shard <> Some true) /\
            slept = backoff j.
Proof.
  revert k. induction fuel as [|fuel IH]; intros k Hk; [discriminate|].
  cbn [waitShardReady_loop]. unfold not_ready at 1.
  destruct (readyMap k !! shard) as [[|]|] eqn:Hready.
  - intros [= <-]. exists k. split; [lia|]. split; [exact Hready|].
    split; [intros i Hi; lia|reflexivity].
  - rewrite <- backoff_S. destruct (Z.ltb_spec 7 (Z.of_nat k)); [discriminate|].
    replace (Z.of_nat k + 1) with (Z.of_nat (S k)) by lia. intros Hrun.
    destruct (IH (S k) ltac:(lia) Hrun) as (j & Hj & Hat & Hbefore & Hslept).
    exists j. split; [lia|]. split; [exact Hat|]. split; [|exact Hslept].
    intros i Hi. destruct (decide (i = k)) as [->|Hne]; [congruence|apply Hbefore; lia].
  - rewrite <- backoff_S. destruct (Z.ltb_spec 7 (Z.of_nat k)); [discriminate|].
    replace (Z.of_nat k + 1) with (Z.of_nat (S k)) by lia. intros Hrun.
    destruct (IH (S k) ltac:(lia) Hrun) as (j & Hj & Hat & Hbefore & Hslept).
    exists j. split; [lia|]. split; [exact Hat|]. split; [|exact Hslept].
    intros i Hi. destruct (decide (i = k)) as [->|Hne]; [congruence|apply Hbefore; lia].
Qed.

Section Write.

(** A websocket is what [send] and [close] are called on; the calls are
    recorded, what they do is the websocket's. *)
Variable WebSocketLike : Type.

(** What [_write] and [destroy] read and write of the provider:
    [#websockets] and [_urlMap]. *)
Record Provider : Type := mkProvider {
  websockets : list WebSocketLike;
  _urlMap : gmap Shard WebSocketLike
}.

Variable readyMap : nat -> gmap Shard bool.

(** A run of [_write]: the delays slept, the messages sent and the
    outcome. *)
Record Run : Type := mkRun {
  slept : list Z;
  sent : list (WebSocketLike * string);
  outcome : result unit
}.

(** [_write(message, shard)]; a shard that is not given is [None] (every
    member of the enum is a string that is not empty, and so is truthy).
    [None]: the fuel ran out in [waitShardReady]. *)
Definition _write (fuel : nat) (this : Provider) (message : string)
    (shard : option Shard) : option Run :=
  if (length (websockets this) <? 1)%nat
  then Some (mkRun [] [] (Throw (Error "Websocket closed")))
  else
    match shard with
    | Some s =>
        match _urlMap this !! s with
        | None => Some (mkRun [] [] (Throw (Error "Shard not found")))
        | Some websocket =>
            match waitShardReady readyMap fuel s with
            | None => None
            | Some (delays, Throw e) => Some (mkRun delays [] (Throw e))
            | Some (delays, Ok _) => Some (mkRun delays [(websocket, message)] (Ok tt))
            end
        end
    | None =>
        match last (websockets this) with
        | Some websocket => Some (mkRun [] [(websocket, message)] (Ok tt))
        | None => Some (mkRun [] [] (Throw (Error "Websocket is undefined")))
        end
    end.

(** [destroy()], as far as this class goes: every websocket is closed and
    the list is emptied ([super.destroy()] is not among the sources; it
    cannot reach the private list).  Returns the websockets closed. *)
Definition destroy (this : Provider) : list WebSocketLike * Provider :=
  (websockets this, {| websockets := []; _urlMap := _urlMap this |}).

(** A write ends; it sends the message once when it returns and never when
    it throws.  To a shard, the message goes to the websocket of the shard
    and only after a check has found the shard ready; without a shard it
    goes to the last websocket at once. *)
Theorem _write_sends (fuel : nat) (this : Provider) (message : string)
    (shard : option Shard) :
  (9 <= fuel)%nat ->
  exists run,
    _write fuel this message shard = Some run /\
    match outcome run with
    | Ok _ =>
        exists websocket,
          sent run = [(websocket, message)] /\
          match shard with
          | Some s =>
              _urlMap this !! s = Some websocket /\
              exists j, (j <= 8)%nat /\ readyMap j !! s = Some true /\
                        (forall i, (i < j)%nat -> readyMap i !! s <> Some true) /\
                        slept run = backoff j
          | None => last (websockets this) = Some websocket /\ slept run = []
          end
    | Throw _ => sent run = []
    end.
Proof.
  intros Hfuel. unfold _write.
  destruct (length (websockets this) <? 1)%nat; [eexists; split; reflexivity|].
  destruct shard as [s|].
  - destruct (_urlMap this !! s) as [websocket|] eqn:Hurl;
      [|eexists; split; reflexivity].
    destruct (waitShardReady_loop_ends readyMap s fuel 0 [] ltac:(lia) ltac:(lia))
      as [[delays [[]|e]] Hrun]; unfold waitShardReady; change (Z.of_nat 0) with 0 in Hrun;
      rewrite Hrun; eexists; (split; [reflexivity|]); cbn [outcome sent slept];
      [|reflexivity].
    exists websocket. split; [reflexivity|]. split; [reflexivity|].
    destruct (waitShardReady_loop_Ok readyMap s fuel 0 delays ltac:(lia) Hrun)
      as (j & Hj & Hat & Hbefore & Hslept).
    exists j. split; [lia|]. split; [exact Hat|]. split; [|exact Hslept].
    intros i Hi. apply Hbefore. lia.
  - destruct (last (websockets this)) as [websocket|]; eexists; (split; [reflexivity|]);
      cbn [outcome sent slept]; eauto.
Qed.

(** What a write throws: 'Websocket closed' when the provider has no
    websocket, whatever the shard, as is the case after [destroy];
    'Shard not found' for a shard that is not in the URL map; and the
    timeout of [waitShardReady], after its nine sleeps, for a shard that no
    check finds ready. *)
Theorem _write_throws (fuel : nat) (this : Provider) (message : string) :
  (9 <= fuel)%nat ->
  (websockets this = [] ->
     forall shard, _write fuel this message shard
                   = Some (mkRun [] [] (Throw (Error "Websocket closed")))) /\
  (forall shard, _write fuel (snd (destroy this)) message shard
                 = Some (mkRun [] [] (Throw (Error "Websocket closed")))) /\
  (forall s, websockets this <> [] -> _urlMap this !! s = None ->
     _write fuel this message (Some s)
     = Some (mkRun [] [] (Throw (Error "Shard not found")))) /\
  (forall s websocket, websockets this <> [] -> _urlMap this !! s = Some websocket ->
     (forall k, readyMap k !! s <> Some true) ->
     _write fuel this message (Some s)
     = Some (mkRun (backoff 9) [] (Throw timeout_error))).
Proof.
  intros Hfuel. unfold _write. split; [|split; [|split]].
  - intros -> shard. reflexivity.
  - reflexivity.
  - intros s Hne Hurl. destruct (websockets this); [contradiction|].
    cbn [length Nat.ltb Nat.leb]. rewrite Hurl. reflexivity.
  - intros s websocket Hne Hurl Hnever. destruct (websockets this); [contradiction|].
    cbn [length Nat.ltb Nat.leb]. rewrite Hurl.
    assert (Hrun : waitShardReady readyMap fuel s = Some (backoff 9, Throw timeout_error)).
    { apply (waitShardReady_loop_never readyMap s fuel 0); [|lia|lia].
      intros j _. unfold not_ready. specialize (Hnever j).
      destruct (readyMap j !! s) as [[|]|]; congruence. }
    rewrite Hrun. reflexivity.
Qed.

End Write.

(** A provider with the websockets of Prime and of Cyprus 1, named by their
    URLs. *)
Definition toy_provider : Provider string :=
  mkProvider string ["ws://localhost:8001"; "ws://localhost:8200"]
    (<[Prime := "ws://localhost:8001"]> {[ Cyprus1 := "ws://localhost:8200" ]}).

(** Cyprus 1 is found ready at the third check: the message is sent to its
    websocket after sleeps of 1 and 2 ms. *)
Lemma _write_sends_witness :
  _write string ready_after_two 9 toy_provider "ping" (Some Cyprus1)
  = Some (mkRun string [1; 2] [("ws://localhost:8200", "ping")] (Ok tt)) /\
  exists run,
    _write string ready_after_two 9 toy_provider "ping" (Some Cyprus1) = Some run /\
    match outcome string run with
    | Ok _ =>
        exists websocket,
          sent string run = [(websocket, "ping")] /\
          _urlMap string toy_provider !! Cyprus1 = Some websocket /\
          exists j, (j <= 8)%nat /\ ready_after_two j !! Cyprus1 = Some true /\
                    (forall i, (i < j)%nat -> ready_after_two i !! Cyprus1 <> Some true) /\
                    slept string run = backoff j
    | Throw _ => sent string run = []
    end.
Proof.
  split; [vm_compute; reflexivity|].
  exact (_write_sends string ready_after_two 9 toy_provider "ping" (Some Cyprus1)
           ltac:(lia)).
Defined.

(** Hydra 1 is not in the URL map; Cyprus 1 is never ready in the other
    environment; and nothing is written after [destroy]. *)
Lemma _write_throws_witness :
  _write string ready_after_two 9 toy_provider "ping" (Some Hydra1)
  = Some (mkRun string [] [] (Throw (Error "Shard not found"))) /\
  _write string never_ready 9 toy_provider "ping" (Some Cyprus1)
  = Some (mkRun string [1; 2; 4; 8; 16; 32; 64; 128; 256] [] (Throw timeout_error)) /\
  _write string ready_after_two 9 (snd (destroy string toy_provider)) "ping" None
  = Some (mkRun string [] [] (Throw (Error "Websocket closed"))).
Proof.
  destruct (_write_throws string ready_after_two 9 toy_provider "ping" ltac:(lia))
    as (_ & Hdestroyed & Hmissing & _).
  destruct (_write_throws string never_ready 9 toy_provider "ping" ltac:(lia))
    as (_ & _ & _ & Hnever).
  split; [|split].
  - apply Hmissing; [discriminate|reflexivity].
  - apply (Hnever Cyprus1 "ws://localhost:8200"); [discriminate|reflexivity|].
    intros k. unfold never_ready. rewrite lookup_singleton_eq. discriminate.
  - apply Hdestroyed.
Defined.

End WebSocketProvider.

(** ** Positional numerals

    The source converts between numbers and digit strings in four places:
    [Number.prototype.toString] and [parseInt] (base 10), [hexlify]
    (base 16), [encodeBase58]/[decodeBase58] (base 58) and
    [toBeArray]/[toBigInt] (base 256).  Each is the same pair of loops; they
    are defined once, over digits as numbers. *)

Module Radix.

Lemma last_rev {A : Type} (l : list A) : last (rev l) = head l.
Proof. destruct l as [|x l]; [reflexivity|]. simpl. apply last_snoc. Qed.

Lemma head_rev {A : Type} (l : list A) : head (rev l) = last l.
Proof. rewrite <- (rev_involutive l) at 2. symmetry. apply last_rev. Qed.

Section Radix.

Variable base : Z.

(** [result *= base; result += digit], from the most significant digit on. *)
Definition of_digits (ds : list Z) : Z :=
  fold_left (fun acc d => acc * base + d) ds 0.

(** [while (value) { digits = value % base + digits; value /= base }],
    least significant digit first, one iteration per unit of fuel. *)
Fixpoint to_digits_le (fuel : nat) (v : Z) : list Z :=
  match fuel with
  | O => []
  | S fuel' =>
      if v =? 0 then [] else (v mod base) :: to_digits_le fuel' (v / base)
  end.

(** The loop gives one digit per iteration and at least halves the value:
    one more iteration than the value has bits is enough. *)
Definition to_digits (v : Z) : list Z :=
  rev (to_digits_le (S (Z.to_nat (Z.log2 v))) v).

Fixpoint of_digits_le (ds : list Z) : Z :=
  match ds with
  | [] => 0
  | d :: ds' => d + base * of_digits_le ds'
  end.

Definition digit (d : Z) : Prop := 0 <= d < base.

(** *** Properties *)

Hypothesis base_ge_2 : 2 <= base.

Lemma fold_digits_app (ds : list Z) (acc : Z) :
  fold_left (fun acc d => acc * base + d) ds acc
  = acc * base ^ Z.of_nat (length ds) + of_digits ds.
Proof.
  unfold of_digits. revert acc.
  induction ds as [|d ds IH]; intros acc.
  - simpl. lia.
  - cbn [fold_left length]. rewrite IH, (IH (0 * base + d)).
    rewrite Nat2Z.inj_succ, Z.pow_succ_r by lia. ring.
Qed.

Lemma of_digits_app (ds1 ds2 : list Z) :
  of_digits (ds1 ++ ds2)
  = of_digits ds1 * base ^ Z.of_nat (length ds2) + of_digits ds2.
Proof. unfold of_digits at 1. rewrite fold_left_app. apply fold_digits_app. Qed.

Lemma of_digits_cons (d : Z) (ds : list Z) :
  of_digits (d :: ds) = d * base ^ Z.of_nat (length ds) + of_digits ds.
Proof. apply (of_digits_app [d] ds). Qed.

Lemma of_digits_snoc (ds : list Z) (d : Z) :
  of_digits (ds ++ [d]) = of_digits ds * base + d.
Proof. rewrite of_digits_app. simpl. f_equal. lia. Qed.

Lemma of_digits_rev (ds : list Z) : of_digits (rev ds) = of_digits_le ds.
Proof.
  induction ds as [|d ds IH]; [reflexivity|].
  simpl. rewrite of_digits_snoc, IH. ring.
Qed.

Lemma of_digits_le_nonneg (ds : list Z) :
  Forall digit ds -> 0 <= of_digits_le ds.
Proof.
  induction 1 as [|d ds Hd _ IH]; simpl; [lia|]. unfold digit in Hd. nia.
Qed.

Lemma of_digits_le_bound (ds : list Z) :
  Forall digit ds -> of_digits_le ds < base ^ Z.of_nat (length ds).
Proof.
  induction 1 as [|d ds Hd _ IH]; [simpl; lia|].
  cbn [of_digits_le length]. rewrite Nat2Z.inj_succ, Z.pow_succ_r by lia.
  unfold digit in Hd. nia.
Qed.

Lemma of_digits_as_le (ds : list Z) : of_digits ds = of_digits_le (rev ds).
Proof. rewrite <- of_digits_rev, rev_involutive. reflexivity. Qed.

Lemma of_digits_bound (ds : list Z) :
  Forall digit ds -> 0 <= of_digits ds < base ^ Z.of_nat (length ds).
Proof.
  intros Hds. rewrite of_digits_as_le, <- (length_rev ds).
  apply Forall_rev in Hds. split.
  - apply of_digits_le_nonneg, Hds.
  - apply of_digits_le_bound, Hds.
Qed.

(** Leading zeros do not count. *)
Lemma of_digits_zeros (n : nat) (ds : list Z) :
  of_digits (replicate n 0 ++ ds) = of_digits ds.
Proof.
  induction n as [|n IH]; [reflexivity|].
  cbn [replicate app]. rewrite of_digits_cons, IH. lia.
Qed.

Lemma to_digits_le_digit (fuel : nat) (v : Z) :
  Forall digit (to_digits_le fuel v).
Proof.
  revert v. induction fuel as [|fuel IH]; intros v; simpl; [constructor|].
  destruct (v =? 0); constructor; [|apply IH].
  apply Z.mod_pos_bound. lia.
Qed.

(** With enough fuel the digits the loop gives stand for the value. *)
Lemma of_to_digits_le (fuel : nat) (v : Z) :
  0 <= v < 2 ^ Z.of_nat fuel -> of_digits_le (to_digits_le fuel v) = v.
Proof.
  revert v. induction fuel as [|fuel IH]; intros v Hv.
  - simpl in *. lia.
  - cbn [to_digits_le]. destruct (Z.eqb_spec v 0) as [->|Hne]; [reflexivity|].
    cbn [of_digits_le]. rewrite IH.
    + pose proof (Z.div_mod v base ltac:(lia)). lia.
    + rewrite Nat2Z.inj_succ, Z.pow_succ_r in Hv by lia. split.
      * apply Z.div_pos; lia.
      * apply Z.div_lt_upper_bound; [lia|]. nia.
Qed.

(** A numeral that stands for zero and has no zero in front is empty. *)
Lemma of_digits_le_zero (ds : list Z) :
  Forall digit ds -> of_digits_le ds = 0 -> last ds <> Some 0 -> ds = [].
Proof.
  induction ds as [|d ds IH]; intros Hds Hz Hlast; [reflexivity|].
  exfalso. inversion Hds as [|? ? Hd Hds']; subst.
  pose proof (of_digits_le_nonneg ds Hds') as Hnn.
  cbn [of_digits_le] in Hz. unfold digit in Hd.
  assert (d = 0 /\ of_digits_le ds = 0) as [-> Hz'] by nia.
  destruct ds as [|d' ds]; [apply Hlast; reflexivity|].
  discriminate (IH Hds' Hz' Hlast).
Qed.

(** The loop gives back the digits of a numeral that has no zero in front. *)
Lemma to_of_digits_le (fuel : nat) (ds : list Z) :
  Forall digit ds -> last ds <> Some 0 ->
  of_digits_le ds < 2 ^ Z.of_nat fuel ->
  to_digits_le fuel (of_digits_le ds) = ds.
Proof.
  revert ds. induction fuel as [|fuel IH]; intros ds Hds Hlast Hv.
  - pose proof (of_digits_le_nonneg ds Hds) as Hnn.
    symmetry. apply of_digits_le_zero; [exact Hds| |exact Hlast].
    simpl in Hv. lia.
  - destruct ds as [|d ds]; [reflexivity|].
    inversion Hds as [|? ? Hd Hds']; subst.
    pose proof (of_digits_le_nonneg ds Hds') as Hnn.
    assert (Hnz : of_digits_le (d :: ds) <> 0).
    { intros Hz. discriminate (of_digits_le_zero (d :: ds) Hds Hz Hlast). }
    cbn [to_digits_le]. destruct (Z.eqb_spec (of_digits_le (d :: ds)) 0); [done|].
    cbn [of_digits_le] in *. unfold digit in Hd.
    assert (Hmod : (d + base * of_digits_le ds) mod base = d).
    { replace (d + base * of_digits_le ds) with (d + of_digits_le ds * base) by ring.
      rewrite Z.mod_add by lia. apply Z.mod_small. lia. }
    assert (Hdiv : (d + base * of_digits_le ds) / base = of_digits_le ds).
    { replace (d + base * of_digits_le ds) with (d + of_digits_le ds * base) by ring.
      rewrite Z.div_add by lia. rewrite Z.div_small by lia. lia. }
    rewrite Hmod, Hdiv. f_equal. apply IH; [exact Hds'| |].
    + destruct ds as [|d' ds]; [discriminate|exact Hlast].
    + rewrite Nat2Z.inj_succ, Z.pow_succ_r in Hv by lia. nia.
Qed.

Lemma log2_fuel (v : Z) : 0 <= v -> v < 2 ^ Z.of_nat (S (Z.to_nat (Z.log2 v))).
Proof.
  intros Hv. destruct (Z.eq_dec v 0) as [->|Hne]; [reflexivity|].
  rewrite Nat2Z.inj_succ, Z2Nat.id by apply Z.log2_nonneg.
  apply Z.log2_spec. lia.
Qed.

Lemma to_digits_digit (v : Z) : Forall digit (to_digits v).
Proof. apply Forall_rev, to_digits_le_digit. Qed.

Theorem of_to_digits (v : Z) : 0 <= v -> of_digits (to_digits v) = v.
Proof.
  intros Hv. unfold to_digits. rewrite of_digits_rev.
  apply of_to_digits_le. split; [exact Hv|apply log2_fuel, Hv].
Qed.

Theorem to_of_digits (ds : list Z) :
  Forall digit ds -> head ds <> Some 0 -> to_digits (of_digits ds) = ds.
Proof.
  intros Hds Hhd. unfold to_digits. rewrite of_digits_as_le.
  rewrite to_of_digits_le; [apply rev_involutive| | |].
  - apply Forall_rev, Hds.
  - rewrite last_rev. exact Hhd.
  - apply log2_fuel, of_digits_le_nonneg, Forall_rev, Hds.
Qed.

Lemma to_digits_0 : to_digits 0 = [].
Proof. reflexivity. Qed.

Lemma to_digits_le_last (fuel : nat) (v : Z) :
  0 <= v < 2 ^ Z.of_nat fuel -> last (to_digits_le fuel v) <> Some 0.
Proof.
  intros Hv Hlast. apply last_Some in Hlast as [ds Hds].
  pose proof (of_to_digits_le fuel v Hv) as Hval.
  pose proof (to_digits_le_digit fuel v) as Hdig.
  revert v Hv Hds Hval Hdig. revert ds.
  induction fuel as [|fuel IH]; intros ds v Hv Hds Hval Hdig.
  - destruct ds; discriminate.
  - cbn [to_digits_le] in *. destruct (Z.eqb_spec v 0) as [->|Hne].
    + destruct ds; discriminate.
    + assert (Hv' : 0 <= v / base < 2 ^ Z.of_nat fuel).
      { rewrite Nat2Z.inj_succ, Z.pow_succ_r in Hv by lia. split.
        - apply Z.div_pos; lia.
        - apply Z.div_lt_upper_bound; [lia|]. nia. }
      destruct ds as [|d ds].
      * injection Hds as Hmod Hrest.
        assert (Hdiv0 : v / base = 0).
        { rewrite <- (of_to_digits_le fuel (v / base) Hv'), Hrest. reflexivity. }
        pose proof (Z.div_mod v base ltac:(lia)). lia.
      * injection Hds as Hmod Hrest.
        apply (IH ds (v / base) Hv' Hrest).
        -- apply of_to_digits_le, Hv'.
        -- apply to_digits_le_digit.
Qed.

Lemma to_digits_head (v : Z) : 0 <= v -> head (to_digits v) <> Some 0.
Proof.
  intros Hv. unfold to_digits. rewrite head_rev.
  apply to_digits_le_last. split; [exact Hv|apply log2_fuel, Hv].
Qed.

Lemma of_digits_lower (d : Z) (ds : list Z) :
  Forall digit (d :: ds) -> d <> 0 ->
  base ^ Z.of_nat (length ds) <= of_digits (d :: ds).
Proof.
  intros Hds Hd. inversion Hds as [|? ? Hd' Hds']; subst.
  rewrite of_digits_cons. pose proof (of_digits_bound ds Hds') as Hb.
  unfold digit in Hd'.
  assert (0 < base ^ Z.of_nat (length ds)) by (apply Z.pow_pos_nonneg; lia).
  nia.
Qed.

(** A value below [base ^ w] has at most [w] digits. *)
Lemma to_digits_length (v : Z) (w : nat) :
  0 <= v < base ^ Z.of_nat w -> (length (to_digits v) <= w)%nat.
Proof.
  intros Hv.
  pose proof (to_digits_digit v) as Hdig.
  pose proof (to_digits_head v ltac:(lia)) as Hhd.
  pose proof (of_to_digits v ltac:(lia)) as Hval.
  destruct (to_digits v) as [|d ds]; [simpl; lia|].
  assert (Hd : d <> 0) by (intros ->; apply Hhd; reflexivity).
  pose proof (of_digits_lower d ds Hdig Hd) as Hlow.
  rewrite Hval in Hlow.
  assert (Z.of_nat (length ds) < Z.of_nat w).
  { apply (Z.pow_lt_mono_r_iff base); lia. }
  simpl. lia.
Qed.

End Radix.
End Radix.

(** ** The JavaScript string functions the code calls *)

Module JS.

(** [s.split(sep)] for a separator of one code unit. *)
Fixpoint split (sep : ascii) (s : string) : list string :=
  match s with
  | EmptyString => [""]
  | String c s' =>
      if Ascii.eqb c sep then "" :: split sep s'
      else match split sep s' with
           | [] => [String c ""]
           | field :: fields => String c field :: fields
           end
  end.

(** [fields.join(sep)] *)
Definition join (sep : string) (fields : list string) : string :=
  String.concat sep fields.

(** [s.replace(pattern, replacement)] for a pattern of one code unit and a
    replacement without [$]: the first occurrence only. *)
Fixpoint replace (pattern : ascii) (replacement : string) (s : string) : string :=
  match s with
  | EmptyString => ""
  | String c s' =>
      if Ascii.eqb c pattern then replacement +:+ s'
      else String c (replace pattern replacement s')
  end.

(** [s.toLowerCase()] on code units below 256. *)
Definition toLowerCase_char (c : ascii) : ascii :=
  let n := Z.of_N (N_of_ascii c) in
  if ((65 <=? n) && (n <=? 90)) || ((192 <=? n) && (n <=? 222) && negb (n =? 215))
  then ascii_of_N (Z.to_N (n + 32)) else c.

Fixpoint toLowerCase (s : string) : string :=
  match s with
  | EmptyString => ""
  | String c s' => String (toLowerCase_char c) (toLowerCase s')
  end.

(** The value of a digit of [parseInt] in the given radix. *)
Definition digit_value (radix : Z) (c : ascii) : option Z :=
  let n := Z.of_N (N_of_ascii c) in
  let v := if (48 <=? n) && (n <=? 57) then n - 48
           else if (97 <=? n) && (n <=? 122) then n - 87
           else if (65 <=? n) && (n <=? 90) then n - 55
           else radix in
  if v <? radix then Some v else None.

(** The digits a string starts with. *)
Fixpoint leading_digits (radix : Z) (s : string) : list Z :=
  match s with
  | EmptyString => []
  | String c s' =>
      match digit_value radix c with
      | Some d => d :: leading_digits radix s'
      | None => []
      end
  end.

(** White space and line terminators among the code units below 256. *)
Definition is_whitespace (c : ascii) : bool :=
  let n := Z.of_N (N_of_ascii c) in
  ((9 <=? n) && (n <=? 13)) || (n =? 32) || (n =? 160).

Fixpoint trimStart (s : string) : string :=
  match s with
  | EmptyString => ""
  | String c s' => if is_whitespace c then trimStart s' else s
  end.

(** [parseInt(s)] without a radix: white space, a sign, [0x] or [0X] for
    base 16, then the longest run of digits; [None] is [NaN].  The value is
    the integer that the digits spell.  The Number that [parseInt] returns
    is the Number value of that integer ([Number_of_integer] below): the
    integer itself up to [2 ^ 53], and the nearest double, or an infinity,
    above.  The code compares the number with 994 and 969 and derives the
    child of that index, where the rounding changes nothing, and it prints
    the number, which [NumberOrNaN_toString] does of the Number value. *)
Definition parseInt (s : string) : option Z :=
  let s := trimStart s in
  let '(sign, s) :=
    match s with
    | String "-" s' => (-1, s')
    | String "+" s' => (1, s')
    | _ => (1, s)
    end in
  let '(radix, s) :=
    match s with
    | String "0" (String "x" s') | String "0" (String "X" s') => (16, s')
    | _ => (10, s)
    end in
  match leading_digits radix s with
  | [] => None
  | ds => Some (sign * Radix.of_digits radix ds)
  end.

Definition decimal_char (d : Z) : ascii := ascii_of_N (Z.to_N (48 + d)).

Definition string_of_chars (cs : list ascii) : string := string_of_list_ascii cs.

(** [n.toString()] of a number that holds an integer (below [1e21] in
    magnitude, as the safe integers are). *)
Definition Number_toString (n : Z) : string :=
  if n =? 0 then "0"
  else if n <? 0 then "-" +:+ string_of_chars (decimal_char <$> Radix.to_digits 10 (- n))
  else string_of_chars (decimal_char <$> Radix.to_digits 10 n).

(** [s.startsWith(prefix)] *)
Fixpoint startsWith (prefix s : string) : bool :=
  match prefix, s with
  | EmptyString, _ => true
  | String _ _, EmptyString => false
  | String c prefix', String d s' => Ascii.eqb c d && startsWith prefix' s'
  end.

(** [/^[0-9]+$/] *)
Fixpoint all_decimal (s : string) : bool :=
  match s with
  | EmptyString => true
  | String c s' =>
      match digit_value 10 c with
      | Some _ => all_decimal s'
      | None => false
      end
  end.

Definition is_decimal (s : string) : bool :=
  match s with
  | EmptyString => false
  | _ => all_decimal s
  end.

(** *** Numbers

    A Number is a double.  The code makes Numbers of strings in two places,
    with [parseInt] and with [Number], and prints one that [parseInt]
    made. *)

(** [NaN], an infinity, or the double [m * 2 ^ e] (the sign of a zero plays
    no part in the code and is left out). *)
Inductive number : Type :=
| NaN
| Infinity (negative : bool)
| Double (m e : Z).

Definition negate (x : number) : number :=
  match x with
  | NaN => NaN
  | Infinity negative => Infinity (negb negative)
  | Double m e => Double (- m) e
  end.

(** The integer a Number is, if it is one: [x == z] of the code, for an
    integer [z], is [number_integer x = Some z]. *)
Definition number_integer (x : number) : option Z :=
  match x with
  | Double m e =>
      if 0 <=? e then Some (m * 2 ^ e)
      else if m mod 2 ^ (- e) =? 0 then Some (m / 2 ^ (- e)) else None
  | _ => None
  end.

(** [a / b] to the nearest integer, to the even one of two as near. *)
Definition div_half_even (a b : Z) : Z :=
  let q := a / b in
  let r := a mod b in
  if 2 * r <? b then q
  else if b <? 2 * r then q + 1
  else if Z.even q then q else q + 1.

(** The binary exponent of [a / b]: [2 ^ e <= a / b < 2 ^ (e + 1)]. *)
Definition ratio_log2 (a b : Z) : Z :=
  let e := Z.log2 a - Z.log2 b in
  let below := if 0 <=? e then a <? b * 2 ^ e else a * 2 ^ (- e) <? b in
  if below then e - 1 else e.

(** The Number value of [a / b], for [0 <= a] and [0 < b]: the nearest
    double, the one of even significand of two as near.  A double has a
    significand of 53 bits, or fewer below [2 ^ -1022]; what rounds to
    [2 ^ 1024] is infinite.  (The language lets an implementation round a
    decimal numeral of more than twenty digits to twenty digits first; the
    value here is that of the whole numeral, as the engines in use give
    it.) *)
Definition Number_of_ratio (a b : Z) : number :=
  if a =? 0 then Double 0 0
  else
    let e := Z.max (ratio_log2 a b) (-1022) - 52 in
    let m := if 0 <=? e then div_half_even a (b * 2 ^ e)
             else div_half_even (a * 2 ^ (- e)) b in
    if m =? 0 then Double 0 0
    else if (0 <=? e) && (2 ^ 1024 <=? m * 2 ^ e) then Infinity false
    else Double m e.

(** The Number value of an integer; an integer up to [2 ^ 53] is a double. *)
Definition Number_of_integer (z : Z) : number :=
  if Z.abs z <=? 2 ^ 53 then Double z 0
  else if z <? 0 then negate (Number_of_ratio (- z) 1)
  else Number_of_ratio z 1.

(** [c] is a decimal numeral for the double that holds the integer [z]. *)
Definition rounds_to (c z : Z) : bool :=
  match number_integer (Number_of_integer c) with
  | Some z' => z' =? z
  | None => false
  end.

(** [Number::toString] looks for the numeral of fewest digits that stands
    for the double, the nearest one if there are several: the multiples of
    [p] on either side of [z] are tried, for [p] the powers of ten from the
    one of the first digit of [z] down. *)
Fixpoint shortest_numeral (fuel : nat) (z p : Z) : Z :=
  match fuel with
  | O => z
  | S fuel' =>
      let lo := z / p * p in
      let hi := lo + p in
      match rounds_to lo z, rounds_to hi z with
      | true, true =>
          if z - lo <? hi - z then lo
          else if hi - z <? z - lo then hi
          else if Z.even (lo / p) then lo else hi
      | true, false => lo
      | false, true => hi
      | false, false => shortest_numeral fuel' z (p / 10)
      end
  end.

Definition digits_string (ds : list Z) : string :=
  string_of_chars (decimal_char <$> ds).

Fixpoint drop_zeros (ds : list Z) : list Z :=
  match ds with
  | 0 :: ds' => drop_zeros ds'
  | _ => ds
  end.

(** [x.toString()] of a double that holds a positive integer: its digits
    up to [2 ^ 53]; above, the digits of the shortest numeral, followed by
    zeros for a numeral below [1e21] and by an exponent otherwise. *)
Definition positive_toString (z : Z) : string :=
  if z <=? 2 ^ 53 then digits_string (Radix.to_digits 10 z)
  else
    let n := length (Radix.to_digits 10 z) in
    let ds := Radix.to_digits 10 (shortest_numeral n z (10 ^ Z.of_nat (n - 1))) in
    if (length ds <=? 21)%nat then digits_string ds
    else
      match rev (drop_zeros (rev ds)) with
      | [] => "0"
      | d :: fraction =>
          digits_string [d]
          +:+ (match fraction with [] => "" | _ => "." +:+ digits_string fraction end)
          +:+ "e+" +:+ Number_toString (Z.of_nat (length ds - 1))
      end.

(** [String(x)] of a number that [parseInt] made: [None] is [NaN], and
    [Some n] the Number value of the integer [n]. *)
Definition NumberOrNaN_toString (x : option Z) : string :=
  match x with
  | None => "NaN"
  | Some n =>
      match number_integer (Number_of_integer n) with
      | Some z =>
          if z =? 0 then "0"
          else if z <? 0 then "-" +:+ positive_toString (- z)
          else positive_toString z
      | None => if n <? 0 then "-Infinity" else "Infinity"
      end
  end.

(** The longest prefix of characters that pass a test, and the rest. *)
Fixpoint span (test : ascii -> bool) (s : string) : string * string :=
  match s with
  | EmptyString => ("", "")
  | String c s' =>
      if test c then let '(prefix, rest) := span test s' in (String c prefix, rest)
      else ("", s)
  end.

Definition is_digit (radix : Z) (c : ascii) : bool :=
  match digit_value radix c with Some _ => true | None => false end.

Definition trimEnd (s : string) : string :=
  string_of_chars (rev (list_ascii_of_string (trimStart (string_of_chars
    (rev (list_ascii_of_string s)))))).

(** The value of a string that is a run of digits, and of no other. *)
Definition digits_value (radix : Z) (s : string) : option Z :=
  match span (is_digit radix) s with
  | (String c s', "") => Some (Radix.of_digits radix (leading_digits radix (String c s')))
  | _ => None
  end.

(** The exponent of a decimal literal: nothing, or [e] or [E], a sign if
    any, and digits. *)
Definition exponent_value (s : string) : option Z :=
  match s with
  | "" => Some 0
  | String c s' =>
      if Ascii.eqb c "e" || Ascii.eqb c "E" then
        match s' with
        | String "-" s'' => Z.opp <$> digits_value 10 s''
        | String "+" s'' => digits_value 10 s''
        | _ => digits_value 10 s'
        end
      else None
  end.

(** A decimal literal without its sign: [Infinity], or digits with a point
    somewhere or nowhere, at least one digit in all, and an exponent. *)
Definition unsigned_decimal (s : string) : number :=
  if String.eqb s "Infinity" then Infinity false
  else
    let '(integer, rest) := span (is_digit 10) s in
    let '(fraction, rest) :=
      match rest with
      | String "." rest' => span (is_digit 10) rest'
      | _ => ("", rest)
      end in
    match integer +:+ fraction, exponent_value rest with
    | String c digits, Some exponent =>
        let mantissa := Radix.of_digits 10 (leading_digits 10 (String c digits)) in
        let exponent := exponent - Z.of_nat (String.length fraction) in
        if 0 <=? exponent then Number_of_ratio (mantissa * 10 ^ exponent) 1
        else Number_of_ratio mantissa (10 ^ (- exponent))
    | _, _ => NaN
    end.

Definition of_digits_value (x : option Z) : number :=
  match x with
  | Some z => Number_of_ratio z 1
  | None => NaN
  end.

(** [Number(s)] of a string: white space around a numeric literal, which is
    a decimal literal with a sign if any, or digits in base 2, 8 or 16 after
    [0b], [0o] or [0x]; zero when there is no literal, and [NaN] for any
    other string. *)
Definition Number (s : string) : number :=
  let s := trimEnd (trimStart s) in
  match s with
  | "" => Double 0 0
  | String "0" (String "x" s') | String "0" (String "X" s') =>
      of_digits_value (digits_value 16 s')
  | String "0" (String "o" s') | String "0" (String "O" s') =>
      of_digits_value (digits_value 8 s')
  | String "0" (String "b" s') | String "0" (String "B" s') =>
      of_digits_value (digits_value 2 s')
  | String "-" s' => negate (unsigned_decimal s')
  | String "+" s' => unsigned_decimal s'
  | _ => unsigned_decimal s
  end.

(** *** Properties *)

Example split_examples :
  split "/" "m/44'/994'/0'/0" = ["m"; "44'"; "994'"; "0'"; "0"] /\
  split "/" "" = [""] /\ split "/" "/" = [""; ""] /\ split "/" "abc" = ["abc"].
Proof. repeat split. Qed.

Example parseInt_examples :
  parseInt "994" = Some 994 /\ parseInt "  -12px" = Some (-12) /\
  parseInt "0x3e2" = Some 994 /\ parseInt "" = None /\ parseInt "m" = None /\
  parseInt "0" = Some 0 /\ parseInt "0x" = None /\ parseInt "+7" = Some 7.
Proof. repeat split. Qed.

(** The Number value of an integer above [2 ^ 53] and its text. *)
Example NumberOrNaN_toString_examples :
  NumberOrNaN_toString (parseInt "60") = "60" /\
  NumberOrNaN_toString (parseInt "x") = "NaN" /\
  NumberOrNaN_toString (parseInt "9007199254740992") = "9007199254740992" /\
  NumberOrNaN_toString (parseInt "9007199254740993") = "9007199254740992" /\
  NumberOrNaN_toString (parseInt "-9007199254740995") = "-9007199254740996" /\
  NumberOrNaN_toString (parseInt "18446744073709551615") = "18446744073709552000" /\
  NumberOrNaN_toString (parseInt "999999999999999999999") = "1e+21" /\
  NumberOrNaN_toString (parseInt "123456789012345678901234567890")
  = "1.2345678901234568e+29" /\
  NumberOrNaN_toString (Some (2 ^ 1024)) = "Infinity".
Proof. vm_compute. repeat split. Qed.

Example Number_examples :
  number_integer (Number "994") = Some 994 /\
  number_integer (Number " 969 ") = Some 969 /\
  number_integer (Number "0x3e2") = Some 994 /\
  number_integer (Number "9.94e2") = Some 994 /\
  number_integer (Number "993.99999999999999999999") = Some 994 /\
  number_integer (Number "") = Some 0 /\
  number_integer (Number "994.5") = None /\
  Number "994.5" = Double 8747714510585856 (-43) /\
  Number "44a" = NaN /\ Number "-0x10" = NaN /\ Number "." = NaN /\
  Number "-Infinity" = Infinity true /\ Number "1e309" = Infinity false /\
  number_integer (Number "9007199254740993") = Some 9007199254740992.
Proof. vm_compute. repeat split. Qed.

Example Number_toString_examples :
  Number_toString 0 = "0" /\ Number_toString 994 = "994" /\
  Number_toString (-15) = "-15" /\ Number_toString 4294967295 = "4294967295".
Proof. repeat split. Qed.

Lemma split_nonempty (sep : ascii) (s : string) : split sep s <> [].
Proof.
  destruct s as [|c s]; simpl; [discriminate|].
  destruct (Ascii.eqb c sep); [discriminate|].
  destruct (split sep s); discriminate.
Qed.

Lemma digit_value_decimal_char (d : Z) :
  0 <= d < 10 -> digit_value 10 (decimal_char d) = Some d.
Proof.
  intros Hd.
  assert (d = 0 \/ d = 1 \/ d = 2 \/ d = 3 \/ d = 4 \/ d = 5 \/ d = 6 \/
          d = 7 \/ d = 8 \/ d = 9) as Hcases by lia.
  repeat (destruct Hcases as [->|Hcases]; [reflexivity|]).
  subst d. reflexivity.
Qed.

Lemma leading_digits_decimal (ds : list Z) :
  Forall (Radix.digit 10) ds ->
  leading_digits 10 (string_of_chars (decimal_char <$> ds)) = ds.
Proof.
  induction 1 as [|d ds Hd _ IH]; [reflexivity|].
  cbn [fmap list_fmap string_of_chars string_of_list_ascii leading_digits].
  rewrite digit_value_decimal_char by exact Hd.
  f_equal. exact IH.
Qed.

Lemma all_decimal_chars (ds : list Z) :
  Forall (Radix.digit 10) ds ->
  all_decimal (string_of_chars (decimal_char <$> ds)) = true.
Proof.
  induction 1 as [|d ds Hd _ IH]; [reflexivity|].
  cbn [fmap list_fmap string_of_chars string_of_list_ascii all_decimal].
  rewrite digit_value_decimal_char by exact Hd. exact IH.
Qed.

(** The decimal numeral of a positive number starts with a digit that is
    not zero: no white space, sign or [0x] for [parseInt] to strip. *)
Lemma to_digits_10_pos (n : Z) :
  0 < n ->
  exists d ds, Radix.to_digits 10 n = d :: ds /\ 1 <= d < 10
               /\ Forall (Radix.digit 10) ds.
Proof.
  intros Hn.
  pose proof (Radix.to_digits_digit 10 ltac:(lia) n) as Hdig.
  pose proof (Radix.to_digits_head 10 ltac:(lia) n ltac:(lia)) as Hhd.
  pose proof (Radix.of_to_digits 10 ltac:(lia) n ltac:(lia)) as Hval.
  destruct (Radix.to_digits 10 n) as [|d ds].
  - cbn in Hval. lia.
  - inversion Hdig as [|? ? Hd Hds]; subst. exists d, ds.
    split; [reflexivity|]. split; [|exact Hds].
    unfold Radix.digit in Hd. assert (d <> 0) by (intros ->; apply Hhd; reflexivity).
    lia.
Qed.

Definition nonzero_digit_chars : list ascii :=
  ["1"; "2"; "3"; "4"; "5"; "6"; "7"; "8"; "9"]%char.

Lemma decimal_char_nonzero (d : Z) :
  1 <= d < 10 -> In (decimal_char d) nonzero_digit_chars.
Proof.
  intros Hd.
  assert (d = 1 \/ d = 2 \/ d = 3 \/ d = 4 \/ d = 5 \/ d = 6 \/
          d = 7 \/ d = 8 \/ d = 9) as Hcases by lia.
  repeat (destruct Hcases as [->|Hcases]; [vm_compute; tauto|]).
  subst d. vm_compute. tauto.
Qed.

Lemma parseInt_no_prefix (c : ascii) (rest : string) :
  In c nonzero_digit_chars ->
  parseInt (String c rest)
  = match leading_digits 10 (String c rest) with
    | [] => None
    | ds => Some (1 * Radix.of_digits 10 ds)
    end.
Proof.
  simpl. intros H.
  repeat (destruct H as [<-|H]; [reflexivity|]). destruct H.
Qed.

(** [parseInt] reads back what [toString] printed. *)
Theorem parseInt_Number_toString (n : Z) :
  0 <= n -> parseInt (Number_toString n) = Some n.
Proof.
  intros Hn. unfold Number_toString.
  destruct (Z.eqb_spec n 0) as [->|Hne]; [reflexivity|].
  destruct (Z.ltb_spec n 0) as [Hneg|_]; [lia|].
  destruct (to_digits_10_pos n ltac:(lia)) as (d & ds & Hdigits & Hd & Hds).
  pose proof (Radix.of_to_digits 10 ltac:(lia) n Hn) as Hval.
  rewrite Hdigits in *.
  assert (Hlead : leading_digits 10 (string_of_chars (decimal_char <$> d :: ds))
                  = d :: ds).
  { apply leading_digits_decimal. constructor; [unfold Radix.digit; lia|exact Hds]. }
  revert Hlead. cbn [fmap list_fmap string_of_chars string_of_list_ascii].
  intros Hlead. rewrite parseInt_no_prefix by (apply decimal_char_nonzero, Hd).
  rewrite Hlead, Hval. f_equal. lia.
Qed.

Lemma is_decimal_Number_toString (n : Z) :
  0 <= n -> is_decimal (Number_toString n) = true.
Proof.
  intros Hn. unfold Number_toString.
  destruct (Z.eqb_spec n 0) as [->|Hne]; [reflexivity|].
  destruct (Z.ltb_spec n 0) as [Hneg|_]; [lia|].
  destruct (to_digits_10_pos n ltac:(lia)) as (d & ds & Hdigits & Hd & Hds).
  rewrite Hdigits.
  assert (Hall : all_decimal (string_of_chars (decimal_char <$> d :: ds)) = true).
  { apply all_decimal_chars. constructor; [unfold Radix.digit; lia|exact Hds]. }
  revert Hall. cbn [fmap list_fmap string_of_chars string_of_list_ascii is_decimal].
  tauto.
Qed.

Fixpoint contains (c : ascii) (s : string) : bool :=
  match s with
  | EmptyString => false
  | String c' s' => Ascii.eqb c' c || contains c s'
  end.

Lemma all_decimal_contains (c : ascii) (s : string) :
  all_decimal s = true -> digit_value 10 c = None -> contains c s = false.
Proof.
  intros Hall Hc. induction s as [|c' s IH]; [reflexivity|].
  cbn [all_decimal contains] in *.
  destruct (digit_value 10 c') as [d|] eqn:Hd; [|discriminate].
  rewrite (IH Hall), orb_false_r.
  destruct (Ascii.eqb_spec c' c) as [->|_]; [congruence|reflexivity].
Qed.

Lemma append_cons (c : ascii) (s t : string) :
  String c s +:+ t = String c (s +:+ t).
Proof. reflexivity. Qed.

Lemma append_nil (t : string) : "" +:+ t = t.
Proof. reflexivity. Qed.

Lemma split_field (sep : ascii) (field rest : string) :
  contains sep field = false ->
  split sep (field +:+ String sep rest) = field :: split sep rest.
Proof.
  induction field as [|c field IH]; intros Hno.
  - rewrite append_nil. cbn [split]. rewrite Ascii.eqb_refl. reflexivity.
  - cbn [contains] in Hno. apply orb_false_elim in Hno as [Hc Hfield].
    rewrite append_cons. cbn [split]. rewrite Hc, (IH Hfield). reflexivity.
Qed.

Lemma replace_first (pattern : ascii) (replacement before after : string) :
  contains pattern before = false ->
  replace pattern replacement (before +:+ String pattern after)
  = before +:+ replacement +:+ after.
Proof.
  induction before as [|c before IH]; intros Hno.
  - rewrite !append_nil. cbn [replace]. rewrite Ascii.eqb_refl. reflexivity.
  - cbn [contains] in Hno. apply orb_false_elim in Hno as [Hc Hbefore].
    rewrite !append_cons. cbn [replace]. rewrite Hc, (IH Hbefore). reflexivity.
Qed.

Lemma append_empty_r (s : string) : s +:+ "" = s.
Proof. induction s as [|c s IH]; [reflexivity|]. rewrite append_cons, IH. reflexivity. Qed.

Lemma split_whole (sep : ascii) (s : string) :
  contains sep s = false -> split sep s = [s].
Proof.
  induction s as [|c s IH]; intros Hno; [reflexivity|].
  cbn [contains] in Hno. apply orb_false_elim in Hno as [Hc Hs].
  cbn [split]. rewrite Hc, (IH Hs). reflexivity.
Qed.

Lemma is_decimal_all (s : string) : is_decimal s = true -> all_decimal s = true.
Proof. destruct s; [discriminate|tauto]. Qed.

(** A decimal numeral is one path component, and it is not [m]. *)
Lemma split_decimal (s : string) : is_decimal s = true -> split "/" s = [s].
Proof.
  intros Hs. apply split_whole, all_decimal_contains; [|reflexivity].
  apply is_decimal_all, Hs.
Qed.

Lemma decimal_not_m (s : string) : is_decimal s = true -> String.eqb s "m" = false.
Proof.
  intros Hs. destruct (String.eqb_spec s "m") as [->|]; [discriminate|reflexivity].
Qed.

(** *** Fields and separators *)

Lemma contains_append (c : ascii) (s t : string) :
  contains c (s +:+ t) = contains c s || contains c t.
Proof.
  induction s as [|c' s IH]; [reflexivity|].
  rewrite append_cons. cbn [contains]. rewrite IH. apply orb_assoc.
Qed.

Lemma append_assoc (s t u : string) : (s +:+ t) +:+ u = s +:+ (t +:+ u).
Proof.
  induction s as [|c s IH]; [reflexivity|]. rewrite !append_cons, IH. reflexivity.
Qed.

(** Appending a separator and a field adds the field. *)
Lemma split_app_field (sep : ascii) (s field : string) :
  contains sep field = false ->
  split sep (s +:+ String sep field) = split sep s ++ [field].
Proof.
  intros Hfield. induction s as [|c s IH].
  - rewrite append_nil. cbn [split]. rewrite Ascii.eqb_refl, (split_whole _ _ Hfield).
    reflexivity.
  - rewrite append_cons. cbn [split]. rewrite IH.
    destruct (Ascii.eqb c sep); [reflexivity|].
    pose proof (split_nonempty sep s) as Hne.
    destruct (split sep s) as [|f fs]; [contradiction|reflexivity].
Qed.

(** No field holds the separator. *)
Lemma split_fields (sep : ascii) (s : string) :
  Forall (fun field => contains sep field = false) (split sep s).
Proof.
  induction s as [|c s IH]; [repeat constructor|].
  cbn [split]. destruct (Ascii.eqb c sep) eqn:Hc; [constructor; [reflexivity|exact IH]|].
  pose proof (split_nonempty sep s) as Hne.
  destruct (split sep s) as [|f fs]; [contradiction|].
  inversion IH as [|? ? Hf Hfs]; subst. constructor; [|exact Hfs].
  cbn [contains]. rewrite Hc, Hf. reflexivity.
Qed.

(** Joining fields and splitting again gives the fields back. *)
Lemma split_join (sep : ascii) (fields : list string) :
  fields <> [] -> Forall (fun field => contains sep field = false) fields ->
  split sep (join (String sep "") fields) = fields.
Proof.
  intros Hne Hfields. induction Hfields as [|f fs Hf Hfs IH]; [contradiction|].
  destruct fs as [|f' fs].
  - apply split_whole, Hf.
  - change (join (String sep "") (f :: f' :: fs))
      with (f +:+ String sep "" +:+ join (String sep "") (f' :: fs)).
    change (String sep "" +:+ join (String sep "") (f' :: fs))
      with (String sep (join (String sep "") (f' :: fs))).
    rewrite (split_field _ _ _ Hf). f_equal. apply IH. discriminate.
Qed.

End JS.

(** ** Regular expressions

    The source tests one path against a regular expression that is anchored
    on both sides ([/^...$/.test(path)]): the whole string must match.  The
    expressions are matched by derivatives. *)

Module Regex.

(** A regular expression over code units. *)
Inductive regex : Type :=
| Empty
| Eps
| Class (p : ascii -> bool)
| Cat (r1 r2 : regex)
| Alt (r1 r2 : regex)
| Star (r : regex).

(** [r+] *)
Definition Plus (r : regex) : regex := Cat r (Star r).

(** The characters of a string, one after the other. *)
Fixpoint Lit (s : string) : regex :=
  match s with
  | EmptyString => Eps
  | String c s' => Cat (Class (Ascii.eqb c)) (Lit s')
  end.

(** [\d] *)
Definition Digit : regex :=
  Class (fun c => match JS.digit_value 10 c with Some _ => true | None => false end).

Fixpoint nullable (r : regex) : bool :=
  match r with
  | Empty => false
  | Eps => true
  | Class _ => false
  | Cat r1 r2 => nullable r1 && nullable r2
  | Alt r1 r2 => nullable r1 || nullable r2
  | Star _ => true
  end.

Fixpoint deriv (c : ascii) (r : regex) : regex :=
  match r with
  | Empty => Empty
  | Eps => Empty
  | Class p => if p c then Eps else Empty
  | Cat r1 r2 =>
      if nullable r1 then Alt (Cat (deriv c r1) r2) (deriv c r2)
      else Cat (deriv c r1) r2
  | Alt r1 r2 => Alt (deriv c r1) (deriv c r2)
  | Star r' => Cat (deriv c r') (Star r')
  end.

(** [/^r$/.test(s)] *)
Fixpoint test (r : regex) (s : string) : bool :=
  match s with
  | EmptyString => nullable r
  | String c s' => test (deriv c r) s'
  end.

(** The strings an expression stands for. *)
Inductive Matches : regex -> string -> Prop :=
| MEps : Matches Eps ""
| MClass p c : p c = true -> Matches (Class p) (String c "")
| MCat r1 r2 s1 s2 : Matches r1 s1 -> Matches r2 s2 -> Matches (Cat r1 r2) (s1 +:+ s2)
| MAltL r1 r2 s : Matches r1 s -> Matches (Alt r1 r2) s
| MAltR r1 r2 s : Matches r2 s -> Matches (Alt r1 r2) s
| MStar0 r : Matches (Star r) ""
| MStarS r s1 s2 : Matches r s1 -> Matches (Star r) s2 -> Matches (Star r) (s1 +:+ s2).

(** *** Properties *)

Lemma append_empty (s t : string) : s +:+ t = "" -> s = "" /\ t = "".
Proof. destruct s; [rewrite JS.append_nil; auto|discriminate]. Qed.

Lemma Matches_Empty_inv (s : string) : Matches Empty s -> False.
Proof. inversion 1. Qed.

Lemma Matches_Eps_inv (s : string) : Matches Eps s -> s = "".
Proof. inversion 1. reflexivity. Qed.

Lemma Matches_Class_inv (p : ascii -> bool) (s : string) :
  Matches (Class p) s -> exists c, s = String c "" /\ p c = true.
Proof. inversion 1; subst. eauto. Qed.

Lemma Matches_Cat_inv (r1 r2 : regex) (s : string) :
  Matches (Cat r1 r2) s ->
  exists s1 s2, s = s1 +:+ s2 /\ Matches r1 s1 /\ Matches r2 s2.
Proof. inversion 1; subst. eauto. Qed.

Lemma Matches_Alt_inv (r1 r2 : regex) (s : string) :
  Matches (Alt r1 r2) s -> Matches r1 s \/ Matches r2 s.
Proof. inversion 1; subst; auto. Qed.

Lemma nullable_spec (r : regex) : nullable r = true <-> Matches r "".
Proof.
  induction r as [| |p|r1 IH1 r2 IH2|r1 IH1 r2 IH2|r IH]; cbn [nullable].
  - split; [discriminate|]. intros H. destruct (Matches_Empty_inv _ H).
  - split; [constructor|reflexivity].
  - split; [discriminate|]. intros H.
    apply Matches_Class_inv in H as (c & Hc & _). discriminate.
  - rewrite andb_true_iff, IH1, IH2. split.
    + intros [H1 H2]. exact (MCat _ _ "" "" H1 H2).
    + intros H. apply Matches_Cat_inv in H as (s1 & s2 & Heq & H1 & H2).
      symmetry in Heq. apply append_empty in Heq as [-> ->]. auto.
  - rewrite orb_true_iff, IH1, IH2. split.
    + intros [H|H]; [apply MAltL|apply MAltR]; exact H.
    + apply Matches_Alt_inv.
  - split; [constructor|reflexivity].
Qed.

(** A string that starts with [c] and is in [r*] starts with a string of [r]
    that starts with [c]. *)
Lemma Matches_Star_cons (r : regex) (c : ascii) (s : string) :
  Matches (Star r) (String c s) ->
  exists s1 s2, s = s1 +:+ s2 /\ Matches r (String c s1) /\ Matches (Star r) s2.
Proof.
  intros H. remember (Star r) as r' eqn:Hr. remember (String c s) as t eqn:Ht.
  revert s Ht. induction H as [| | | | | |r0 s1 s2 H1 _ H2 IH2]; intros u Hu;
    try discriminate.
  injection Hr as ->. destruct s1 as [|c1 s1].
  - rewrite JS.append_nil in Hu. apply (IH2 eq_refl _ Hu).
  - rewrite JS.append_cons in Hu. injection Hu as -> <-. eauto.
Qed.

Lemma deriv_spec (c : ascii) (r : regex) (s : string) :
  Matches (deriv c r) s <-> Matches r (String c s).
Proof.
  revert s. induction r as [| |p|r1 IH1 r2 IH2|r1 IH1 r2 IH2|r IH]; intros s;
    cbn [deriv].
  - split; intros H; destruct (Matches_Empty_inv _ H).
  - split; intros H; [destruct (Matches_Empty_inv _ H)|].
    apply Matches_Eps_inv in H. discriminate.
  - destruct (p c) eqn:Hp; split; intros H.
    + apply Matches_Eps_inv in H as ->. constructor. exact Hp.
    + apply Matches_Class_inv in H as (c' & [= <- ->] & _). constructor.
    + destruct (Matches_Empty_inv _ H).
    + apply Matches_Class_inv in H as (c' & [= <- ->] & Hc). congruence.
  - assert (Hcat : forall t, Matches (Cat (deriv c r1) r2) t ->
                             Matches (Cat r1 r2) (String c t)).
    { intros t H. apply Matches_Cat_inv in H as (s1 & s2 & -> & H1 & H2).
      rewrite <- JS.append_cons. constructor; [apply IH1, H1|exact H2]. }
    split.
    + destruct (nullable r1) eqn:Hn; [|apply Hcat].
      intros H. apply Matches_Alt_inv in H as [HL|HR]; [apply Hcat, HL|].
      rewrite <- (JS.append_nil (String c s)).
      constructor; [apply nullable_spec, Hn|apply IH2, HR].
    + intros H. apply Matches_Cat_inv in H as (s1 & s2 & Heq & H1 & H2).
      destruct s1 as [|c1 s1].
      * rewrite JS.append_nil in Heq. subst s2.
        apply nullable_spec in H1. rewrite H1. apply MAltR, IH2, H2.
      * rewrite JS.append_cons in Heq. injection Heq as <- ->.
        assert (Hc : Matches (Cat (deriv c r1) r2) (s1 +:+ s2)).
        { constructor; [apply IH1, H1|exact H2]. }
        destruct (nullable r1); [apply MAltL|]; exact Hc.
  - split; intros H; apply Matches_Alt_inv in H as [H|H];
      [apply MAltL, IH1|apply MAltR, IH2|apply MAltL, IH1|apply MAltR, IH2];
      exact H.
  - split.
    + intros H. apply Matches_Cat_inv in H as (s1 & s2 & -> & H1 & H2).
      rewrite <- JS.append_cons. apply MStarS; [apply IH, H1|exact H2].
    + intros H. apply Matches_Star_cons in H as (s1 & s2 & -> & H1 & H2).
      constructor; [apply IH, H1|exact H2].
Qed.

(** The test accepts the strings of the expression, and no other. *)
Theorem test_spec (r : regex) (s : string) : test r s = true <-> Matches r s.
Proof.
  revert r. induction s as [|c s IH]; intros r; cbn [test].
  - apply nullable_spec.
  - rewrite IH. apply deriv_spec.
Qed.

Lemma Matches_Lit (s t : string) : Matches (Lit s) t <-> t = s.
Proof.
  revert t. induction s as [|c s IH]; intros t; cbn [Lit].
  - split; [apply Matches_Eps_inv|intros ->; constructor].
  - split.
    + intros H. apply Matches_Cat_inv in H as (s1 & s2 & -> & H1 & H2).
      apply Matches_Class_inv in H1 as (c' & -> & Hc).
      apply Ascii.eqb_eq in Hc as <-. apply IH in H2 as ->. reflexivity.
    + intros ->. change (String c s) with (String c "" +:+ s).
      constructor; [constructor; apply Ascii.eqb_refl|apply IH; reflexivity].
Qed.

Lemma Matches_Star_digits (t : string) :
  Matches (Star Digit) t <-> JS.all_decimal t = true.
Proof.
  split.
  - intros H. remember (Star Digit) as r eqn:Hr.
    induction H as [| | | | | |r0 s1 s2 H1 _ H2 IH2]; try discriminate; [reflexivity|].
    injection Hr as ->. apply Matches_Class_inv in H1 as (c & -> & Hc).
    rewrite JS.append_cons, JS.append_nil. cbn [JS.all_decimal].
    destruct (JS.digit_value 10 c); [apply IH2; reflexivity|discriminate].
  - induction t as [|c t IH]; [constructor|]. cbn [JS.all_decimal].
    destruct (JS.digit_value 10 c) eqn:Hc; [|discriminate]. intros Ht.
    change (String c t) with (String c "" +:+ t).
    apply MStarS; [constructor; rewrite Hc; reflexivity|apply IH, Ht].
Qed.

(** [\d+]: the decimal numerals. *)
Lemma Matches_digits (t : string) : Matches (Plus Digit) t <-> JS.is_decimal t = true.
Proof.
  unfold Plus. split.
  - intros H. apply Matches_Cat_inv in H as (s1 & s2 & -> & H1 & H2).
    apply Matches_Class_inv in H1 as (c & -> & Hc).
    rewrite JS.append_cons, JS.append_nil. cbn [JS.is_decimal JS.all_decimal].
    destruct (JS.digit_value 10 c); [apply Matches_Star_digits, H2|discriminate].
  - destruct t as [|c t]; [discriminate|]. cbn [JS.is_decimal JS.all_decimal].
    destruct (JS.digit_value 10 c) eqn:Hc; [|discriminate]. intros Ht.
    change (String c t) with (String c "" +:+ t).
    constructor; [constructor; rewrite Hc; reflexivity|apply Matches_Star_digits, Ht].
Qed.

End Regex.

(** ** Choosing the wallet by coin type ([src.ts/wallet/wallet.ts]) *)

Module Wallet.

Section FromPhrase.

(** The two HD wallet classes and what [fromPhrase] calls of them. *)
Variables QuaiHDWallet QiHDWallet Provider Wordlist : Type.
Variable QuaiHDWallet_fromPhrase :
  string -> string -> option Wordlist -> result QuaiHDWallet.
Variable QiHDWallet_fromPhrase :
  string -> string -> option Wordlist -> result QiHDWallet.
Variable QuaiHDWallet_connect : QuaiHDWallet -> Provider -> QuaiHDWallet.
Variable QiHDWallet_connect : QiHDWallet -> Provider -> QiHDWallet.

Inductive HDWallet : Type :=
| Quai (wallet : QuaiHDWallet)
| Qi (wallet : QiHDWallet).

(** [if (provider) { return wallet.connect(provider); } return wallet;] *)
Definition connected {W : Type} (connect : W -> Provider -> W)
    (provider : option Provider) (wallet : W) : W :=
  match provider with
  | Some p => connect wallet p
  | None => wallet
  end.

Definition fromPhrase (phrase path : string) (provider : option Provider)
    (wordlist : option Wordlist) : result HDWallet :=
  let splitPath := JS.split "/" path in
  if (length splitPath <? 3)%nat
  then Throw (Error ("Incomplete path for wallet derivation " +:+ path))
  else
    let coinTypeStr := nth 2 splitPath "" in
    let coinTypeStr := JS.replace "'" "" coinTypeStr in
    let coinType := JS.parseInt coinTypeStr in
    let unsupported :=
      Throw (Error ("Unsupported cointype " +:+ JS.NumberOrNaN_toString coinType
                    +:+ " for HD wallet derivation")) in
    match coinType with
    | Some c =>
        if c =? 994 then
          let* wallet := QuaiHDWallet_fromPhrase phrase path wordlist in
          Ok (Quai (connected QuaiHDWallet_connect provider wallet))
        else if c =? 969 then
          let* wallet := QiHDWallet_fromPhrase phrase path wordlist in
          Ok (Qi (connected QiHDWallet_connect provider wallet))
        else unsupported
    | None => unsupported
    end.

End FromPhrase.

(** The coin type [fromPhrase] reads off a path: the third field, its first
    apostrophe dropped, through [parseInt]. *)
Definition coinTypeOf (path : string) : option Z :=
  JS.parseInt (JS.replace "'" "" (nth 2 (JS.split "/" path) "")).

(** The path of the spec's [m/44'/<coinType>'/<rest>]. *)
Definition bip44_path (coinType : Z) (rest : string) : string :=
  "m/44'/" +:+ JS.Number_toString coinType +:+ "'/" +:+ rest.

(** *** Properties *)

Lemma coinTypeOf_bip44 (coinType : Z) (rest : string) :
  0 <= coinType ->
  coinTypeOf (bip44_path coinType rest) = Some coinType /\
  (3 <= length (JS.split "/" (bip44_path coinType rest)))%nat.
Proof.
  intros Hc. unfold coinTypeOf, bip44_path.
  pose proof (JS.is_decimal_Number_toString coinType Hc) as Hdec.
  assert (Hall : JS.all_decimal (JS.Number_toString coinType) = true).
  { destruct (JS.Number_toString coinType); [discriminate|exact Hdec]. }
  assert (Hfield : JS.contains "/" (JS.Number_toString coinType +:+ "'") = false).
  { clear Hdec. induction (JS.Number_toString coinType) as [|c s IH]; [reflexivity|].
    cbn [JS.all_decimal] in Hall. rewrite JS.append_cons. cbn [JS.contains].
    destruct (JS.digit_value 10 c) eqn:Hd; [|discriminate].
    rewrite (IH Hall), orb_false_r.
    destruct (Ascii.eqb_spec c "/") as [->|_]; [discriminate|reflexivity]. }
  assert (Hsplit : JS.split "/" ("m/44'/" +:+ JS.Number_toString coinType +:+ "'/" +:+ rest)
                   = "m" :: "44'" :: (JS.Number_toString coinType +:+ "'")
                     :: JS.split "/" rest).
  { change ("m/44'/" +:+ JS.Number_toString coinType +:+ "'/" +:+ rest)
      with ("m" +:+ String "/" ("44'" +:+ String "/"
              (JS.Number_toString coinType +:+ "'/" +:+ rest))).
    rewrite !JS.split_field by reflexivity. do 2 f_equal.
    replace (JS.Number_toString coinType +:+ "'/" +:+ rest)
      with ((JS.Number_toString coinType +:+ "'") +:+ String "/" rest).
    - apply JS.split_field, Hfield.
    - clear. induction (JS.Number_toString coinType) as [|c s IH]; [reflexivity|].
      rewrite !JS.append_cons, IH. reflexivity. }
  rewrite Hsplit. split; [|simpl; lia].
  cbn [nth].
  rewrite (JS.replace_first "'" "" (JS.Number_toString coinType) "").
  - rewrite JS.append_nil, JS.append_empty_r.
    apply JS.parseInt_Number_toString, Hc.
  - apply JS.all_decimal_contains; [exact Hall|reflexivity].
Qed.

(** C9. [fromPhrase] throws on a path of fewer than three fields; otherwise
    it reads the coin type off the third field and builds the Quai wallet
    for 994 (what [QuaiHDWallet.fromPhrase] gives for the phrase and path,
    connected to the provider if there is one), the Qi wallet for 969, and
    throws for every other coin type, whatever the two constructors would
    have returned.  On a path [m/44'/<coinType>'/...] the coin type it
    reads is the one written there. *)
Theorem fromPhrase_dispatch
    (QuaiHDWallet QiHDWallet Provider Wordlist : Type)
    (QuaiHDWallet_fromPhrase : string -> string -> option Wordlist -> result QuaiHDWallet)
    (QiHDWallet_fromPhrase : string -> string -> option Wordlist -> result QiHDWallet)
    (QuaiHDWallet_connect : QuaiHDWallet -> Provider -> QuaiHDWallet)
    (QiHDWallet_connect : QiHDWallet -> Provider -> QiHDWallet)
    (phrase path : string) (provider : option Provider) (wordlist : option Wordlist) :
  let run := fromPhrase QuaiHDWallet QiHDWallet Provider Wordlist
               QuaiHDWallet_fromPhrase QiHDWallet_fromPhrase
               QuaiHDWallet_connect QiHDWallet_connect
               phrase path provider wordlist in
  ((length (JS.split "/" path) < 3)%nat ->
     run = Throw (Error ("Incomplete path for wallet derivation " +:+ path))) /\
  ((3 <= length (JS.split "/" path))%nat ->
     (coinTypeOf path = Some 994 ->
        run = let* wallet := QuaiHDWallet_fromPhrase phrase path wordlist in
              Ok (Quai _ _ (connected _ QuaiHDWallet_connect provider wallet))) /\
     (coinTypeOf path = Some 969 ->
        run = let* wallet := QiHDWallet_fromPhrase phrase path wordlist in
              Ok (Qi _ _ (connected _ QiHDWallet_connect provider wallet))) /\
     (coinTypeOf path <> Some 994 -> coinTypeOf path <> Some 969 ->
        run = Throw (Error ("Unsupported cointype "
                            +:+ JS.NumberOrNaN_toString (coinTypeOf path)
                            +:+ " for HD wallet derivation")))) /\
  (forall coinType rest, 0 <= coinType ->
     coinTypeOf (bip44_path coinType rest) = Some coinType).
Proof.
  intros run. subst run. unfold fromPhrase. fold (coinTypeOf path).
  split; [|split].
  - intros Hshort. destruct (Nat.ltb_spec (length (JS.split "/" path)) 3); [reflexivity|lia].
  - intros Hlong. destruct (Nat.ltb_spec (length (JS.split "/" path)) 3); [lia|].
    split; [|split].
    + intros ->. reflexivity.
    + intros ->. reflexivity.
    + intros H994 H969. destruct (coinTypeOf path) as [c|]; [|reflexivity].
      destruct (Z.eqb_spec c 994) as [->|_]; [congruence|].
      destruct (Z.eqb_spec c 969) as [->|_]; [congruence|reflexivity].
  - intros coinType rest Hc. apply coinTypeOf_bip44, Hc.
Qed.

(** The coin type in the message is the Number that [parseInt] gave. *)
Example fromPhrase_large_coinType :
  fromPhrase unit unit unit unit (fun _ _ _ => Ok tt) (fun _ _ _ => Ok tt)
    (fun w _ => w) (fun w _ => w) "" "m/44'/9007199254740993'/0'/0" None None
  = Throw (Error "Unsupported cointype 9007199254740992 for HD wallet derivation").
Proof. vm_compute. reflexivity. Qed.

(** Toy wallet classes: a wallet is the phrase and path it was made from. *)
Definition toy_fromPhrase (phrase path : string) (wordlist : option unit) :
  result (string * string) := Ok (phrase, path).

Definition toy_fromPhrase_at (path : string) : result (HDWallet (string * string) (string * string)) :=
  fromPhrase (string * string) (string * string) unit unit
    toy_fromPhrase toy_fromPhrase (fun w _ => w) (fun w _ => w)
    "test test test" path None None.

Lemma fromPhrase_dispatch_witness :
  toy_fromPhrase_at "m/44'/994'/0'/0"
    = Ok (Quai _ _ ("test test test", "m/44'/994'/0'/0")) /\
  toy_fromPhrase_at "m/44'/969'/0'/0"
    = Ok (Qi _ _ ("test test test", "m/44'/969'/0'/0")) /\
  toy_fromPhrase_at "m/44'/60'/0'/0"
    = Throw (Error "Unsupported cointype 60 for HD wallet derivation") /\
  toy_fromPhrase_at "m/44'"
    = Throw (Error "Incomplete path for wallet derivation m/44'").
Proof.
  pose proof (fun path => fromPhrase_dispatch (string * string) (string * string)
                unit unit toy_fromPhrase toy_fromPhrase (fun w _ => w) (fun w _ => w)
                "test test test" path None None) as H.
  cbv zeta in H.
  split; [|split; [|split]].
  - destruct (H "m/44'/994'/0'/0") as (_ & Hlong & _).
    destruct (Hlong ltac:(simpl; lia)) as (H994 & _ & _).
    apply (H994 eq_refl).
  - destruct (H "m/44'/969'/0'/0") as (_ & Hlong & _).
    destruct (Hlong ltac:(simpl; lia)) as (_ & H969 & _).
    apply (H969 eq_refl).
  - destruct (H "m/44'/60'/0'/0") as (_ & Hlong & _).
    destruct (Hlong ltac:(simpl; lia)) as (_ & _ & Hother).
    apply Hother; discriminate.
  - destruct (H "m/44'") as (Hshort & _).
    apply Hshort. simpl. lia.
Defined.

End Wallet.

(** ** The Quai HD wallet ([src/wallet/quai-hdwallet.ts]) *)

Module QuaiHDWallet.

Record NeuteredAddressInfo : Type := mkNeuteredAddressInfo {
  pubKey : string;
  address : string;
  account : Z;
  index : Z;
  zone : string
}.

(** [SerializedQuaiHDWallet] *)
Record SerializedQuaiHDWallet : Type := mkSerialized {
  version : Z;
  phrase : string;
  coinType : Z;
  addresses : list NeuteredAddressInfo
}.

(** The three messages of [importSerializedAddresses]. *)
Definition is_mismatch_message (message : string) : bool :=
  JS.startsWith "Address mismatch: " message
  || JS.startsWith "Public key mismatch: " message
  || JS.startsWith "Zone mismatch: " message.

Definition is_mismatch_error (e : JsError) : bool :=
  match e with
  | Error message => is_mismatch_message message
  | _ => false
  end.

Section Wallet.

(** What the wallet uses of [HDNodeWallet] ([hdnodewallet.js]), of
    [Mnemonic], of [AbstractHDWallet] and of the address helpers; none of
    them is among the sources. *)
Variable HDNodeWallet : Type.
Variable deriveChild : HDNodeWallet -> Z -> result HDNodeWallet.
Variable node_address : HDNodeWallet -> string.
Variable node_publicKey : HDNodeWallet -> string.
Variable node_index : HDNodeWallet -> Z.
Variable HARDENED_OFFSET : Z.
Variable getZoneForAddress : string -> option string.
Variable isQuaiAddress : string -> bool.
Variable Mnemonic : Type.
Variable Mnemonic_fromPhrase : string -> result Mnemonic.
Variable parentPath : Z -> string.
Variable HDNodeWallet_fromMnemonic : Mnemonic -> string -> result HDNodeWallet.
Variable validateSerializedWallet : SerializedQuaiHDWallet -> result unit.

(** The wallet object: its root node and the [Map] from address to
    address info. *)
Record QuaiHDWallet : Type := mkWallet {
  _root : HDNodeWallet;
  _addresses : gmap string NeuteredAddressInfo
}.

(** A method runs on the wallet, may change it, and returns or throws; what
    it changed before it threw stays changed. *)
Definition M (A : Type) : Type := QuaiHDWallet -> result A * QuaiHDWallet.

Definition ret {A : Type} (a : A) : M A := fun w => (Ok a, w).

Definition throw {A : Type} (e : JsError) : M A := fun w => (Throw e, w).

Definition mbind {A B : Type} (m : M A) (k : A -> M B) : M B :=
  fun w => match m w with
           | (Ok a, w') => k a w'
           | (Throw e, w') => (Throw e, w')
           end.

Definition lift {A : Type} (r : result A) : M A := fun w => (r, w).

Definition this : M QuaiHDWallet := fun w => (Ok w, w).

Notation "x <~ m ;; k" := (mbind m (fun x => k))
  (at level 100, m at next level, right associativity).

(** The [forEach] of [_addAddress]: does an entry carry this index? *)
Definition index_in_use (entries : gmap string NeuteredAddressInfo) (addressIndex : Z) : bool :=
  existsb (fun entry => index (snd entry) =? addressIndex) (map_to_list entries).

Definition createAndStoreAddressInfo (addressNode : HDNodeWallet) (account : Z)
    (zone : string) : M NeuteredAddressInfo :=
  fun w =>
    let neuteredAddressInfo :=
      {| pubKey := node_publicKey addressNode;
         address := node_address addressNode;
         account := account;
         index := node_index addressNode;
         zone := zone |} in
    (Ok neuteredAddressInfo,
     {| _root := _root w;
        _addresses := <[address neuteredAddressInfo := neuteredAddressInfo]> (_addresses w) |}).

(** [!zone] for a zone that is a string or [null]. *)
Definition zone_or_throw (addressIndex : Z) (zone : option string) : result string :=
  match zone with
  | Some z =>
      if String.eqb z "" then
        Throw (Error ("Failed to derive a valid address zone for the index "
                      +:+ JS.Number_toString addressIndex))
      else Ok z
  | None =>
      Throw (Error ("Failed to derive a valid address zone for the index "
                    +:+ JS.Number_toString addressIndex))
  end.

Definition deriveAddressNode (root : HDNodeWallet) (account addressIndex : Z) :
    result HDNodeWallet :=
  let changeIndex := 0 in
  let* accountNode := deriveChild root (account + HARDENED_OFFSET) in
  let* changeNode := deriveChild accountNode changeIndex in
  deriveChild changeNode addressIndex.

Definition _addAddress (account addressIndex : Z) : M NeuteredAddressInfo :=
  w <~ this ;;
  if index_in_use (_addresses w) addressIndex then
    throw (Error ("Address for index " +:+ JS.Number_toString addressIndex
                  +:+ " already exists"))
  else
    addressNode <~ lift (deriveAddressNode (_root w) account addressIndex) ;;
    zone <~ lift (zone_or_throw addressIndex
                    (getZoneForAddress (node_address addressNode))) ;;
    if negb (isQuaiAddress (node_address addressNode)) then
      throw (Error ("Address " +:+ node_address addressNode
                    +:+ " is not a valid Quai address"))
    else createAndStoreAddressInfo addressNode account zone.

Definition addAddress (account addressIndex : Z) : M NeuteredAddressInfo :=
  _addAddress account addressIndex.

Fixpoint importSerializedAddresses (addresses : list NeuteredAddressInfo) : M unit :=
  match addresses with
  | [] => ret tt
  | addressInfo :: rest =>
      newAddressInfo <~ _addAddress (account addressInfo) (index addressInfo) ;;
      if negb (String.eqb (address addressInfo) (address newAddressInfo)) then
        throw (Error ("Address mismatch: " +:+ address addressInfo +:+ " != "
                      +:+ address newAddressInfo))
      else if negb (String.eqb (pubKey addressInfo) (pubKey newAddressInfo)) then
        throw (Error ("Public key mismatch: " +:+ pubKey addressInfo +:+ " != "
                      +:+ pubKey newAddressInfo))
      else if negb (String.eqb (zone addressInfo) (zone newAddressInfo)) then
        throw (Error ("Zone mismatch: " +:+ zone addressInfo +:+ " != "
                      +:+ zone newAddressInfo))
      else importSerializedAddresses rest
  end.

(** The root node [deserialize] builds from the phrase and the coin type. *)
Definition rootOf (serialized : SerializedQuaiHDWallet) : result HDNodeWallet :=
  let* mnemonic := Mnemonic_fromPhrase (phrase serialized) in
  let path := parentPath (coinType serialized) in
  HDNodeWallet_fromMnemonic mnemonic path.

Definition deserialize (serialized : SerializedQuaiHDWallet) : result QuaiHDWallet :=
  let* _ := validateSerializedWallet serialized in
  let* root := rootOf serialized in
  let wallet := {| _root := root; _addresses := ∅ |} in
  match importSerializedAddresses (addresses serialized) wallet with
  | (Ok _, wallet') => Ok wallet'
  | (Throw e, _) => Throw e
  end.

(** What [_addAddress] derives for an account and index, before it looks at
    the map: the address and public key of the derived node and the zone of
    the address. *)
Definition rederive (root : HDNodeWallet) (account addressIndex : Z) :
    result NeuteredAddressInfo :=
  let* addressNode := deriveAddressNode root account addressIndex in
  let* zone := zone_or_throw addressIndex (getZoneForAddress (node_address addressNode)) in
  Ok {| pubKey := node_publicKey addressNode;
        address := node_address addressNode;
        account := account;
        index := node_index addressNode;
        zone := zone |}.

(** A stored entry agrees with its re-derivation. *)
Definition agrees (root : HDNodeWallet) (stored : NeuteredAddressInfo) : Prop :=
  exists derived,
    rederive root (account stored) (index stored) = Ok derived /\
    address stored = address derived /\
    pubKey stored = pubKey derived /\
    zone stored = zone derived.

(** *** Properties *)

Lemma index_in_use_spec (entries : gmap string NeuteredAddressInfo) (addressIndex : Z) :
  index_in_use entries addressIndex = true <->
  exists a info, entries !! a = Some info /\ index info = addressIndex.
Proof.
  unfold index_in_use. rewrite existsb_exists. split.
  - intros ([a info] & Hin & Heq). exists a, info. split.
    + apply elem_of_map_to_list, list_elem_of_In, Hin.
    + apply Z.eqb_eq, Heq.
  - intros (a & info & Hlookup & Heq). exists (a, info). split.
    + apply list_elem_of_In, elem_of_map_to_list, Hlookup.
    + apply Z.eqb_eq, Heq.
Qed.

(** What a call of [_addAddress] that returns has checked and done. *)
Lemma _addAddress_Ok (account addressIndex : Z) (w w' : QuaiHDWallet)
    (info : NeuteredAddressInfo) :
  _addAddress account addressIndex w = (Ok info, w') ->
  index_in_use (_addresses w) addressIndex = false /\
  rederive (_root w) account addressIndex = Ok info /\
  isQuaiAddress (address info) = true /\
  _root w' = _root w /\
  _addresses w' = <[address info := info]> (_addresses w).
Proof.
  unfold _addAddress, rederive, mbind, this, lift, throw, createAndStoreAddressInfo.
  destruct (index_in_use (_addresses w) addressIndex); [discriminate|].
  destruct (deriveAddressNode (_root w) account addressIndex) as [node|e];
    [|discriminate].
  cbn [bind].
  destruct (zone_or_throw addressIndex (getZoneForAddress (node_address node)))
    as [z|e]; [|discriminate].
  cbn [bind].
  destruct (isQuaiAddress (node_address node)) eqn:Hquai; [|discriminate].
  cbn [negb]. intros [= <- <-]. cbn. auto.
Qed.

(** A call that throws leaves the wallet as it was. *)
Lemma _addAddress_Throw (account addressIndex : Z) (w w' : QuaiHDWallet) (e : JsError) :
  _addAddress account addressIndex w = (Throw e, w') -> w' = w.
Proof.
  unfold _addAddress, mbind, this, lift, throw, createAndStoreAddressInfo.
  destruct (index_in_use (_addresses w) addressIndex); [congruence|].
  destruct (deriveAddressNode (_root w) account addressIndex) as [node|e'];
    [|congruence].
  destruct (zone_or_throw addressIndex (getZoneForAddress (node_address node)))
    as [z|e']; [|congruence].
  destruct (isQuaiAddress (node_address node)); cbn [negb]; [discriminate|congruence].
Qed.

Lemma importSerializedAddresses_root (entries : list NeuteredAddressInfo)
    (w w' : QuaiHDWallet) (r : result unit) :
  importSerializedAddresses entries w = (r, w') -> _root w' = _root w.
Proof.
  revert w. induction entries as [|stored rest IH]; intros w.
  - intros [= <- <-]. reflexivity.
  - cbn [importSerializedAddresses]. unfold mbind.
    destruct (_addAddress (account stored) (index stored) w) as [[info|e] w1] eqn:Hadd.
    + apply _addAddress_Ok in Hadd as (_ & _ & _ & Hroot & _).
      repeat match goal with
             | |- context [negb (String.eqb ?a ?b)] => destruct (String.eqb a b); cbn [negb]
             end;
        try (intros [= <- <-]; exact Hroot).
      intros Hrest. rewrite (IH _ Hrest). exact Hroot.
    + apply _addAddress_Throw in Hadd as ->. intros [= <- <-]. reflexivity.
Qed.

(** A successful import has found every entry equal to its re-derivation. *)
Lemma importSerializedAddresses_Ok (entries : list NeuteredAddressInfo)
    (w w' : QuaiHDWallet) :
  importSerializedAddresses entries w = (Ok tt, w') ->
  Forall (agrees (_root w)) entries.
Proof.
  revert w. induction entries as [|stored rest IH]; intros w; [constructor|].
  cbn [importSerializedAddresses]. unfold mbind.
  destruct (_addAddress (account stored) (index stored) w) as [[info|e] w1] eqn:Hadd;
    [|discriminate].
  apply _addAddress_Ok in Hadd as (_ & Hderive & _ & Hroot & _).
  destruct (String.eqb_spec (address stored) (address info)) as [Ha|_];
    cbn [negb]; [|discriminate].
  destruct (String.eqb_spec (pubKey stored) (pubKey info)) as [Hp|_];
    cbn [negb]; [|discriminate].
  destruct (String.eqb_spec (zone stored) (zone info)) as [Hz|_];
    cbn [negb]; [|discriminate].
  intros Hrest. constructor.
  - exists info. auto.
  - rewrite <- Hroot. apply (IH _ Hrest).
Qed.

(** The import goes through the entries in order: it fails where a prefix
    fails. *)
Lemma importSerializedAddresses_app_Throw (before after : list NeuteredAddressInfo)
    (w w' : QuaiHDWallet) (e : JsError) :
  importSerializedAddresses before w = (Throw e, w') ->
  importSerializedAddresses (before ++ after) w = (Throw e, w').
Proof.
  revert w. induction before as [|stored rest IH]; intros w; [discriminate|].
  cbn [importSerializedAddresses app]. unfold mbind.
  destruct (_addAddress (account stored) (index stored) w) as [[info|e'] w1];
    [|tauto].
  repeat match goal with
         | |- context [negb (String.eqb ?a ?b)] => destruct (String.eqb a b); cbn [negb]
         end; try tauto.
  apply IH.
Qed.

Lemma importSerializedAddresses_app_Ok (before after : list NeuteredAddressInfo)
    (w w1 : QuaiHDWallet) :
  importSerializedAddresses before w = (Ok tt, w1) ->
  importSerializedAddresses (before ++ after) w = importSerializedAddresses after w1.
Proof.
  revert w. induction before as [|stored rest IH]; intros w.
  - intros [= <-]. reflexivity.
  - cbn [importSerializedAddresses app]. unfold mbind.
    destruct (_addAddress (account stored) (index stored) w) as [[info|e'] w2];
      [|discriminate].
    repeat match goal with
           | |- context [negb (String.eqb ?a ?b)] => destruct (String.eqb a b); cbn [negb]
           end; try discriminate.
    apply IH.
Qed.

(** The entry at which the import stops with a mismatch. *)
Lemma importSerializedAddresses_mismatch (stored info : NeuteredAddressInfo)
    (after : list NeuteredAddressInfo) (w w' : QuaiHDWallet) :
  _addAddress (account stored) (index stored) w = (Ok info, w') ->
  ~ (address stored = address info /\ pubKey stored = pubKey info
     /\ zone stored = zone info) ->
  exists message,
    importSerializedAddresses (stored :: after) w = (Throw (Error message), w') /\
    is_mismatch_message message = true.
Proof.
  intros Hadd Hne. cbn [importSerializedAddresses]. unfold mbind.
  rewrite Hadd.
  destruct (String.eqb_spec (address stored) (address info)) as [Ha|_]; cbn [negb].
  2: { eexists. split; [reflexivity|]. reflexivity. }
  destruct (String.eqb_spec (pubKey stored) (pubKey info)) as [Hp|_]; cbn [negb].
  2: { eexists. split; [reflexivity|]. reflexivity. }
  destruct (String.eqb_spec (zone stored) (zone info)) as [Hz|_]; cbn [negb].
  2: { eexists. split; [reflexivity|]. reflexivity. }
  tauto.
Qed.

(** C6. Adding an address at an index that an entry of the map already
    carries throws the 'already exists' error and leaves the wallet, its
    address map included, as it was.  The check is on the index alone: the
    entry in use may belong to any account and zone, the same ones
    included.  (The map is keyed by address, so it holds one entry per
    address.) *)
Theorem _addAddress_rejects_used_index (w : QuaiHDWallet) (account addressIndex : Z) :
  (exists a info, _addresses w !! a = Some info /\ index info = addressIndex) ->
  _addAddress account addressIndex w
  = (Throw (Error ("Address for index " +:+ JS.Number_toString addressIndex
                   +:+ " already exists")), w).
Proof.
  intros Hused. apply index_in_use_spec in Hused.
  unfold _addAddress, mbind, this, throw. rewrite Hused. reflexivity.
Qed.

(** C5, as the code has it.  [deserialize] returns a wallet only when every
    stored entry agrees in address, public key and zone with what is
    re-derived for its account and index from the root of the phrase; when
    an entry does not agree it throws and returns no wallet; and the error
    is one of the three mismatch errors when the import reaches that entry
    and [_addAddress] accepts it (its index not imported before, its
    address with a zone and a Quai address). *)
Theorem deserialize_cross_validates (serialized : SerializedQuaiHDWallet) :
  (forall wallet, deserialize serialized = Ok wallet ->
     rootOf serialized = Ok (_root wallet) /\
     Forall (agrees (_root wallet)) (addresses serialized)) /\
  (forall root stored, rootOf serialized = Ok root ->
     In stored (addresses serialized) -> ~ agrees root stored ->
     exists e, deserialize serialized = Throw e) /\
  (forall root before stored after w1 w2 derived,
     validateSerializedWallet serialized = Ok tt ->
     rootOf serialized = Ok root ->
     addresses serialized = before ++ stored :: after ->
     importSerializedAddresses before (mkWallet root ∅) = (Ok tt, w1) ->
     _addAddress (account stored) (index stored) w1 = (Ok derived, w2) ->
     ~ (address stored = address derived /\ pubKey stored = pubKey derived
        /\ zone stored = zone derived) ->
     exists e, deserialize serialized = Throw e /\ is_mismatch_error e = true).
Proof.
  assert (Hok : forall wallet, deserialize serialized = Ok wallet ->
     rootOf serialized = Ok (_root wallet) /\
     Forall (agrees (_root wallet)) (addresses serialized)).
  { intros wallet. unfold deserialize.
    destruct (validateSerializedWallet serialized) as [[]|e]; [|discriminate].
    cbn [bind]. destruct (rootOf serialized) as [root|e]; [|discriminate].
    cbn [bind].
    destruct (importSerializedAddresses (addresses serialized) (mkWallet root ∅))
      as [[[]|e] w'] eqn:Himport; [|discriminate].
    intros [= <-].
    pose proof (importSerializedAddresses_root _ _ _ _ Himport) as Hroot.
    apply importSerializedAddresses_Ok in Himport.
    cbn [_root] in *. rewrite Hroot. auto. }
  split; [exact Hok|split].
  - intros root stored Hroot Hin Hdis.
    destruct (deserialize serialized) as [wallet|e] eqn:Hrun; [|eauto].
    exfalso. destruct (Hok wallet eq_refl) as [Hroot' Hall].
    rewrite Hroot in Hroot'. injection Hroot' as ->.
    rewrite Forall_forall in Hall. apply Hdis, Hall, list_elem_of_In, Hin.
  - intros root before stored after w1 w2 derived Hvalid Hroot Hsplit Hbefore Hadd Hne.
    unfold deserialize. rewrite Hvalid, Hroot, Hsplit. cbn [bind].
    rewrite (importSerializedAddresses_app_Ok _ _ _ _ Hbefore).
    destruct (importSerializedAddresses_mismatch stored derived after w1 w2 Hadd Hne)
      as (message & -> & Hmsg).
    exists (Error message). split; [reflexivity|exact Hmsg].
Qed.

(** *** Adding and importing addresses *)

(** [getAddressInfo(address)]: the entry of the address, or [null]. *)
Definition getAddressInfo (address : string) (w : QuaiHDWallet) : option NeuteredAddressInfo :=
  _addresses w !! address.

(** A call of [_addAddress] on an index that is free, for which the node is
    derived, has a zone and a Quai address, returns the entry and stores
    it. *)
Lemma _addAddress_run (account addressIndex : Z) (w : QuaiHDWallet)
    (info : NeuteredAddressInfo) :
  index_in_use (_addresses w) addressIndex = false ->
  rederive (_root w) account addressIndex = Ok info ->
  isQuaiAddress (address info) = true ->
  _addAddress account addressIndex w
  = (Ok info, {| _root := _root w;
                 _addresses := <[address info := info]> (_addresses w) |}).
Proof.
  unfold _addAddress, rederive, mbind, this, lift, throw, createAndStoreAddressInfo.
  intros -> Hderive Hquai.
  destruct (deriveAddressNode (_root w) account addressIndex) as [node|e];
    [|discriminate].
  cbn [bind] in *.
  destruct (zone_or_throw addressIndex (getZoneForAddress (node_address node)))
    as [z|e]; [|discriminate].
  cbn [bind] in *. injection Hderive as <-. cbn [address] in Hquai.
  rewrite Hquai. reflexivity.
Qed.

(** [addAddress] either adds one entry or changes nothing.  When it
    returns, the entry it returns is what is derived from the root for the
    account and index, it is stored under its address, where
    [getAddressInfo] finds it, and the entries of the other addresses are
    as before; when it throws, for whatever reason, the wallet is as it
    was. *)
Theorem addAddress_effect (account addressIndex : Z) (w : QuaiHDWallet) :
  match addAddress account addressIndex w with
  | (Ok info, w') =>
      rederive (_root w) account addressIndex = Ok info /\
      _root w' = _root w /\
      getAddressInfo (address info) w' = Some info /\
      (forall a, a <> address info -> getAddressInfo a w' = getAddressInfo a w) /\
      (forall a entry, getAddressInfo a w = Some entry -> index entry <> addressIndex)
  | (Throw e, w') => w' = w
  end.
Proof.
  unfold addAddress.
  destruct (_addAddress account addressIndex w) as [[info|e] w'] eqn:Hadd.
  - apply _addAddress_Ok in Hadd as (Hfree & Hderive & _ & Hroot & Hmap).
    unfold getAddressInfo. rewrite Hmap.
    split; [exact Hderive|]. split; [exact Hroot|].
    split; [apply lookup_insert_eq|].
    split; [intros a Ha; apply lookup_insert_ne; congruence|].
    intros a entry Hentry Hindex.
    assert (Hused : index_in_use (_addresses w) addressIndex = true)
      by (apply index_in_use_spec; eauto).
    congruence.
  - apply (_addAddress_Throw _ _ _ _ _ Hadd).
Qed.

(** The import does not undo what it has done when it stops at a record
    that does not match: the entry re-derived for that record, and those of
    the records before it, stay in the map. *)
Theorem importSerializedAddresses_keeps_entries
    (before after : list NeuteredAddressInfo) (stored derived : NeuteredAddressInfo)
    (w0 w1 w2 : QuaiHDWallet) :
  importSerializedAddresses before w0 = (Ok tt, w1) ->
  _addAddress (account stored) (index stored) w1 = (Ok derived, w2) ->
  ~ (address stored = address derived /\ pubKey stored = pubKey derived
     /\ zone stored = zone derived) ->
  exists message,
    importSerializedAddresses (before ++ stored :: after) w0
    = (Throw (Error message), w2) /\
    is_mismatch_message message = true /\
    getAddressInfo (address derived) w2 = Some derived /\
    (forall a, a <> address derived -> getAddressInfo a w2 = getAddressInfo a w1).
Proof.
  intros Hbefore Hadd Hne.
  rewrite (importSerializedAddresses_app_Ok _ _ _ _ Hbefore).
  destruct (importSerializedAddresses_mismatch stored derived after w1 w2 Hadd Hne)
    as (message & -> & Hmsg).
  exists message. split; [reflexivity|]. split; [exact Hmsg|].
  apply _addAddress_Ok in Hadd as (_ & _ & _ & _ & Hmap).
  unfold getAddressInfo. rewrite Hmap.
  split; [apply lookup_insert_eq|].
  intros a Ha. apply lookup_insert_ne. congruence.
Qed.

(** *** The wallets that [addAddress] fills *)

(** The child that [deriveChild] returns carries the index it was asked
    for, as the nodes of [hdwallet.js] do. *)
Hypothesis deriveChild_index : forall n i child,
  deriveChild n i = Ok child -> node_index child = i.

(** A wallet made of a root alone and filled by calls of [addAddress]. *)
Inductive filled (root : HDNodeWallet) : QuaiHDWallet -> Prop :=
| filled_new : filled root {| _root := root; _addresses := ∅ |}
| filled_addAddress w account addressIndex r w' :
    filled root w -> addAddress account addressIndex w = (r, w') -> filled root w'.

(** Every entry is stored under its own address, is what the root derives
    for its account and index and has a Quai address; no two entries have
    the same index. *)
Definition consistent (w : QuaiHDWallet) : Prop :=
  (forall a info, _addresses w !! a = Some info ->
     a = address info /\
     rederive (_root w) (account info) (index info) = Ok info /\
     isQuaiAddress (address info) = true) /\
  (forall a b ia ib, _addresses w !! a = Some ia -> _addresses w !! b = Some ib ->
     index ia = index ib -> a = b).

Lemma rederive_fields (root : HDNodeWallet) (account addressIndex : Z)
    (info : NeuteredAddressInfo) :
  rederive root account addressIndex = Ok info ->
  QuaiHDWallet.account info = account /\ index info = addressIndex.
Proof.
  unfold rederive, deriveAddressNode.
  destruct (deriveChild root (account + HARDENED_OFFSET)) as [accountNode|e];
    [|discriminate].
  cbn [bind].
  destruct (deriveChild accountNode 0) as [changeNode|e]; [|discriminate].
  cbn [bind].
  destruct (deriveChild changeNode addressIndex) as [node|e] eqn:Hnode; [|discriminate].
  cbn [bind].
  destruct (zone_or_throw addressIndex (getZoneForAddress (node_address node)));
    [|discriminate].
  cbn [bind]. intros [= <-]. cbn. split; [reflexivity|].
  apply (deriveChild_index _ _ _ Hnode).
Qed.

Lemma filled_invariant (root : HDNodeWallet) (w : QuaiHDWallet) :
  filled root w -> _root w = root /\ consistent w.
Proof.
  induction 1 as [|w account addressIndex r w' _ [Hroot [Hentries Hindices]] Hadd].
  - split; [reflexivity|]. split.
    + intros a info Hlookup. cbn in Hlookup. rewrite lookup_empty in Hlookup.
      discriminate.
    + intros a b ia ib Ha. cbn in Ha. rewrite lookup_empty in Ha. discriminate.
  - unfold addAddress in Hadd. destruct r as [info|e].
    2: { apply _addAddress_Throw in Hadd as ->. split; [exact Hroot|]. split; assumption. }
    apply _addAddress_Ok in Hadd as (Hfree & Hderive & Hquai & Hroot' & Hmap).
    destruct (rederive_fields _ _ _ _ Hderive) as [Haccount Hindex].
    assert (Hnew : forall a entry, _addresses w !! a = Some entry ->
                                   index entry <> addressIndex).
    { intros a entry Hentry Heq.
      assert (index_in_use (_addresses w) addressIndex = true)
        by (apply index_in_use_spec; eauto).
      congruence. }
    split; [congruence|]. split.
    + intros a entry. rewrite Hmap, Hroot'.
      destruct (decide (a = address info)) as [->|Hne].
      * rewrite lookup_insert_eq. intros [= <-].
        rewrite Haccount, Hindex. auto.
      * rewrite lookup_insert_ne by congruence. apply Hentries.
    + intros a b ia ib. rewrite Hmap.
      destruct (decide (a = address info)) as [->|Ha];
        destruct (decide (b = address info)) as [->|Hb];
        rewrite ?lookup_insert_eq, ?lookup_insert_ne by congruence.
      * reflexivity.
      * intros [= <-] Hib Heq. rewrite Hindex in Heq.
        destruct (Hnew _ _ Hib). congruence.
      * intros Hia [= <-] Heq. rewrite Hindex in Heq.
        destruct (Hnew _ _ Hia Heq).
      * apply Hindices.
Qed.

(** A wallet that [addAddress] has filled keeps its root, and its map is
    consistent: one entry per address index, each one under its address and
    equal to what the root derives for its account and index. *)
Theorem filled_consistent (root : HDNodeWallet) (w : QuaiHDWallet) :
  filled root w -> _root w = root /\ consistent w.
Proof. apply filled_invariant. Qed.

(** *** Importing the entries of a wallet *)

(** An entry with the key the map keeps it under. *)
Definition keyed (entry : NeuteredAddressInfo) : string * NeuteredAddressInfo :=
  (address entry, entry).

Lemma index_in_use_insert (entries : gmap string NeuteredAddressInfo)
    (entry : NeuteredAddressInfo) (addressIndex : Z) :
  index_in_use entries addressIndex = false -> index entry <> addressIndex ->
  index_in_use (<[address entry := entry]> entries) addressIndex = false.
Proof.
  intros Hfree Hne.
  destruct (index_in_use (<[address entry := entry]> entries) addressIndex) eqn:Hused;
    [|reflexivity].
  apply index_in_use_spec in Hused as (a & info & Hlookup & Hindex).
  destruct (decide (a = address entry)) as [->|Ha].
  - rewrite lookup_insert_eq in Hlookup. congruence.
  - rewrite lookup_insert_ne in Hlookup by congruence.
    assert (index_in_use entries addressIndex = true)
      by (apply index_in_use_spec; eauto).
    congruence.
Qed.

(** Records that are what the root derives, with indices and addresses of
    their own and free in the map, are all imported. *)
Lemma importSerializedAddresses_own (entries : list NeuteredAddressInfo)
    (w : QuaiHDWallet) :
  (forall entry, entry ∈ entries ->
     rederive (_root w) (account entry) (index entry) = Ok entry /\
     isQuaiAddress (address entry) = true /\
     index_in_use (_addresses w) (index entry) = false) ->
  NoDup (index <$> entries) -> NoDup (address <$> entries) ->
  importSerializedAddresses entries w
  = (Ok tt, {| _root := _root w;
               _addresses := list_to_map (keyed <$> entries) ∪ _addresses w |}).
Proof.
  revert w. induction entries as [|entry rest IH]; intros w Hentries Hindices Haddresses.
  - cbn [importSerializedAddresses fmap list_fmap list_to_map foldr].
    rewrite (left_id ∅ (∪)). destruct w. reflexivity.
  - destruct (Hentries entry ltac:(left)) as (Hderive & Hquai & Hfree).
    cbn [importSerializedAddresses]. unfold mbind.
    rewrite (_addAddress_run _ _ _ _ Hfree Hderive Hquai).
    rewrite !String.eqb_refl. cbn [negb].
    apply NoDup_cons in Hindices as [Hindex Hindices].
    apply NoDup_cons in Haddresses as [Haddress Haddresses].
    rewrite IH; [|intros entry' Hin|exact Hindices|exact Haddresses].
    + cbn [_root _addresses fmap list_fmap list_to_map foldr keyed uncurry].
      f_equal. f_equal.
      rewrite <- insert_union_l, <- insert_union_r; [reflexivity|].
      apply not_elem_of_list_to_map_1. rewrite <- list_fmap_compose.
      exact Haddress.
    + cbn [_root _addresses].
      destruct (Hentries entry' ltac:(right; exact Hin)) as (Hderive' & Hquai' & Hfree').
      split; [exact Hderive'|]. split; [exact Hquai'|].
      apply index_in_use_insert; [exact Hfree'|].
      intros Heq. apply Hindex. rewrite Heq.
      apply list_elem_of_fmap. eauto.
Qed.

(** The records of a wallet that [addAddress] has filled, in any order, are
    imported into a new wallet of the same root without error, and the
    import makes the same map of them: [deserialize] gives the wallet
    back. *)
Theorem importSerializedAddresses_round_trip (w : QuaiHDWallet)
    (entries : list NeuteredAddressInfo) :
  consistent w -> NoDup entries ->
  (forall entry, entry ∈ entries <-> exists a, _addresses w !! a = Some entry) ->
  importSerializedAddresses entries {| _root := _root w; _addresses := ∅ |} = (Ok tt, w) /\
  (forall serialized,
     validateSerializedWallet serialized = Ok tt ->
     rootOf serialized = Ok (_root w) -> addresses serialized = entries ->
     deserialize serialized = Ok w).
Proof.
  intros [Hentries Hindices] Hnodup Hall.
  assert (Himport : importSerializedAddresses entries {| _root := _root w; _addresses := ∅ |}
                    = (Ok tt, w)).
  { rewrite importSerializedAddresses_own.
    - cbn [_root _addresses]. rewrite (right_id ∅ (∪)).
      replace (list_to_map (keyed <$> entries)) with (_addresses w);
        [destruct w; reflexivity|].
      rewrite <- (list_to_map_to_list (_addresses w)) at 1.
      apply list_to_map_proper; [apply NoDup_fst_map_to_list|].
      apply NoDup_Permutation.
      + apply NoDup_map_to_list.
      + apply NoDup_fmap_2_strong; [|exact Hnodup].
        intros x y _ _ [= _ Heq]. exact Heq.
      + intros [a entry]. rewrite elem_of_map_to_list, list_elem_of_fmap. split.
        * intros Hlookup. exists entry.
          destruct (Hentries _ _ Hlookup) as (-> & _). split; [reflexivity|].
          apply Hall. eauto.
        * intros (entry' & [= -> ->] & Hin). apply Hall in Hin as (a & Hlookup).
          destruct (Hentries _ _ Hlookup) as (-> & _). exact Hlookup.
    - intros entry Hin. apply Hall in Hin as (a & Hlookup).
      destruct (Hentries _ _ Hlookup) as (_ & Hderive & Hquai).
      cbn [_root _addresses]. split; [exact Hderive|]. split; [exact Hquai|].
      reflexivity.
    - apply NoDup_fmap_2_strong; [|exact Hnodup].
      intros x y Hx Hy Heq. apply Hall in Hx as (a & Ha). apply Hall in Hy as (b & Hb).
      pose proof (Hindices _ _ _ _ Ha Hb Heq) as ->. congruence.
    - apply NoDup_fmap_2_strong; [|exact Hnodup].
      intros x y Hx Hy Heq. apply Hall in Hx as (a & Ha). apply Hall in Hy as (b & Hb).
      destruct (Hentries _ _ Ha) as (-> & _). destruct (Hentries _ _ Hb) as (-> & _).
      rewrite Heq in Ha. congruence. }
  split; [exact Himport|].
  intros serialized Hvalid Hroot Haddresses.
  unfold deserialize. rewrite Hvalid, Hroot, Haddresses. cbn [bind].
  rewrite Himport. reflexivity.
Qed.

End Wallet.

(** *** A toy HD node: its derivation path

    The theorems above hold for every HD node implementation.  To run the
    wallet, a node is the list of indices it was derived with; its address
    and public key spell the list out, every address is a Quai address of
    zone 0x00. *)
Module Toy.

Definition node : Type := list Z.

Definition spell (n : node) : string := JS.join "." (JS.Number_toString <$> n).

Definition deriveChild (n : node) (i : Z) : result node := Ok (n ++ [i]).
Definition node_address (n : node) : string := "0x" +:+ spell n.
Definition node_publicKey (n : node) : string := "pub:" +:+ spell n.
Definition node_index (n : node) : Z := default 0 (last n).
Definition HARDENED_OFFSET : Z := 2147483648.
Definition getZoneForAddress (a : string) : option string := Some "0x00".
Definition isQuaiAddress (a : string) : bool := true.
Definition Mnemonic_fromPhrase (phrase : string) : result string := Ok phrase.
Definition parentPath (coinType : Z) : string :=
  "m/44'/" +:+ JS.Number_toString coinType +:+ "'".
Definition HDNodeWallet_fromMnemonic (m path : string) : result node := Ok [].
Definition validateSerializedWallet (s : SerializedQuaiHDWallet) : result unit := Ok tt.

Definition _addAddress (account addressIndex : Z) :=
  QuaiHDWallet._addAddress node deriveChild node_address node_publicKey node_index
    HARDENED_OFFSET getZoneForAddress isQuaiAddress account addressIndex.

Definition deserialize (s : SerializedQuaiHDWallet) : result (QuaiHDWallet node) :=
  QuaiHDWallet.deserialize node deriveChild node_address node_publicKey node_index
    HARDENED_OFFSET getZoneForAddress isQuaiAddress string Mnemonic_fromPhrase
    parentPath HDNodeWallet_fromMnemonic validateSerializedWallet s.

Definition agrees (root : node) (stored : NeuteredAddressInfo) : Prop :=
  QuaiHDWallet.agrees node deriveChild node_address node_publicKey node_index
    HARDENED_OFFSET getZoneForAddress root stored.

(** The entry of account 0, index 5 as the wallet derives it, and the same
    entry with another address. *)
Definition entry_0_5 : NeuteredAddressInfo :=
  mkNeuteredAddressInfo "pub:2147483648.0.5" "0x2147483648.0.5" 0 5 "0x00".

Definition entry_0_5_tampered : NeuteredAddressInfo :=
  mkNeuteredAddressInfo "pub:2147483648.0.5" "0x2147483648.0.6" 0 5 "0x00".

(** An entry of account 1 at the same index 5, with a wrong address. *)
Definition entry_1_5_tampered : NeuteredAddressInfo :=
  mkNeuteredAddressInfo "pub:2147483649.0.5" "0xbad" 1 5 "0x00".

Definition wallet_0_5 : QuaiHDWallet node :=
  mkWallet node [] {[ "0x2147483648.0.5" := entry_0_5 ]}.

Definition serialized (entries : list NeuteredAddressInfo) : SerializedQuaiHDWallet :=
  mkSerialized 1 "test test test" 994 entries.

End Toy.

Example toy_deserialize_good :
  Toy.deserialize (Toy.serialized [Toy.entry_0_5]) = Ok Toy.wallet_0_5.
Proof. vm_compute. reflexivity. Qed.

Lemma _addAddress_rejects_used_index_witness :
  Toy._addAddress 1 5 Toy.wallet_0_5
  = (Throw (Error "Address for index 5 already exists"), Toy.wallet_0_5).
Proof.
  apply (_addAddress_rejects_used_index Toy.node Toy.deriveChild Toy.node_address
           Toy.node_publicKey Toy.node_index Toy.HARDENED_OFFSET
           Toy.getZoneForAddress Toy.isQuaiAddress Toy.wallet_0_5 1 5).
  exists "0x2147483648.0.5", Toy.entry_0_5. split; reflexivity.
Defined.

Lemma toy_disagrees (stored : NeuteredAddressInfo) (a : string) :
  QuaiHDWallet.rederive Toy.node Toy.deriveChild Toy.node_address Toy.node_publicKey
    Toy.node_index Toy.HARDENED_OFFSET Toy.getZoneForAddress []
    (account stored) (index stored)
  = Ok (mkNeuteredAddressInfo (pubKey stored) a (account stored) (index stored) (zone stored)) ->
  address stored <> a -> ~ Toy.agrees [] stored.
Proof.
  intros Hderive Hne (derived & Hderived & Ha & _).
  unfold Toy.agrees in *. rewrite Hderive in Hderived.
  injection Hderived as <-. exact (Hne Ha).
Qed.

(** A tampered address is caught with a mismatch error. *)
Lemma deserialize_cross_validates_witness :
  exists e, Toy.deserialize (Toy.serialized [Toy.entry_0_5_tampered]) = Throw e
            /\ is_mismatch_error e = true.
Proof.
  destruct (deserialize_cross_validates Toy.node Toy.deriveChild Toy.node_address
              Toy.node_publicKey Toy.node_index Toy.HARDENED_OFFSET
              Toy.getZoneForAddress Toy.isQuaiAddress string Toy.Mnemonic_fromPhrase
              Toy.parentPath Toy.HDNodeWallet_fromMnemonic Toy.validateSerializedWallet
              (Toy.serialized [Toy.entry_0_5_tampered])) as (_ & _ & Hmismatch).
  apply (Hmismatch [] [] Toy.entry_0_5_tampered [] (mkWallet Toy.node [] ∅)
           Toy.wallet_0_5 Toy.entry_0_5); try reflexivity.
  intros (Ha & _). discriminate Ha.
Defined.

(** C5 as the claim states it fails: the second stored entry differs from
    its re-derivation, and [deserialize] fails with the 'already exists'
    error of [_addAddress], which is no mismatch error, because the first
    entry has taken the index. *)
Lemma deserialize_not_always_mismatch :
  In Toy.entry_1_5_tampered (addresses (Toy.serialized [Toy.entry_0_5; Toy.entry_1_5_tampered])) /\
  ~ Toy.agrees [] Toy.entry_1_5_tampered /\
  Toy.deserialize (Toy.serialized [Toy.entry_0_5; Toy.entry_1_5_tampered])
  = Throw (Error "Address for index 5 already exists") /\
  is_mismatch_error (Error "Address for index 5 already exists") = false.
Proof.
  split; [simpl; tauto|]. split; [|split; [vm_compute; reflexivity|reflexivity]].
  apply (toy_disagrees Toy.entry_1_5_tampered "0x2147483649.0.5"); [reflexivity|discriminate].
Qed.

(** The toy nodes carry the index they were derived with. *)
Lemma toy_deriveChild_index (n : Toy.node) (i : Z) (child : Toy.node) :
  Toy.deriveChild n i = Ok child -> Toy.node_index child = i.
Proof.
  intros [= <-]. unfold Toy.node_index. rewrite last_snoc. reflexivity.
Qed.

(** The wallet with the address of index 5 of account 0 and the address of
    index 6 of account 1. *)
Definition toy_entry_1_6 : NeuteredAddressInfo :=
  mkNeuteredAddressInfo "pub:2147483649.0.6" "0x2147483649.0.6" 1 6 "0x00".

Definition toy_wallet_two : QuaiHDWallet Toy.node :=
  mkWallet Toy.node []
    (<["0x2147483649.0.6" := toy_entry_1_6]> {[ "0x2147483648.0.5" := Toy.entry_0_5 ]}).

Definition toy_filled : QuaiHDWallet Toy.node -> Prop :=
  filled Toy.node Toy.deriveChild Toy.node_address Toy.node_publicKey Toy.node_index
    Toy.HARDENED_OFFSET Toy.getZoneForAddress Toy.isQuaiAddress [].

Definition toy_consistent : QuaiHDWallet Toy.node -> Prop :=
  consistent Toy.node Toy.deriveChild Toy.node_address Toy.node_publicKey Toy.node_index
    Toy.HARDENED_OFFSET Toy.getZoneForAddress Toy.isQuaiAddress.

Lemma toy_wallet_two_filled : toy_filled toy_wallet_two.
Proof.
  apply (filled_addAddress _ _ _ _ _ _ _ _ _ Toy.wallet_0_5 1 6 (Ok toy_entry_1_6)).
  - apply (filled_addAddress _ _ _ _ _ _ _ _ _ (mkWallet Toy.node [] ∅) 0 5
             (Ok Toy.entry_0_5)); [constructor|]. vm_compute. reflexivity.
  - vm_compute. reflexivity.
Qed.

Lemma filled_consistent_witness : toy_consistent toy_wallet_two.
Proof.
  apply (filled_consistent Toy.node Toy.deriveChild Toy.node_address Toy.node_publicKey
           Toy.node_index Toy.HARDENED_OFFSET Toy.getZoneForAddress Toy.isQuaiAddress
           toy_deriveChild_index [] toy_wallet_two toy_wallet_two_filled).
Defined.

(** The import of a record with a wrong address fails with a mismatch error
    and leaves the entry it derived for the record in the map. *)
Lemma importSerializedAddresses_keeps_entries_witness :
  exists message,
    importSerializedAddresses Toy.node Toy.deriveChild Toy.node_address
      Toy.node_publicKey Toy.node_index Toy.HARDENED_OFFSET Toy.getZoneForAddress
      Toy.isQuaiAddress [Toy.entry_0_5_tampered] (mkWallet Toy.node [] ∅)
    = (Throw (Error message), Toy.wallet_0_5) /\
    is_mismatch_message message = true /\
    getAddressInfo Toy.node "0x2147483648.0.5" Toy.wallet_0_5 = Some Toy.entry_0_5.
Proof.
  destruct (importSerializedAddresses_keeps_entries Toy.node Toy.deriveChild
              Toy.node_address Toy.node_publicKey Toy.node_index Toy.HARDENED_OFFSET
              Toy.getZoneForAddress Toy.isQuaiAddress string Toy.Mnemonic_fromPhrase
              Toy.parentPath [] [] Toy.entry_0_5_tampered Toy.entry_0_5
              (mkWallet Toy.node [] ∅) (mkWallet Toy.node [] ∅) Toy.wallet_0_5)
    as (message & Himport & Hmsg & Hentry & _).
  - reflexivity.
  - vm_compute. reflexivity.
  - intros (Ha & _). discriminate Ha.
  - exists message. auto.
Defined.

(** The two records of the wallet, the second one first, are imported into
    a new wallet, which is then the wallet they came from. *)
Lemma importSerializedAddresses_round_trip_witness :
  importSerializedAddresses Toy.node Toy.deriveChild Toy.node_address
    Toy.node_publicKey Toy.node_index Toy.HARDENED_OFFSET Toy.getZoneForAddress
    Toy.isQuaiAddress [toy_entry_1_6; Toy.entry_0_5] (mkWallet Toy.node [] ∅)
  = (Ok tt, toy_wallet_two) /\
  Toy.deserialize (Toy.serialized [toy_entry_1_6; Toy.entry_0_5]) = Ok toy_wallet_two.
Proof.
  destruct (importSerializedAddresses_round_trip Toy.node Toy.deriveChild
              Toy.node_address Toy.node_publicKey Toy.node_index Toy.HARDENED_OFFSET
              Toy.getZoneForAddress Toy.isQuaiAddress string Toy.Mnemonic_fromPhrase
              Toy.parentPath Toy.HDNodeWallet_fromMnemonic Toy.validateSerializedWallet
              toy_wallet_two [toy_entry_1_6; Toy.entry_0_5])
    as [Himport Hdeserialize].
  - apply (filled_invariant Toy.node Toy.deriveChild Toy.node_address Toy.node_publicKey
             Toy.node_index Toy.HARDENED_OFFSET Toy.getZoneForAddress Toy.isQuaiAddress
             toy_deriveChild_index [] toy_wallet_two toy_wallet_two_filled).
  - apply NoDup_cons. split; [|apply NoDup_singleton].
    rewrite list_elem_of_singleton. discriminate.
  - intros entry. cbn [toy_wallet_two _addresses]. split.
    + intros Hin. apply elem_of_cons in Hin as [->|Hin].
      * exists "0x2147483649.0.6". apply lookup_insert_eq.
      * apply list_elem_of_singleton in Hin as ->. exists "0x2147483648.0.5".
        rewrite lookup_insert_ne by discriminate. apply lookup_singleton_eq.
    + intros (a & Hlookup). apply lookup_insert_Some in Hlookup as [[_ <-]|[_ Hlookup]].
      * left.
      * apply lookup_singleton_Some in Hlookup as [_ <-]. right. left.
  - split; [exact Himport|]. apply Hdeserialize; reflexivity.
Defined.

End QuaiHDWallet.

(** ** Byte strings and big-endian numbers *)

Module Bytes.

Abbreviation byte := Byte.byte.

Definition byte_to_Z (b : byte) : Z := Z.of_N (Byte.to_N b).

Definition byte_of_Z (z : Z) : byte :=
  default Byte.x00 (Byte.of_N (Z.to_N (z mod 256))).

(** [toBigInt(bytes)]: the number a byte string spells, big-endian. *)
Definition toBigInt (bs : list byte) : Z := Radix.of_digits 256 (byte_to_Z <$> bs).

(** [toBeArray(value)]: the shortest big-endian byte string of a number that
    is not negative; empty for zero. *)
Definition toBeArray (v : Z) : list byte := byte_of_Z <$> Radix.to_digits 256 v.

Definition zeroPad (width : nat) (bs : list byte) : list byte :=
  replicate (width - length bs) Byte.x00 ++ bs.

(** [toBeHex(value, width)]: [width] bytes, or a NUMERIC_FAULT when the value
    needs more. *)
Definition toBeHex (v : Z) (width : nat) : result (list byte) :=
  if v <? 0 then Throw (Fault "NUMERIC_FAULT" "unsigned value cannot be negative")
  else if (width <? length (toBeArray v))%nat
       then Throw (Fault "NUMERIC_FAULT" "value exceeds width")
       else Ok (zeroPad width (toBeArray v)).

(** Modelled from the spec: [zpad(value, length)] of [wallet/utils.js], the
    field of [length] bytes that holds [value] in the fixed layout of an
    extended key (the depth in one byte, the child index in four).  The
    function writes the hexadecimal digits of the value and pads them with
    zeros to twice [length]; the bytes are read off them where the key is
    put together.  A negative value leaves text that is no byte string, and
    so does a value with an odd number of digits, more than there is room
    for: the key cannot be put together. *)
Definition zpad (value : Z) (length : nat) : result (list byte) :=
  let nibbles := List.length (Radix.to_digits 16 value) in
  if (value <? 0) || ((2 * length <? nibbles)%nat && Nat.odd nibbles)
  then Throw (InvalidArgument "invalid BytesLike value" "value")
  else Ok (zeroPad length (toBeArray value)).

Definition hex_char (d : Z) : ascii :=
  nth (Z.to_nat d) (list_ascii_of_string "0123456789abcdef") "0"%char.

(** [hexlify(bytes)] *)
Definition hexlify (bs : list byte) : string :=
  "0x" +:+ JS.string_of_chars
    (flat_map (fun b => [hex_char (byte_to_Z b / 16); hex_char (byte_to_Z b mod 16)]) bs).

(** [bytes.slice(start, end)] *)
Definition slice (start stop : nat) (bs : list byte) : list byte :=
  take (stop - start) (drop start bs).

(** *** Properties *)

Lemma byte_to_Z_range (b : byte) : 0 <= byte_to_Z b < 256.
Proof.
  unfold byte_to_Z. pose proof (Byte.to_N_bounded b) as H.
  apply N2Z.inj_le in H. simpl in H. lia.
Qed.

Lemma byte_of_to_Z (b : byte) : byte_of_Z (byte_to_Z b) = b.
Proof.
  destruct b; reflexivity.
Qed.

Lemma byte_to_of_Z (z : Z) : 0 <= z < 256 -> byte_to_Z (byte_of_Z z) = z.
Proof.
  intros Hz. unfold byte_of_Z, byte_to_Z. rewrite Z.mod_small by exact Hz.
  destruct (Byte.of_N (Z.to_N z)) as [b|] eqn:Hb.
  - apply Byte.to_of_N in Hb. change (Z.of_N (Byte.to_N b) = z).
    rewrite Hb. apply Z2N.id. lia.
  - apply Byte.of_N_None_iff in Hb. apply N2Z.inj_lt in Hb.
    rewrite Z2N.id in Hb by lia. simpl in Hb. lia.
Qed.

Lemma bytes_digits (bs : list byte) : Forall (Radix.digit 256) (byte_to_Z <$> bs).
Proof. apply Forall_fmap, Forall_forall. intros b _. apply byte_to_Z_range. Qed.

Lemma toBigInt_range (bs : list byte) : 0 <= toBigInt bs < 256 ^ Z.of_nat (length bs).
Proof.
  unfold toBigInt. rewrite <- (length_fmap byte_to_Z bs).
  apply Radix.of_digits_bound; [lia|apply bytes_digits].
Qed.

Theorem toBigInt_toBeArray (v : Z) : 0 <= v -> toBigInt (toBeArray v) = v.
Proof.
  intros Hv. unfold toBigInt, toBeArray. rewrite <- list_fmap_compose.
  rewrite (Forall_fmap_ext_1 (byte_to_Z ∘ byte_of_Z) id).
  - rewrite list_fmap_id. apply Radix.of_to_digits; lia.
  - eapply Forall_impl; [apply (Radix.to_digits_digit 256); lia|].
    intros d Hd. apply byte_to_of_Z, Hd.
Qed.

Theorem toBeArray_toBigInt (bs : list byte) :
  head bs <> Some Byte.x00 -> toBeArray (toBigInt bs) = bs.
Proof.
  intros Hhd. unfold toBigInt, toBeArray.
  rewrite Radix.to_of_digits; [| lia | apply bytes_digits |].
  - rewrite <- list_fmap_compose. rewrite <- (list_fmap_id bs) at 2.
    apply list_fmap_ext. intros _ b _. apply byte_of_to_Z.
  - destruct bs as [|b bs]; [discriminate|]. cbn. intros [= Hb]. apply Hhd.
    rewrite <- (byte_of_to_Z b), Hb. reflexivity.
Qed.

Lemma toBigInt_zeroPad (width : nat) (bs : list byte) :
  toBigInt (zeroPad width bs) = toBigInt bs.
Proof.
  unfold toBigInt, zeroPad. rewrite fmap_app, fmap_replicate.
  change (byte_to_Z Byte.x00) with 0. apply (Radix.of_digits_zeros 256); lia.
Qed.

Lemma toBigInt_app (bs1 bs2 : list byte) :
  toBigInt (bs1 ++ bs2) = toBigInt bs1 * 256 ^ Z.of_nat (length bs2) + toBigInt bs2.
Proof.
  unfold toBigInt. rewrite fmap_app, Radix.of_digits_app by lia.
  rewrite length_fmap. reflexivity.
Qed.

Lemma length_zeroPad (width : nat) (bs : list byte) :
  (length bs <= width)%nat -> length (zeroPad width bs) = width.
Proof. intros H. unfold zeroPad. rewrite length_app, length_replicate. lia. Qed.

Lemma length_toBeArray (v : Z) (width : nat) :
  0 <= v < 256 ^ Z.of_nat width -> (length (toBeArray v) <= width)%nat.
Proof.
  intros Hv. unfold toBeArray. rewrite length_fmap.
  apply Radix.to_digits_length; [lia|exact Hv].
Qed.

(** A value that fits the field is written in it. *)
Lemma zpad_Ok (v : Z) (width : nat) :
  0 <= v < 256 ^ Z.of_nat width -> zpad v width = Ok (zeroPad width (toBeArray v)).
Proof.
  intros Hv. unfold zpad. destruct (Z.ltb_spec v 0); [lia|].
  assert (Hlen : (length (Radix.to_digits 16 v) <= 2 * width)%nat).
  { apply Radix.to_digits_length; [lia|].
    replace (Z.of_nat (2 * width)) with (2 * Z.of_nat width) by lia.
    rewrite Z.pow_mul_r by lia. exact Hv. }
  destruct (Nat.ltb_spec (2 * width) (length (Radix.to_digits 16 v))); [lia|].
  reflexivity.
Qed.

Lemma zpad_negative (v : Z) (width : nat) :
  v < 0 -> zpad v width = Throw (InvalidArgument "invalid BytesLike value" "value").
Proof. intros Hv. unfold zpad. destruct (Z.ltb_spec v 0); [reflexivity|lia]. Qed.

Lemma length_zpad (v : Z) (width : nat) :
  0 <= v < 256 ^ Z.of_nat width -> length (zeroPad width (toBeArray v)) = width.
Proof. intros Hv. apply length_zeroPad, length_toBeArray, Hv. Qed.

Lemma toBigInt_zpad (v : Z) (width : nat) :
  0 <= v -> toBigInt (zeroPad width (toBeArray v)) = v.
Proof. intros Hv. rewrite toBigInt_zeroPad. apply toBigInt_toBeArray, Hv. Qed.

Lemma toBeHex_Ok (v : Z) (width : nat) :
  0 <= v < 256 ^ Z.of_nat width ->
  exists bs, toBeHex v width = Ok bs /\ length bs = width /\ toBigInt bs = v.
Proof.
  intros Hv. unfold toBeHex. destruct (Z.ltb_spec v 0); [lia|].
  pose proof (length_toBeArray v width Hv).
  destruct (Nat.ltb_spec width (length (toBeArray v))); [lia|].
  eexists. split; [reflexivity|]. split.
  - apply length_zeroPad. lia.
  - rewrite toBigInt_zeroPad. apply toBigInt_toBeArray. lia.
Qed.

Lemma toBeHex_inv (v : Z) (width : nat) (bs : list byte) :
  toBeHex v width = Ok bs -> length bs = width /\ toBigInt bs = v /\ 0 <= v.
Proof.
  unfold toBeHex. destruct (Z.ltb_spec v 0); [discriminate|].
  destruct (Nat.ltb_spec width (length (toBeArray v))); [discriminate|].
  intros [= <-]. split; [apply length_zeroPad; lia|]. split; [|lia].
  rewrite toBigInt_zeroPad. apply toBigInt_toBeArray. lia.
Qed.

Lemma zpad_byte (v : Z) : 0 <= v < 256 -> zeroPad 1 (toBeArray v) = [byte_of_Z v].
Proof.
  intros Hv. pose proof (length_zpad v 1 ltac:(simpl; lia)) as Hlen.
  pose proof (toBigInt_zpad v 1 ltac:(lia)) as Hval.
  destruct (zeroPad 1 (toBeArray v)) as [|b [|b' bs]]; try discriminate.
  f_equal. rewrite <- Hval. unfold toBigInt. cbn.
  symmetry. apply byte_of_to_Z.
Qed.

Lemma length_slice (start stop : nat) (bs : list byte) :
  (stop <= length bs)%nat -> length (slice start stop bs) = (stop - start)%nat.
Proof. intros H. unfold slice. rewrite length_take, length_drop. lia. Qed.

Lemma slice_0 (a b : list byte) (n : nat) :
  n = length a -> slice 0 n (a ++ b) = a.
Proof.
  intros ->. unfold slice. rewrite drop_0, Nat.sub_0_r. apply take_app_length.
Qed.

Lemma slice_skip (a b : list byte) (n s e : nat) :
  n = length a -> slice (n + s) (n + e) (a ++ b) = slice s e b.
Proof.
  intros ->. unfold slice. rewrite drop_app_add.
  replace (length a + e - (length a + s))%nat with (e - s)%nat by lia. reflexivity.
Qed.

Lemma nth_skip (a b : list byte) (n k : nat) (d : byte) :
  n = length a -> nth (n + k) (a ++ b) d = nth k b d.
Proof. intros ->. apply app_nth2_plus. Qed.

(** The fields of the 82 bytes of an extended key, by position. *)
Lemma extended_key_layout (v d fp ix cc key check : list byte) :
  length v = 4%nat -> length d = 1%nat -> length fp = 4%nat -> length ix = 4%nat ->
  length cc = 32%nat -> length key = 33%nat -> length check = 4%nat ->
  let bytes := v ++ d ++ fp ++ ix ++ cc ++ key ++ check in
  length bytes = 82%nat /\
  slice 0 4 bytes = v /\
  nth 4 bytes Byte.x00 = nth 0 d Byte.x00 /\
  slice 5 9 bytes = fp /\
  slice 9 13 bytes = ix /\
  slice 13 45 bytes = cc /\
  slice 45 78 bytes = key /\
  slice 0 78 bytes ++ check = bytes.
Proof.
  intros Hv Hd Hfp Hix Hcc Hkey Hcheck bytes. subst bytes.
  split; [rewrite !length_app; lia|].
  split; [apply slice_0; lia|].
  split.
  { change 4%nat with (4 + 0)%nat at 1. rewrite nth_skip by lia.
    destruct d as [|b [|]]; try discriminate. reflexivity. }
  split.
  { change (slice 5 9) with (slice (4 + 1) (4 + 5)). rewrite slice_skip by lia.
    change (slice 1 5) with (slice (1 + 0) (1 + 4)). rewrite slice_skip by lia.
    apply slice_0. lia. }
  split.
  { change (slice 9 13) with (slice (4 + 5) (4 + 9)). rewrite slice_skip by lia.
    change (slice 5 9) with (slice (1 + 4) (1 + 8)). rewrite slice_skip by lia.
    change (slice 4 8) with (slice (4 + 0) (4 + 4)). rewrite slice_skip by lia.
    apply slice_0. lia. }
  split.
  { change (slice 13 45) with (slice (4 + 9) (4 + 41)). rewrite slice_skip by lia.
    change (slice 9 41) with (slice (1 + 8) (1 + 40)). rewrite slice_skip by lia.
    change (slice 8 40) with (slice (4 + 4) (4 + 36)). rewrite slice_skip by lia.
    change (slice 4 36) with (slice (4 + 0) (4 + 32)). rewrite slice_skip by lia.
    apply slice_0. lia. }
  split.
  { change (slice 45 78) with (slice (4 + 41) (4 + 74)). rewrite slice_skip by lia.
    change (slice 41 74) with (slice (1 + 40) (1 + 73)). rewrite slice_skip by lia.
    change (slice 40 73) with (slice (4 + 36) (4 + 69)). rewrite slice_skip by lia.
    change (slice 36 69) with (slice (4 + 32) (4 + 65)). rewrite slice_skip by lia.
    change (slice 32 65) with (slice (32 + 0) (32 + 33)). rewrite slice_skip by lia.
    apply slice_0. lia. }
  rewrite !app_assoc. f_equal. rewrite <- !app_assoc.
  rewrite !app_assoc. apply slice_0. rewrite !length_app. lia.
Qed.

(** [hexlify] gives two characters a byte after the [0x]. *)
Lemma length_hexlify (bs : list byte) :
  String.length (hexlify bs) = (2 + 2 * length bs)%nat.
Proof.
  unfold hexlify. change ("0x" +:+ ?s) with (String "0" (String "x" s)).
  cbn [String.length]. do 2 f_equal.
  induction bs as [|b bs IH]; [reflexivity|].
  cbn [flat_map app JS.string_of_chars string_of_list_ascii String.length length].
  unfold JS.string_of_chars in IH. rewrite IH. lia.
Qed.

Lemma byte_of_Z_nonzero (d : Z) : 0 < d < 256 -> byte_of_Z d <> Byte.x00.
Proof.
  intros Hd Heq. pose proof (byte_to_of_Z d ltac:(lia)) as H.
  rewrite Heq in H. change (byte_to_Z Byte.x00) with 0 in H. lia.
Qed.

(** [toBeArray] gives no zero byte in front. *)
Lemma toBeArray_head (v : Z) : 0 <= v -> head (toBeArray v) <> Some Byte.x00.
Proof.
  intros Hv. unfold toBeArray.
  pose proof (Radix.to_digits_digit 256 ltac:(lia) v) as Hdig.
  pose proof (Radix.to_digits_head 256 ltac:(lia) v Hv) as Hhd.
  destruct (Radix.to_digits 256 v) as [|d ds]; [discriminate|].
  inversion Hdig as [|? ? Hd _]; subst. cbn. intros [= Heq].
  unfold Radix.digit in Hd.
  apply (byte_of_Z_nonzero d); [|exact Heq].
  assert (d <> 0) by (intros ->; apply Hhd; reflexivity). lia.
Qed.

Lemma hexlify_odd_length (bs : list byte) (s : string) :
  Nat.Odd (String.length s) -> String.eqb (hexlify bs) s = false.
Proof.
  intros Hodd. destruct (String.eqb_spec (hexlify bs) s) as [<-|]; [|reflexivity].
  rewrite length_hexlify in Hodd. destruct Hodd as [m Hm]. lia.
Qed.

End Bytes.

(** ** Base58

    Modelled from the spec: the Base58 of Base58Check ([utils/base58.js] is
    not among the sources).  What the model keeps of the library is what
    [fromExtendedKey] shows of it: [decodeBase58] gives a number, which
    [toBeArray] turns into bytes. *)

Module Base58.
Import Bytes.

Definition Alphabet : string :=
  "123456789ABCDEFGHJKLMNPQRSTUVWXYZabcdefghijkmnopqrstuvwxyz".

Definition base58_char (d : Z) : ascii :=
  nth (Z.to_nat d) (list_ascii_of_string Alphabet) "1"%char.

Fixpoint index_of (c : ascii) (s : string) (i : Z) : option Z :=
  match s with
  | EmptyString => None
  | String c' s' => if Ascii.eqb c' c then Some i else index_of c s' (i + 1)
  end.

Definition getAlpha (letter : ascii) : result Z :=
  match index_of letter Alphabet 0 with
  | Some i => Ok i
  | None => Throw (InvalidArgument "invalid base58 value" "letter")
  end.

Fixpoint leading_zeros (bs : list byte) : nat :=
  match bs with
  | Byte.x00 :: bs' => S (leading_zeros bs')
  | _ => O
  end.

(** The digits of the number, then one [1] in front for every zero byte the
    byte string starts with. *)
Definition encodeBase58 (bs : list byte) : string :=
  JS.string_of_chars
    (replicate (leading_zeros bs) "1"%char
     ++ (base58_char <$> Radix.to_digits 58 (toBigInt bs))).

(** [result *= 58; result += getAlpha(letter)] over the letters. *)
Fixpoint decodeBase58_from (acc : Z) (s : string) : result Z :=
  match s with
  | EmptyString => Ok acc
  | String c s' =>
      let* d := getAlpha c in
      decodeBase58_from (acc * 58 + d) s'
  end.

Definition decodeBase58 (value : string) : result Z := decodeBase58_from 0 value.

(** *** Properties *)

Lemma getAlpha_base58_char (d : Z) : 0 <= d < 58 -> getAlpha (base58_char d) = Ok d.
Proof.
  intros Hd.
  assert (Hall : forallb (fun d => match getAlpha (base58_char d) with
                                   | Ok d' => d' =? d
                                   | Throw _ => false
                                   end) (seqZ 0 58) = true) by (vm_compute; reflexivity).
  rewrite forallb_forall in Hall.
  specialize (Hall d). rewrite <- list_elem_of_In, elem_of_seqZ in Hall.
  specialize (Hall ltac:(lia)).
  destruct (getAlpha (base58_char d)) as [d'|]; [|discriminate].
  apply Z.eqb_eq in Hall. congruence.
Qed.

Lemma decodeBase58_from_digits (ds : list Z) (acc : Z) :
  Forall (Radix.digit 58) ds ->
  decodeBase58_from acc (JS.string_of_chars (base58_char <$> ds))
  = Ok (fold_left (fun acc d => acc * 58 + d) ds acc).
Proof.
  intros Hds. revert acc. induction Hds as [|d ds Hd _ IH]; intros acc; [reflexivity|].
  cbn [fmap list_fmap JS.string_of_chars string_of_list_ascii decodeBase58_from fold_left].
  rewrite getAlpha_base58_char by exact Hd. cbn [bind]. apply IH.
Qed.

(** Decoding what was encoded gives the number the bytes spell. *)
Theorem decodeBase58_encodeBase58 (bs : list byte) :
  decodeBase58 (encodeBase58 bs) = Ok (toBigInt bs).
Proof.
  unfold decodeBase58, encodeBase58.
  change (replicate (leading_zeros bs) "1"%char)
    with (replicate (leading_zeros bs) (base58_char 0)).
  rewrite <- (fmap_replicate base58_char), <- fmap_app.
  rewrite decodeBase58_from_digits.
  - f_equal. change (fold_left _ ?ds 0) with (Radix.of_digits 58 ds).
    rewrite (Radix.of_digits_zeros 58) by lia.
    apply Radix.of_to_digits; [lia|apply toBigInt_range].
  - apply Forall_app. split.
    + apply Forall_replicate. unfold Radix.digit. lia.
    + apply Radix.to_digits_digit. lia.
Qed.

(** Through [toBeArray] the bytes come back when the first is not zero. *)
Corollary toBeArray_decodeBase58 (bs : list byte) :
  head bs <> Some Byte.x00 ->
  (let* value := decodeBase58 (encodeBase58 bs) in Ok (toBeArray value)) = Ok bs.
Proof.
  intros Hhd. rewrite decodeBase58_encodeBase58. cbn [bind].
  f_equal. apply toBeArray_toBigInt, Hhd.
Qed.

End Base58.

(** ** HD nodes ([lib.esm/wallet/hdwallet.js]) *)

Module HDWallet.
Import Bytes Base58.

(** *** The bit operations of JavaScript on numbers *)

(** [ToInt32]: the operand of a bit operation, as a signed 32-bit integer. *)
Definition ToInt32 (x : Z) : Z :=
  let m := x mod 2 ^ 32 in
  if m <? 2 ^ 31 then m else m - 2 ^ 32.

(** [a & b] *)
Definition bitand (a b : Z) : Z := Z.land (ToInt32 a) (ToInt32 b).

(** [~a] *)
Definition bitnot (a : Z) : Z := Z.lnot (ToInt32 a).

(** Modelled from the spec: [HardenedBit] of [wallet/utils.js], the top bit
    of a 32-bit child index. *)
Definition HardenedBit : Z := 0x80000000.

(** [index & HardenedBit] as a condition. *)
Definition is_hardened (index : Z) : bool := negb (bitand index HardenedBit =? 0).

(** The four bytes of an index, big-endian:
    [(index >> (24 - i)) & 0xff] for [i = 24, 16, 8, 0]. *)
Definition ser_32 (index : Z) : list byte :=
  [ byte_of_Z (Z.shiftr index 24); byte_of_Z (Z.shiftr index 16);
    byte_of_Z (Z.shiftr index 8); byte_of_Z index ].

(** A path that is neither [null] nor empty. *)
Definition has_path (path : option string) : bool :=
  match path with
  | Some p => negb (String.eqb p "")
  | None => false
  end.

(** The text [deriveChild] appends to a path. *)
Definition child_suffix (index : Z) : string :=
  "/" +:+ JS.Number_toString (bitand index (bitnot HardenedBit))
  +:+ (if is_hardened index then "'" else "").

Lemma ToInt32_small (x : Z) : 0 <= x < 2 ^ 31 -> ToInt32 x = x.
Proof.
  intros Hx. unfold ToInt32. rewrite Z.mod_small by lia.
  destruct (Z.ltb_spec x (2 ^ 31)); [reflexivity|lia].
Qed.

(** An index below [2 ^ 31] is not hardened, and [index & ~HardenedBit]
    is the index itself. *)
Lemma is_hardened_low (index : Z) : 0 <= index < 2 ^ 31 -> is_hardened index = false.
Proof.
  intros Hi. unfold is_hardened, bitand. rewrite (ToInt32_small index Hi).
  change (ToInt32 HardenedBit) with (Z.lnot (Z.ones 31)).
  rewrite <- Z.ldiff_land, Z.ldiff_ones_r by lia.
  rewrite Z.shiftr_div_pow2, Z.div_small by lia. reflexivity.
Qed.

Lemma bitand_low (index : Z) :
  0 <= index < 2 ^ 31 -> bitand index (bitnot HardenedBit) = index.
Proof.
  intros Hi. unfold bitand. rewrite (ToInt32_small index Hi).
  change (ToInt32 (bitnot HardenedBit)) with (Z.ones 31).
  rewrite Z.land_ones by lia. apply Z.mod_small. lia.
Qed.

(** *** Child indices and paths *)

Lemma ToInt32_range (x : Z) : - 2 ^ 31 <= ToInt32 x < 2 ^ 31.
Proof.
  unfold ToInt32. pose proof (Z.mod_pos_bound x (2 ^ 32) ltac:(lia)).
  destruct (Z.ltb_spec (x mod 2 ^ 32) (2 ^ 31)); lia.
Qed.

Lemma ToInt32_mod (x : Z) : ToInt32 x mod 2 ^ 31 = x mod 2 ^ 31.
Proof.
  assert (Hm : (x mod 2 ^ 32) mod 2 ^ 31 = x mod 2 ^ 31).
  { rewrite (Z.div_mod x (2 ^ 32)) at 2 by lia.
    replace (2 ^ 32 * (x / 2 ^ 32) + x mod 2 ^ 32)
      with (x mod 2 ^ 32 + (2 * (x / 2 ^ 32)) * 2 ^ 31) by lia.
    rewrite Z.mod_add by lia. reflexivity. }
  unfold ToInt32. destruct (Z.ltb_spec (x mod 2 ^ 32) (2 ^ 31)); [exact Hm|].
  replace (x mod 2 ^ 32 - 2 ^ 32) with (x mod 2 ^ 32 + (-2) * 2 ^ 31) by lia.
  rewrite Z.mod_add by lia. exact Hm.
Qed.

(** [index & ~HardenedBit] is the index less its top bit. *)
Lemma bitand_clear_hardened (index : Z) :
  bitand index (bitnot HardenedBit) = index mod 2 ^ 31.
Proof.
  unfold bitand. change (ToInt32 (bitnot HardenedBit)) with (Z.ones 31).
  rewrite Z.land_ones by lia. apply ToInt32_mod.
Qed.

(** [index & HardenedBit] is not zero when the top bit of the index is set. *)
Lemma is_hardened_spec (index : Z) :
  is_hardened index = (2 ^ 31 <=? index mod 2 ^ 32).
Proof.
  unfold is_hardened, bitand.
  change (ToInt32 HardenedBit) with (Z.lnot (Z.ones 31)).
  rewrite <- Z.ldiff_land, Z.ldiff_ones_r by lia.
  rewrite Z.shiftr_div_pow2, Z.shiftl_mul_pow2 by lia.
  pose proof (Z.mod_pos_bound index (2 ^ 32) ltac:(lia)) as Hm.
  unfold ToInt32.
  destruct (Z.ltb_spec (index mod 2 ^ 32) (2 ^ 31)) as [Hlow|Hhigh].
  - rewrite Z.div_small by lia.
    destruct (Z.leb_spec (2 ^ 31) (index mod 2 ^ 32)); [lia|reflexivity].
  - replace ((index mod 2 ^ 32 - 2 ^ 32) / 2 ^ 31) with (-1).
    + destruct (Z.leb_spec (2 ^ 31) (index mod 2 ^ 32)); [reflexivity|lia].
    + apply Z.div_unique with (r := index mod 2 ^ 32 - 2 ^ 31); lia.
Qed.

(** The field [deriveChild] adds to a path: the index less its top bit, and
    an apostrophe when the top bit is set. *)
Definition child_field (index : Z) : string :=
  JS.Number_toString (index mod 2 ^ 31)
  +:+ (if 2 ^ 31 <=? index mod 2 ^ 32 then "'" else "").

Lemma child_suffix_field (index : Z) :
  child_suffix index = String "/" (child_field index).
Proof.
  unfold child_suffix, child_field.
  rewrite bitand_clear_hardened, is_hardened_spec. reflexivity.
Qed.

Lemma child_field_no_slash (index : Z) : JS.contains "/" (child_field index) = false.
Proof.
  unfold child_field. rewrite JS.contains_append.
  pose proof (Z.mod_pos_bound index (2 ^ 31) ltac:(lia)) as Hm.
  rewrite (JS.all_decimal_contains "/" (JS.Number_toString (index mod 2 ^ 31)));
    [|apply JS.is_decimal_all, JS.is_decimal_Number_toString; lia|reflexivity].
  destruct (2 ^ 31 <=? index mod 2 ^ 32); reflexivity.
Qed.

(** The path the child starts from: the parent's, less its last field when
    it has six. *)
Definition base_path (p : string) : string :=
  if (length (JS.split "/" p) =? 6)%nat
  then JS.join "/" (removelast (JS.split "/" p)) else p.

Lemma removelast_fields (p : string) :
  removelast (JS.split "/" p) <> [] \/ length (JS.split "/" p) = 1%nat.
Proof.
  destruct (JS.split "/" p) as [|f [|g fs]] eqn:Hsplit.
  - destruct (JS.split_nonempty "/" p Hsplit).
  - right. reflexivity.
  - left. discriminate.
Qed.

(** The fields of the path the child starts from. *)
Lemma split_base_path (p : string) :
  JS.split "/" (base_path p)
  = if (length (JS.split "/" p) =? 6)%nat
    then removelast (JS.split "/" p) else JS.split "/" p.
Proof.
  unfold base_path.
  destruct (Nat.eqb_spec (length (JS.split "/" p)) 6) as [H6|_]; [|reflexivity].
  apply (JS.split_join "/").
  - destruct (removelast_fields p) as [Hne|H1]; [exact Hne|lia].
  - pose proof (JS.split_fields "/" p) as Hfields.
    rewrite Forall_forall in *. intros f Hf. apply Hfields.
    apply list_elem_of_In. apply list_elem_of_In in Hf.
    clear -Hf. induction (JS.split "/" p) as [|g fs IH]; [destruct Hf|].
    destruct fs as [|g' fs]; [destruct Hf|].
    destruct Hf as [->|Hf]; [left; reflexivity|right; apply IH, Hf].
Qed.

(** The master key of the same test vector under the two testnet versions. *)
Definition tv1_tprv : string :=
  "tprv8ZgxMBicQKsPeDgjzdC36fs6bMjGApWDNLR9erAXMs5skhMv36j9MV5ecvfavji5khqjWaWSFhN3YcCUUdiKH6isR4Pwy3U5y5egddBr16m".

Definition tv1_tpub : string :=
  "tpubD6NzVbkrYhZ4XgiXtGrdW5XDAPFCL9h7we1vwNCpn8tGbBcgfVYjXyhWo4E1xkh56hjod1RhGjxbaTLV3X4FyWuejifB9jusQ46QzG87VKp".

(** The number a Base58 string spells, 0 for a string that spells none. *)
Definition decoded (s : string) : Z :=
  match decodeBase58 s with Ok value => value | Throw _ => 0 end.

(** *** Derivation paths *)

(** [/^m\/44'\/\d+'\/\d+'\/[01]$/], the pattern of [isValidPath]. *)
Definition pathRegex : Regex.regex :=
  Regex.Cat (Regex.Lit "m/44'/")
    (Regex.Cat (Regex.Plus Regex.Digit)
       (Regex.Cat (Regex.Lit "'/")
          (Regex.Cat (Regex.Plus Regex.Digit)
             (Regex.Cat (Regex.Lit "'/")
                (Regex.Class (fun c => Ascii.eqb c "0" || Ascii.eqb c "1")))))).

(** [static isValidPath(path)] *)
Definition isValidPath (path : string) : bool := Regex.test pathRegex path.

(** [getAccountPath(_index)]; the index is a number that holds an integer. *)
Definition getAccountPath (_index : Z) : result string :=
  let index := _index in
  let* _ := assertArgument ((0 <=? index) && (index <? HardenedBit))
              "invalid account index" "index" in
  Ok ("m/44'/60'/" +:+ JS.Number_toString index +:+ "'/0/0").

(** [getIndexedAccountPath(_index)] *)
Definition getIndexedAccountPath (_index : Z) : result string :=
  let index := _index in
  let* _ := assertArgument ((0 <=? index) && (index <? HardenedBit))
              "invalid account index" "index" in
  Ok ("m/44'/60'/0'/0/" +:+ JS.Number_toString index).

(** [qiHDAccountPath(account, change)] *)
Definition qiHDAccountPath (account : Z) (change : bool) : string :=
  "m/44'/969'/" +:+ JS.Number_toString account +:+ "'/" +:+ (if change then "1" else "0").

(** [quaiHDAccountPath(account)] *)
Definition quaiHDAccountPath (account : Z) : string :=
  "m/44'/994'/" +:+ JS.Number_toString account +:+ "'/0".

(** The paths of the pattern, spelled out. *)
Definition account_path (coin account change : string) : string :=
  "m/44'/" +:+ coin +:+ "'/" +:+ account +:+ "'/" +:+ change.

Example isValidPath_examples :
  isValidPath "m/44'/994'/0'/0" = true /\ isValidPath "m/44'/60'/12'/1" = true /\
  isValidPath "m/44'/994'/0'/0/0" = false /\ isValidPath "m/44'/994'/0'/2" = false /\
  isValidPath "m/44'/994'/0'" = false /\ isValidPath "m/44/994'/0'/0" = false /\
  isValidPath "" = false /\ isValidPath "m/44'/994'/0'/0 " = false.
Proof. repeat split. Qed.

(** [isValidPath] accepts the paths [m/44'/<coin>'/<account>'/<change>] with
    decimal numerals for the coin type and the account and 0 or 1 for the
    change level, and no other string. *)
Theorem isValidPath_spec (path : string) :
  isValidPath path = true <->
  exists coin account change,
    JS.is_decimal coin = true /\ JS.is_decimal account = true /\
    (change = "0" \/ change = "1") /\
    path = account_path coin account change.
Proof.
  unfold isValidPath, pathRegex, account_path. rewrite Regex.test_spec. split.
  - intros H.
    apply Regex.Matches_Cat_inv in H as (s0 & t0 & -> & H0 & H).
    apply Regex.Matches_Lit in H0 as ->.
    apply Regex.Matches_Cat_inv in H as (coin & t1 & -> & Hcoin & H).
    apply Regex.Matches_Cat_inv in H as (s2 & t2 & -> & H2 & H).
    apply Regex.Matches_Lit in H2 as ->.
    apply Regex.Matches_Cat_inv in H as (account & t3 & -> & Haccount & H).
    apply Regex.Matches_Cat_inv in H as (s4 & t4 & -> & H4 & H).
    apply Regex.Matches_Lit in H4 as ->.
    apply Regex.Matches_Class_inv in H as (c & -> & Hc).
    exists coin, account, (String c "").
    split; [apply Regex.Matches_digits, Hcoin|].
    split; [apply Regex.Matches_digits, Haccount|].
    split; [|reflexivity].
    apply orb_prop in Hc as [Hc|Hc]; apply Ascii.eqb_eq in Hc as ->; auto.
  - intros (coin & account & change & Hcoin & Haccount & Hchange & ->).
    constructor; [apply Regex.Matches_Lit; reflexivity|].
    constructor; [apply Regex.Matches_digits, Hcoin|].
    constructor; [apply Regex.Matches_Lit; reflexivity|].
    constructor; [apply Regex.Matches_digits, Haccount|].
    constructor; [apply Regex.Matches_Lit; reflexivity|].
    destruct Hchange as [->| ->]; constructor; reflexivity.
Qed.

Lemma decimal_no_slash (s : string) :
  JS.is_decimal s = true -> JS.contains "/" (s +:+ "'") = false.
Proof.
  intros Hs. rewrite JS.contains_append.
  rewrite (JS.all_decimal_contains "/" s); [reflexivity| |reflexivity].
  apply JS.is_decimal_all, Hs.
Qed.

(** The fields of a path [m/44'/<coin>'/<account>'/<rest>]. *)
Lemma split_account_path (coin account rest : string) :
  JS.is_decimal coin = true -> JS.is_decimal account = true ->
  JS.split "/" (account_path coin account rest)
  = "m" :: "44'" :: (coin +:+ "'") :: (account +:+ "'") :: JS.split "/" rest.
Proof.
  intros Hcoin Haccount. unfold account_path.
  change ("m/44'/" +:+ coin +:+ "'/" +:+ account +:+ "'/" +:+ rest)
    with ("m" +:+ String "/" ("44'" +:+ String "/"
            (coin +:+ "'/" +:+ account +:+ "'/" +:+ rest))).
  rewrite !JS.split_field by reflexivity. do 2 f_equal.
  replace (coin +:+ "'/" +:+ account +:+ "'/" +:+ rest)
    with ((coin +:+ "'") +:+ String "/" ((account +:+ "'") +:+ String "/" rest)).
  - rewrite !JS.split_field by (apply decimal_no_slash; assumption).
    reflexivity.
  - rewrite !JS.append_assoc. reflexivity.
Qed.



(** *** A published extended key

    The extended public key of the master node of test vector 1 of BIP-32,
    as its 82 bytes: version, depth 0, parent fingerprint and child index
    zero, chain code, public key; and the string with its last character
    changed from [8] to [9], which changes the last byte of the checksum. *)
Definition tv1_chainCode : list byte :=
  [ Byte.x87; Byte.x3d; Byte.xff; Byte.x81; Byte.xc0; Byte.x2f; Byte.x52;
    Byte.x56; Byte.x23; Byte.xfd; Byte.x1f; Byte.xe5; Byte.x16; Byte.x7e;
    Byte.xac; Byte.x3a; Byte.x55; Byte.xa0; Byte.x49; Byte.xde; Byte.x3d;
    Byte.x31; Byte.x4b; Byte.xb4; Byte.x2e; Byte.xe2; Byte.x27; Byte.xff;
    Byte.xed; Byte.x37; Byte.xd5; Byte.x08 ].

Definition tv1_publicKey : list byte :=
  [ Byte.x03; Byte.x39; Byte.xa3; Byte.x60; Byte.x13; Byte.x30; Byte.x15;
    Byte.x97; Byte.xda; Byte.xef; Byte.x41; Byte.xfb; Byte.xe5; Byte.x93;
    Byte.xa0; Byte.x2c; Byte.xc5; Byte.x13; Byte.xd0; Byte.xb5; Byte.x55;
    Byte.x27; Byte.xec; Byte.x2d; Byte.xf1; Byte.x05; Byte.x0e; Byte.x2e;
    Byte.x8f; Byte.xf4; Byte.x9c; Byte.x85; Byte.xc2 ].

Definition tv1_bytes (check : list byte) : list byte :=
  [Byte.x04; Byte.x88; Byte.xb2; Byte.x1e] ++ [Byte.x00]
  ++ [Byte.x00; Byte.x00; Byte.x00; Byte.x00]
  ++ [Byte.x00; Byte.x00; Byte.x00; Byte.x00]
  ++ tv1_chainCode ++ tv1_publicKey ++ check.

Definition tv1_xpub : string :=
  "xpub661MyMwAqRbcFtXgS5sYJABqqG9YLmC4Q1Rdap9gSE8NqtwybGhePY2gZ29ESFjqJoCu1Rupje8YtGqsefD265TMg7usUDFdp6W1EGMcet8".

Definition tv1_xpub_altered : string :=
  "xpub661MyMwAqRbcFtXgS5sYJABqqG9YLmC4Q1Rdap9gSE8NqtwybGhePY2gZ29ESFjqJoCu1Rupje8YtGqsefD265TMg7usUDFdp6W1EGMcet9".

Lemma tv1_xpub_bytes :
  tv1_xpub = encodeBase58 (tv1_bytes [Byte.xab; Byte.x47; Byte.x3b; Byte.x21]).
Proof. vm_compute. reflexivity. Qed.

Lemma tv1_xpub_altered_bytes :
  tv1_xpub_altered = encodeBase58 (tv1_bytes [Byte.xab; Byte.x47; Byte.x3b; Byte.x22]).
Proof. vm_compute. reflexivity. Qed.

Section Nodes.

(** The hash functions, the curve and the address helpers come from modules
    that are not among the sources ([crypto], [transaction], [constants],
    [utils]): they are parameters. *)
Variable sha256 : list byte -> list byte.
Variable ripemd160 : list byte -> list byte.
Variable computeHmac_sha512 : list byte -> list byte -> list byte.
Variable MasterSecret : list byte.
(** The order of the curve. *)
Variable N : Z.
(** [new SigningKey(k).publicKey] and [.compressedPublicKey]. *)
Variable SigningKey_publicKey : list byte -> result (list byte).
Variable SigningKey_compressedPublicKey : list byte -> result (list byte).
(** [SigningKey.addPoints(p0, p1, true)] *)
Variable SigningKey_addPoints : list byte -> list byte -> result (list byte).
Variable computeAddress : list byte -> result string.
Variable getShardForAddress : string -> option Shards.ShardInfo.
Variable isUTXOAddress : string -> bool.
Variable ShardData : list Shards.ShardInfo.
Variable Mnemonic : Type.

(** [encodeBase58Check(value)]: the value and the first four bytes of its
    double SHA-256, in Base58. *)
Definition encodeBase58Check (value : list byte) : string :=
  let check := take 4 (sha256 (sha256 value)) in
  encodeBase58 (value ++ check).

(** [dataSlice(ripemd160(sha256(publicKey)), 0, 4)] *)
Definition fingerprintOf (publicKey : list byte) : list byte :=
  take 4 (ripemd160 (sha256 publicKey)).

(** [new SigningKey(privateKey)]: the library takes 32 bytes. *)
Definition new_SigningKey (privateKey : list byte) : result (list byte) :=
  let* _ := assertArgument (length privateKey =? 32)%nat "invalid private key" "privateKey" in
  Ok privateKey.

(** Modelled from the spec: [ser_I] of [wallet/utils.js].  HMAC-SHA512 keyed
    by the chain code over the parent public key, or over a zero byte and
    the private key for a hardened index (which a neutered node cannot
    give), followed by the index; the left 32 bytes are the key tweak, the
    right 32 the child chain code. *)
Definition ser_I (index : Z) (chainCode publicKey : list byte)
    (privateKey : option (list byte)) : result (list byte * list byte) :=
  let* data :=
    if is_hardened index then
      match privateKey with
      | Some k => Ok (Byte.x00 :: k)
      | None => Throw (InvalidArgument "cannot derive child of neutered node" "index")
      end
    else Ok publicKey in
  let I := computeHmac_sha512 chainCode (data ++ ser_32 index) in
  Ok (take 32 I, drop 32 I).

(** The fields of a node.  [coinType] is the integer that the field of that
    name holds, and [None] when it holds none: [undefined], as the
    constructor leaves it, [NaN], an infinity or a fraction; the code
    compares the field with 994 and 969 and does nothing else with it. *)
Record HDNodeWallet : Type := mkHDNodeWallet {
  privateKey : list byte;
  address : string;
  publicKey : list byte;
  fingerprint : list byte;
  accountFingerprint : list byte;
  mnemonic : option Mnemonic;
  chainCode : list byte;
  path : option string;
  index : Z;
  depth : Z;
  coinType : option Z
}.

Record HDNodeVoidWallet : Type := mkHDNodeVoidWallet {
  void_address : string;
  void_publicKey : list byte;
  void_fingerprint : list byte;
  void_accountFingerprint : list byte;
  void_chainCode : list byte;
  void_path : option string;
  void_index : Z;
  void_depth : Z
}.

(** What [fromExtendedKey] returns. *)
Inductive HDNode : Type :=
| Full (node : HDNodeWallet)
| Neutered (node : HDNodeVoidWallet).

(** The constructor of [HDNodeWallet]: [BaseWallet] computes the address of
    the signing key, then the node keeps the compressed public key and its
    fingerprint.  (The provider a node is connected to plays no part below
    and is left out.) *)
Definition new_HDNodeWallet (signingKey accountFingerprint chainCode : list byte)
    (path : option string) (index depth : Z) (mnemonic : option Mnemonic) :
    result HDNodeWallet :=
  let* address := (let* key := SigningKey_publicKey signingKey in computeAddress key) in
  let* publicKey := SigningKey_compressedPublicKey signingKey in
  let fingerprint := fingerprintOf publicKey in
  Ok {| privateKey := signingKey; address := address; publicKey := publicKey;
        fingerprint := fingerprint; accountFingerprint := accountFingerprint;
        mnemonic := mnemonic; chainCode := chainCode; path := path;
        index := index; depth := depth; coinType := None |}.

Definition new_HDNodeVoidWallet (address : string)
    (publicKey accountFingerprint chainCode : list byte)
    (path : option string) (index depth : Z) : HDNodeVoidWallet :=
  let fingerprint := fingerprintOf publicKey in
  {| void_address := address; void_publicKey := publicKey;
     void_fingerprint := fingerprint; void_accountFingerprint := accountFingerprint;
     void_chainCode := chainCode; void_path := path;
     void_index := index; void_depth := depth |}.

Definition depth_too_deep : JsError := Fault "UNSUPPORTED_OPERATION" "Depth too deep".

(** [get extendedKey()] of [HDNodeWallet] *)
Definition extendedKey (this : HDNodeWallet) : result string :=
  if depth this <? 256 then
    let* depth := zpad (depth this) 1 in
    let* index := zpad (index this) 4 in
    Ok (encodeBase58Check
          ([Byte.x04; Byte.x88; Byte.xad; Byte.xe4] ++ depth
           ++ accountFingerprint this ++ index ++ chainCode this
           ++ (Byte.x00 :: privateKey this)))
  else Throw depth_too_deep.

(** [get extendedKey()] of [HDNodeVoidWallet] *)
Definition void_extendedKey (this : HDNodeVoidWallet) : result string :=
  if void_depth this <? 256 then
    let* depth := zpad (void_depth this) 1 in
    let* index := zpad (void_index this) 4 in
    Ok (encodeBase58Check
          ([Byte.x04; Byte.x88; Byte.xb2; Byte.x1e] ++ depth
           ++ void_accountFingerprint this ++ index
           ++ void_chainCode this ++ void_publicKey this))
  else Throw depth_too_deep.

Definition neuter (this : HDNodeWallet) : HDNodeVoidWallet :=
  new_HDNodeVoidWallet (address this) (publicKey this) (accountFingerprint this)
    (chainCode this) (Some (default "" (path this))) (index this) (depth this).

(** The path and depth of the child of a full node: a parent whose path has
    six fields gives its last field up to the child. *)
Definition child_path (this : HDNodeWallet) (index : Z) : option string * Z :=
  let newDepth := depth this + 1 in
  match path this with
  | Some path =>
      if String.eqb path "" then (Some path, newDepth)
      else
        let pathFields := JS.split "/" path in
        let '(path, newDepth) :=
          if (length pathFields =? 6)%nat
          then (JS.join "/" (removelast pathFields), newDepth - 1)
          else (path, newDepth) in
        (Some (path +:+ child_suffix index), newDepth)
  | None => (None, newDepth)
  end.

(** [deriveChild] of [HDNodeWallet] *)
Definition deriveChild (this : HDNodeWallet) (_index : Z) : result HDNodeWallet :=
  let index := _index in
  let* _ := assertArgument (index <=? 0xffffffff) "invalid index" "index" in
  let '(path, newDepth) := child_path this index in
  let* (IL, IR) := ser_I index (chainCode this) (publicKey this) (Some (privateKey this)) in
  let* key := toBeHex ((toBigInt IL + toBigInt (privateKey this)) mod N) 32 in
  let* ki := new_SigningKey key in
  let newFingerprint :=
    if depth this =? 3 then fingerprint this else accountFingerprint this in
  new_HDNodeWallet ki newFingerprint IR path index newDepth (mnemonic this).

(** [deriveChild] of [HDNodeVoidWallet] *)
Definition void_deriveChild (this : HDNodeVoidWallet) (_index : Z) :
    result HDNodeVoidWallet :=
  let index := _index in
  let* _ := assertArgument (index <=? 0xffffffff) "invalid index" "index" in
  let path :=
    if has_path (void_path this)
    then (fun p => p +:+ child_suffix index) <$> void_path this
    else void_path this in
  let* (IL, IR) := ser_I index (void_chainCode this) (void_publicKey this) None in
  let* Ki := SigningKey_addPoints IL (void_publicKey this) in
  let* address := computeAddress Ki in
  Ok (new_HDNodeVoidWallet address Ki (void_fingerprint this) IR path index
        (void_depth this + 1)).

(** [setCoinType]: [Number] of the third field of the path, its first
    apostrophe dropped.  For a path that is [null] the [?.] leaves the rest
    of the chain out, and [Number(undefined)] is [NaN].  A path of fewer
    than three fields has no third field to call [replace] on: the call is a
    [TypeError] (with the message of the engine, here that of V8), and the
    node is left as it was.  The node keeps the integer that the number is,
    if it is one. *)
Definition setCoinType (this : HDNodeWallet) : result HDNodeWallet :=
  let* coinType :=
    match path this with
    | Some path =>
        match JS.split "/" path !! 2%nat with
        | Some field => Ok (JS.number_integer (JS.Number (JS.replace "'" "" field)))
        | None =>
            Throw (TypeError "Cannot read properties of undefined (reading 'replace')")
        end
    | None => Ok None
    end in
  Ok {| privateKey := privateKey this; address := address this;
        publicKey := publicKey this; fingerprint := fingerprint this;
        accountFingerprint := accountFingerprint this; mnemonic := mnemonic this;
        chainCode := chainCode this; path := path this; index := index this;
        depth := depth this; coinType := coinType |}.

(** [static #fromSeed] *)
Definition fromSeed (seed : list byte) (mnemonic : option Mnemonic) : result HDNodeWallet :=
  let* _ := assertArgument ((16 <=? length seed)%nat && (length seed <=? 64)%nat)
              "invalid seed" "seed" in
  let I := computeHmac_sha512 MasterSecret seed in
  let* signingKey := new_SigningKey (take 32 I) in
  new_HDNodeWallet signingKey [Byte.x00; Byte.x00; Byte.x00; Byte.x00] (drop 32 I)
    (Some "m") 0 0 mnemonic.

(** [static fromExtendedKey].  The fields are read off the decoded bytes by
    position; the child index, [parseInt] of the hex digits of four bytes, is
    the number the four bytes spell. *)
Definition fromExtendedKey (extendedKey : string) : result HDNode :=
  let* value := decodeBase58 extendedKey in
  let bytes := toBeArray value in
  let* _ := assertArgument
              ((length bytes =? 82)%nat
               || String.eqb (encodeBase58Check (slice 0 78 bytes)) extendedKey)
              "invalid extended key" "extendedKey" in
  let depth := byte_to_Z (nth 4 bytes Byte.x00) in
  let accountFingerprint := slice 5 9 bytes in
  let index := toBigInt (slice 9 13 bytes) in
  let chainCode := slice 13 45 bytes in
  let key := slice 45 78 bytes in
  let prefix := hexlify (slice 0 4 bytes) in
  let invalid_prefix := Throw (InvalidArgument "invalid extended key prefix" "extendedKey") in
  if String.eqb prefix "0x0488b21e" || String.eqb prefix "0x043587cf" then
    let publicKey := key in
    let* address := computeAddress publicKey in
    Ok (Neutered (new_HDNodeVoidWallet address publicKey accountFingerprint chainCode
                    None index depth))
  else if String.eqb prefix "0x0488ade4" || String.eqb prefix "0x04358394 " then
    if negb (byte_to_Z (nth 0 key Byte.x00) =? 0) then invalid_prefix
    else
      let* signingKey := new_SigningKey (drop 1 key) in
      let* node := new_HDNodeWallet signingKey accountFingerprint chainCode
                     None index depth None in
      Ok (Full node)
  else invalid_prefix.

(** Modelled from the spec: [derivePath] of [wallet/utils.js].  The path is
    split at the slashes; a component is a decimal child index, hardened
    when an apostrophe follows it; a leading [m] stands for the root and is
    accepted on a node of depth 0 only; children are derived one component
    after the other, and any other component is an error. *)
Fixpoint without_apostrophe (s : string) : option string :=
  match s with
  | EmptyString => None
  | String c EmptyString => if Ascii.eqb c "'" then Some "" else None
  | String c s' => String c <$> without_apostrophe s'
  end.

Definition path_component (component : string) : option Z :=
  if JS.is_decimal component then JS.parseInt component
  else
    match without_apostrophe component with
    | Some digits =>
        if JS.is_decimal digits then Z.add HardenedBit <$> JS.parseInt digits else None
    | None => None
    end.

Fixpoint derive_components {T : Type} (deriveChild : T -> Z -> result T)
    (node : T) (components : list string) : result T :=
  match components with
  | [] => Ok node
  | component :: rest =>
      match path_component component with
      | Some index =>
          let* child := deriveChild node index in
          derive_components deriveChild child rest
      | None => Throw (InvalidArgument "invalid path component" "path")
      end
  end.

Definition derivePath_from {T : Type} (deriveChild : T -> Z -> result T)
    (depth : T -> Z) (node : T) (path : string) : result T :=
  match JS.split "/" path with
  | root :: rest =>
      if String.eqb root "m" then
        if depth node =? 0 then derive_components deriveChild node rest
        else Throw (InvalidArgument "invalid path" "path")
      else derive_components deriveChild node (root :: rest)
  | [] => Throw (InvalidArgument "invalid path" "path")
  end.

Definition derivePath (this : HDNodeWallet) (path : string) : result HDNodeWallet :=
  derivePath_from deriveChild depth this path.

Definition void_derivePath (this : HDNodeVoidWallet) (path : string) :
    result HDNodeVoidWallet :=
  derivePath_from void_deriveChild void_depth this path.

(** [this.coinType == c] *)
Definition coinType_is (this : HDNodeWallet) (c : Z) : bool :=
  match coinType this with
  | Some c' => c' =? c
  | None => false
  end.

(** The test of the search loop: the shard of the address is the one asked
    for, and the address is a UTXO address exactly when the node is of coin
    type 969. *)
Definition in_zone (shard : Shards.ShardInfo) (newWallet : HDNodeWallet) : bool :=
  bool_decide (getShardForAddress (address newWallet) = Some shard)
  && Bool.eqb (coinType_is newWallet 969) (isUTXOAddress (address newWallet)).

(** The [do ... while (zoneIndex > 0)] of [deriveAddress], one iteration per
    unit of fuel; [None]: the fuel ran out with the loop still running. *)
Fixpoint deriveAddress_loop (fuel : nat) (this : HDNodeWallet)
    (shard : Shards.ShardInfo) (addrIndex zoneIndex : Z) : option (result HDNodeWallet) :=
  match fuel with
  | O => None
  | S fuel' =>
      match derivePath this (JS.Number_toString addrIndex) with
      | Throw e => Some (Throw e)
      | Ok newWallet =>
          let zoneIndex := if in_zone shard newWallet then zoneIndex - 1 else zoneIndex in
          let addrIndex := addrIndex + 1 in
          if 0 <? zoneIndex
          then deriveAddress_loop fuel' this shard addrIndex zoneIndex
          else Some (Ok newWallet)
      end
  end.

(** [shard.name.toLowerCase() === zone || ...] *)
Definition names_zone (zone : string) (shard : Shards.ShardInfo) : bool :=
  String.eqb (JS.toLowerCase (Shards.sd_name shard)) zone
  || String.eqb (JS.toLowerCase (Shards.sd_nickname shard)) zone
  || String.eqb (JS.toLowerCase (Shards.sd_byte shard)) zone.

(** [deriveAddress(index, zone)]; a zone that is not given is [None]. *)
Definition deriveAddress (fuel : nat) (this : HDNodeWallet) (index : Z)
    (zone : option string) : option (result HDNodeWallet) :=
  if negb (has_path (path this)) then Some (Throw (Error "Missing Path"))
  else if negb (has_path zone) then
    if coinType_is this 994 || coinType_is this 969
    then Some (Throw (Error "No zone provided for a Quai / Qi wallet"))
    else Some (derivePath this (default "" (path this) +:+ "/" +:+ JS.Number_toString index))
  else
    let zone := JS.toLowerCase (default "" zone) in
    match List.find (names_zone zone) ShardData with
    | None => Some (Throw (Error "Invalid zone"))
    | Some shard => deriveAddress_loop fuel this shard 0 (index + 1)
    end.

(** *** Well-formed nodes

    What the constructors establish of a node whose index is not negative,
    whichever factory built it: the sizes of the fields, the range of the
    index and the depth, and the address and public key as computed from
    the key. *)
Definition wf_node (n : HDNodeWallet) : Prop :=
  length (privateKey n) = 32%nat /\
  length (accountFingerprint n) = 4%nat /\
  length (chainCode n) = 32%nat /\
  0 <= index n <= 0xffffffff /\
  0 <= depth n /\
  (let* key := SigningKey_publicKey (privateKey n) in computeAddress key) = Ok (address n) /\
  SigningKey_compressedPublicKey (privateKey n) = Ok (publicKey n) /\
  length (fingerprint n) = 4%nat.

Definition wf_void (v : HDNodeVoidWallet) : Prop :=
  length (void_publicKey v) = 33%nat /\
  length (void_accountFingerprint v) = 4%nat /\
  length (void_chainCode v) = 32%nat /\
  0 <= void_index v <= 0xffffffff /\
  0 <= void_depth v /\
  computeAddress (void_publicKey v) = Ok (void_address v) /\
  length (void_fingerprint v) = 4%nat.

(** [deriveChild] tests its index against [0xffffffff] and against nothing
    else, so a child can carry a negative index: what the constructors
    establish whatever the index asked for is the above but for the sign of
    the index. *)
Definition wf_fields (n : HDNodeWallet) : Prop :=
  length (privateKey n) = 32%nat /\
  length (accountFingerprint n) = 4%nat /\
  length (chainCode n) = 32%nat /\
  index n <= 0xffffffff /\
  0 <= depth n /\
  (let* key := SigningKey_publicKey (privateKey n) in computeAddress key) = Ok (address n) /\
  SigningKey_compressedPublicKey (privateKey n) = Ok (publicKey n) /\
  length (fingerprint n) = 4%nat.

Definition wf_void_fields (v : HDNodeVoidWallet) : Prop :=
  length (void_publicKey v) = 33%nat /\
  length (void_accountFingerprint v) = 4%nat /\
  length (void_chainCode v) = 32%nat /\
  void_index v <= 0xffffffff /\
  0 <= void_depth v /\
  computeAddress (void_publicKey v) = Ok (void_address v) /\
  length (void_fingerprint v) = 4%nat.

(** The parent has a path of six fields: that of an address,
    [m/44'/coin'/account'/change/index]. *)
Definition at_address_level (this : HDNodeWallet) : bool :=
  has_path (path this)
  && (length (JS.split "/" (default "" (path this))) =? 6)%nat.

(** *** Properties *)

Lemma new_HDNodeWallet_fields (k fp cc : list byte) (p : option string)
    (i d : Z) (m : option Mnemonic) (n : HDNodeWallet) :
  new_HDNodeWallet k fp cc p i d m = Ok n ->
  privateKey n = k /\ accountFingerprint n = fp /\ chainCode n = cc /\
  path n = p /\ index n = i /\ depth n = d /\ mnemonic n = m /\
  (let* key := SigningKey_publicKey k in computeAddress key) = Ok (address n) /\
  SigningKey_compressedPublicKey k = Ok (publicKey n) /\
  fingerprint n = fingerprintOf (publicKey n).
Proof.
  unfold new_HDNodeWallet.
  destruct (let* key := SigningKey_publicKey k in computeAddress key) as [a|e];
    [|discriminate].
  cbn [bind].
  destruct (SigningKey_compressedPublicKey k) as [pk|e]; [|discriminate].
  cbn [bind]. intros [= <-]. cbn. auto 12.
Qed.

Lemma child_path_depth (this : HDNodeWallet) (i : Z) :
  snd (child_path this i)
  = if at_address_level this then depth this else depth this + 1.
Proof.
  unfold child_path, at_address_level, has_path.
  destruct (path this) as [p|]; [|reflexivity].
  destruct (String.eqb p ""); [reflexivity|]. cbn [negb andb].
  change (default "" (Some p)) with p.
  destruct (length (JS.split "/" p) =? 6)%nat; cbn beta iota zeta delta [snd]; lia.
Qed.

Lemma deriveChild_inv (this : HDNodeWallet) (i : Z) (child : HDNodeWallet) :
  deriveChild this i = Ok child ->
  i <= 0xffffffff /\
  exists IL IR key,
    ser_I i (chainCode this) (publicKey this) (Some (privateKey this)) = Ok (IL, IR) /\
    toBeHex ((toBigInt IL + toBigInt (privateKey this)) mod N) 32 = Ok key /\
    new_HDNodeWallet key
      (if depth this =? 3 then fingerprint this else accountFingerprint this)
      IR (fst (child_path this i)) i (snd (child_path this i)) (mnemonic this)
    = Ok child.
Proof.
  unfold deriveChild, assertArgument.
  destruct (Z.leb_spec i 0xffffffff) as [Hi|]; [|discriminate]. cbn [bind].
  destruct (child_path this i) as [p d].
  destruct (ser_I i (chainCode this) (publicKey this) (Some (privateKey this)))
    as [[IL IR]|e] eqn:HI; [|discriminate].
  cbn [bind].
  destruct (toBeHex ((toBigInt IL + toBigInt (privateKey this)) mod N) 32)
    as [key|e] eqn:Hkey; [|discriminate].
  cbn [bind]. unfold new_SigningKey, assertArgument.
  destruct (toBeHex_inv _ _ _ Hkey) as (Hlen & _ & _). rewrite Hlen.
  cbn [Nat.eqb bind fst snd]. intros Hnew. split; [exact Hi|].
  exists IL, IR, key. auto.
Qed.

Lemma void_deriveChild_inv (this : HDNodeVoidWallet) (i : Z) (child : HDNodeVoidWallet) :
  void_deriveChild this i = Ok child ->
  i <= 0xffffffff /\
  exists IL IR Ki a,
    ser_I i (void_chainCode this) (void_publicKey this) None = Ok (IL, IR) /\
    SigningKey_addPoints IL (void_publicKey this) = Ok Ki /\
    computeAddress Ki = Ok a /\
    void_address child = a /\ void_publicKey child = Ki /\
    void_accountFingerprint child = void_fingerprint this /\
    void_chainCode child = IR /\ void_index child = i /\
    void_depth child = void_depth this + 1 /\
    void_fingerprint child = fingerprintOf Ki.
Proof.
  unfold void_deriveChild, assertArgument.
  destruct (Z.leb_spec i 0xffffffff) as [Hi|]; [|discriminate]. cbn [bind].
  destruct (ser_I i (void_chainCode this) (void_publicKey this) None)
    as [[IL IR]|e] eqn:HI; [|discriminate].
  cbn [bind].
  destruct (SigningKey_addPoints IL (void_publicKey this)) as [Ki|e] eqn:HKi;
    [|discriminate].
  cbn [bind]. destruct (computeAddress Ki) as [a|e] eqn:Ha; [|discriminate].
  cbn [bind]. intros [= <-]. split; [exact Hi|].
  exists IL, IR, Ki, a. cbn. repeat split; (reflexivity || assumption).
Qed.

(** C3, as the code has it.  The child of a neutered node is one level
    deeper than its parent.  So is the child of a full node, unless the
    parent's path has six fields: the child then takes the place of the
    parent's last field and stays at the parent's depth. *)
Theorem deriveChild_depth :
  (forall (this child : HDNodeWallet) (i : Z),
     deriveChild this i = Ok child ->
     depth child = if at_address_level this then depth this else depth this + 1) /\
  (forall (this child : HDNodeVoidWallet) (i : Z),
     void_deriveChild this i = Ok child ->
     void_depth child = void_depth this + 1).
Proof.
  split.
  - intros this child i Hchild.
    apply deriveChild_inv in Hchild as (_ & IL & IR & key & _ & _ & Hnew).
    apply new_HDNodeWallet_fields in Hnew as (_ & _ & _ & _ & _ & Hdepth & _).
    rewrite Hdepth. apply child_path_depth.
  - intros this child i Hchild.
    apply void_deriveChild_inv in Hchild
      as (_ & IL & IR & Ki & a & _ & _ & _ & _ & _ & _ & _ & _ & Hdepth & _).
    exact Hdepth.
Qed.

(** *** Extended keys *)

(** What [fromExtendedKey] does with the decoded bytes once they have
    passed its first check. *)
Definition fromExtendedKey_bytes (bytes : list byte) : result HDNode :=
  let depth := byte_to_Z (nth 4 bytes Byte.x00) in
  let accountFingerprint := slice 5 9 bytes in
  let index := toBigInt (slice 9 13 bytes) in
  let chainCode := slice 13 45 bytes in
  let key := slice 45 78 bytes in
  let prefix := hexlify (slice 0 4 bytes) in
  let invalid_prefix := Throw (InvalidArgument "invalid extended key prefix" "extendedKey") in
  if String.eqb prefix "0x0488b21e" || String.eqb prefix "0x043587cf" then
    let* address := computeAddress key in
    Ok (Neutered (new_HDNodeVoidWallet address key accountFingerprint chainCode
                    None index depth))
  else if String.eqb prefix "0x0488ade4" || String.eqb prefix "0x04358394 " then
    if negb (byte_to_Z (nth 0 key Byte.x00) =? 0) then invalid_prefix
    else
      let* signingKey := new_SigningKey (drop 1 key) in
      let* node := new_HDNodeWallet signingKey accountFingerprint chainCode
                     None index depth None in
      Ok (Full node)
  else invalid_prefix.

Lemma fromExtendedKey_unfold (extendedKey : string) :
  fromExtendedKey extendedKey
  = let* value := decodeBase58 extendedKey in
    let bytes := toBeArray value in
    let* _ := assertArgument
                ((length bytes =? 82)%nat
                 || String.eqb (encodeBase58Check (slice 0 78 bytes)) extendedKey)
                "invalid extended key" "extendedKey" in
    fromExtendedKey_bytes bytes.
Proof. reflexivity. Qed.

(** The check lets every string through that decodes to 82 bytes: with
    [||], the comparison with the re-encoded key is not even made. *)
Lemma fromExtendedKey_encodeBase58 (bytes : list byte) :
  head bytes <> Some Byte.x00 -> length bytes = 82%nat ->
  fromExtendedKey (encodeBase58 bytes) = fromExtendedKey_bytes bytes.
Proof.
  intros Hhd Hlen. rewrite fromExtendedKey_unfold, decodeBase58_encodeBase58.
  cbn [bind]. rewrite (toBeArray_toBigInt bytes Hhd), Hlen. reflexivity.
Qed.

Lemma fromExtendedKey_bytes_private (d fp ix cc k check : list byte) :
  length d = 1%nat -> length fp = 4%nat -> length ix = 4%nat ->
  length cc = 32%nat -> length k = 32%nat -> length check = 4%nat ->
  fromExtendedKey_bytes
    ([Byte.x04; Byte.x88; Byte.xad; Byte.xe4] ++ d ++ fp ++ ix ++ cc
     ++ (Byte.x00 :: k) ++ check)
  = let* node := new_HDNodeWallet k fp cc None (toBigInt ix)
                   (byte_to_Z (nth 0 d Byte.x00)) None in
    Ok (Full node).
Proof.
  intros Hd Hfp Hix Hcc Hk Hcheck.
  destruct (extended_key_layout [Byte.x04; Byte.x88; Byte.xad; Byte.xe4]
              d fp ix cc (Byte.x00 :: k) check) as (_ & Hv & H4 & H5 & H9 & H13 & H45 & _);
    try assumption; try reflexivity; [simpl; lia|].
  unfold fromExtendedKey_bytes. rewrite Hv, H4, H5, H9, H13, H45.
  change (hexlify [Byte.x04; Byte.x88; Byte.xad; Byte.xe4]) with "0x0488ade4".
  change (String.eqb "0x0488ade4" "0x0488b21e" || String.eqb "0x0488ade4" "0x043587cf")
    with false.
  change (String.eqb "0x0488ade4" "0x0488ade4" || String.eqb "0x0488ade4" "0x04358394 ")
    with true.
  change (nth 0 (Byte.x00 :: k) Byte.x00) with Byte.x00.
  change (drop 1 (Byte.x00 :: k)) with k.
  change (byte_to_Z Byte.x00 =? 0) with true. cbn [negb].
  unfold new_SigningKey, assertArgument. rewrite Hk. reflexivity.
Qed.

Lemma fromExtendedKey_bytes_public (d fp ix cc key check : list byte) :
  length d = 1%nat -> length fp = 4%nat -> length ix = 4%nat ->
  length cc = 32%nat -> length key = 33%nat -> length check = 4%nat ->
  fromExtendedKey_bytes
    ([Byte.x04; Byte.x88; Byte.xb2; Byte.x1e] ++ d ++ fp ++ ix ++ cc ++ key ++ check)
  = let* address := computeAddress key in
    Ok (Neutered (new_HDNodeVoidWallet address key fp cc None (toBigInt ix)
                    (byte_to_Z (nth 0 d Byte.x00)))).
Proof.
  intros Hd Hfp Hix Hcc Hkey Hcheck.
  destruct (extended_key_layout [Byte.x04; Byte.x88; Byte.xb2; Byte.x1e]
              d fp ix cc key check) as (_ & Hv & H4 & H5 & H9 & H13 & H45 & _);
    try assumption; try reflexivity.
  unfold fromExtendedKey_bytes. rewrite Hv, H4, H5, H9, H13, H45.
  change (hexlify [Byte.x04; Byte.x88; Byte.xb2; Byte.x1e]) with "0x0488b21e".
  change (String.eqb "0x0488b21e" "0x0488b21e" || String.eqb "0x0488b21e" "0x043587cf")
    with true.
  reflexivity.
Qed.

Hypothesis sha256_length : forall bs, length (sha256 bs) = 32%nat.

Lemma length_checksum (bs : list byte) : length (take 4 (sha256 (sha256 bs))) = 4%nat.
Proof. rewrite length_take, sha256_length. reflexivity. Qed.

(** C1, as the code has it.  For a node as the constructors make it, full
    or neutered, at a depth below 256 and with an index that is not
    negative, [extendedKey] returns a string that [fromExtendedKey] turns
    into a node of the same kind with the same address, chain code, depth
    and index.  For a node of negative index, which [deriveChild] makes when
    it is asked for one, [extendedKey] throws: there is no string to
    decode. *)
Theorem extendedKey_round_trip :
  (forall n : HDNodeWallet, wf_node n -> depth n < 256 ->
     exists key n',
       extendedKey n = Ok key /\ fromExtendedKey key = Ok (Full n') /\
       address n' = address n /\ chainCode n' = chainCode n /\
       depth n' = depth n /\ index n' = index n) /\
  (forall v : HDNodeVoidWallet, wf_void v -> void_depth v < 256 ->
     exists key v',
       void_extendedKey v = Ok key /\ fromExtendedKey key = Ok (Neutered v') /\
       void_address v' = void_address v /\ void_chainCode v' = void_chainCode v /\
       void_depth v' = void_depth v /\ void_index v' = void_index v) /\
  (forall n : HDNodeWallet, 0 <= depth n < 256 -> index n < 0 ->
     extendedKey n = Throw (InvalidArgument "invalid BytesLike value" "value")) /\
  (forall v : HDNodeVoidWallet, 0 <= void_depth v < 256 -> void_index v < 0 ->
     void_extendedKey v = Throw (InvalidArgument "invalid BytesLike value" "value")).
Proof.
  split; [|split; [|split]].
  3: { intros n Hdepth Hindex. unfold extendedKey.
       destruct (Z.ltb_spec (depth n) 256) as [_|]; [|lia].
       rewrite (zpad_Ok (depth n) 1) by (simpl; lia). cbn [bind].
       rewrite (zpad_negative (index n) 4 Hindex). reflexivity. }
  3: { intros v Hdepth Hindex. unfold void_extendedKey.
       destruct (Z.ltb_spec (void_depth v) 256) as [_|]; [|lia].
       rewrite (zpad_Ok (void_depth v) 1) by (simpl; lia). cbn [bind].
       rewrite (zpad_negative (void_index v) 4 Hindex). reflexivity. }
  - intros n (Hk & Hfp & Hcc & Hix & Hd & Haddr & Hpub & _) Hdepth.
    unfold extendedKey. destruct (Z.ltb_spec (depth n) 256) as [_|]; [|lia].
    rewrite (zpad_Ok (depth n) 1), (zpad_Ok (index n) 4) by (simpl; lia). cbn [bind].
    eexists.
    assert (Hnew : new_HDNodeWallet (privateKey n) (accountFingerprint n) (chainCode n)
                     None (index n) (depth n) None
                   = Ok {| privateKey := privateKey n; address := address n;
                           publicKey := publicKey n;
                           fingerprint := fingerprintOf (publicKey n);
                           accountFingerprint := accountFingerprint n;
                           mnemonic := None; chainCode := chainCode n; path := None;
                           index := index n; depth := depth n; coinType := None |}).
    { unfold new_HDNodeWallet. rewrite Haddr, Hpub. reflexivity. }
    eexists. split; [reflexivity|].
    unfold encodeBase58Check.
    rewrite fromExtendedKey_encodeBase58.
    + rewrite <- !app_assoc.
      rewrite fromExtendedKey_bytes_private;
        try (apply length_zpad; simpl; lia); try assumption;
        try apply length_checksum.
      rewrite (toBigInt_zpad (index n) 4) by lia.
      rewrite (zpad_byte (depth n)) by lia. cbn [nth].
      rewrite byte_to_of_Z by lia. rewrite Hnew. cbn [bind].
      split; [reflexivity|]. cbn. auto.
    + rewrite <- !app_assoc. discriminate.
    + rewrite !length_app, length_checksum, !length_zpad by (simpl; lia).
      cbn [length]. lia.
  - intros v (Hpk & Hfp & Hcc & Hix & Hd & Haddr & _) Hdepth.
    unfold void_extendedKey. destruct (Z.ltb_spec (void_depth v) 256) as [_|]; [|lia].
    rewrite (zpad_Ok (void_depth v) 1), (zpad_Ok (void_index v) 4) by (simpl; lia).
    cbn [bind].
    eexists. eexists. split; [reflexivity|].
    unfold encodeBase58Check.
    rewrite fromExtendedKey_encodeBase58.
    + rewrite <- !app_assoc.
      rewrite fromExtendedKey_bytes_public;
        try (apply length_zpad; simpl; lia); try assumption;
        try apply length_checksum.
      rewrite (toBigInt_zpad (void_index v) 4) by lia.
      rewrite (zpad_byte (void_depth v)) by lia. cbn [nth].
      rewrite byte_to_of_Z by lia. rewrite Haddr. cbn [bind].
      split; [reflexivity|]. cbn. auto.
    + rewrite <- !app_assoc. discriminate.
    + rewrite !length_app, length_checksum, !length_zpad by (simpl; lia).
      cbn [length]. lia.
Qed.

(** *** Neutering and deriving

    The contract of the curve: the order fits 32 bytes; the address of a key
    is that of its compressed public key; and [addPoints(IL, P)], for [P] the
    public key of [k], gives, when it gives a point, the public key of
    [(IL + k) mod N], and gives it whenever [IL] is a valid scalar of 32
    bytes.  HMAC-SHA512 gives 64 bytes. *)
Hypothesis computeHmac_length : forall key data,
  length (computeHmac_sha512 key data) = 64%nat.
Hypothesis N_range : 0 < N <= 256 ^ 32.
Hypothesis address_of_key : forall k P,
  SigningKey_compressedPublicKey k = Ok P ->
  (let* key := SigningKey_publicKey k in computeAddress key) = computeAddress P.
Hypothesis addPoints_sound : forall IL k P Q key,
  SigningKey_compressedPublicKey k = Ok P ->
  SigningKey_addPoints IL P = Ok Q ->
  toBeHex ((toBigInt IL + toBigInt k) mod N) 32 = Ok key ->
  SigningKey_compressedPublicKey key = Ok Q.
Hypothesis addPoints_complete : forall IL k P Q key,
  length IL = 32%nat -> 0 < toBigInt IL < N ->
  SigningKey_compressedPublicKey k = Ok P ->
  toBeHex ((toBigInt IL + toBigInt k) mod N) 32 = Ok key ->
  SigningKey_compressedPublicKey key = Ok Q ->
  SigningKey_addPoints IL P = Ok Q.

(** Below [2 ^ 31] the HMAC input is the public key: the private key plays
    no part. *)
Lemma ser_I_not_hardened (i : Z) (cc pk : list byte) (k : option (list byte)) :
  0 <= i < 2 ^ 31 -> ser_I i cc pk k = ser_I i cc pk None.
Proof. intros Hi. unfold ser_I. rewrite (is_hardened_low i Hi). reflexivity. Qed.

Lemma ser_I_length (i : Z) (cc pk : list byte) (k : option (list byte))
    (IL IR : list byte) :
  ser_I i cc pk k = Ok (IL, IR) -> length IL = 32%nat /\ length IR = 32%nat.
Proof.
  unfold ser_I.
  destruct (if is_hardened i then _ else _) as [data|e]; [|discriminate].
  cbn [bind]. intros [= <- <-].
  rewrite length_take, length_drop, computeHmac_length. lia.
Qed.

Lemma tweaked_key (IL k : list byte) :
  exists key, toBeHex ((toBigInt IL + toBigInt k) mod N) 32 = Ok key
              /\ length key = 32%nat.
Proof.
  destruct (toBeHex_Ok ((toBigInt IL + toBigInt k) mod N) 32) as (key & Hkey & Hlen & _).
  - pose proof (Z.mod_pos_bound (toBigInt IL + toBigInt k) N ltac:(lia)).
    change (Z.of_nat 32) with 32. lia.
  - eauto.
Qed.

(** C2. For a full node as the constructors make it and an index below
    [2 ^ 31]: when the neutered node derives the child, the full node
    derives it too, and neutering that child gives the same address; and
    when the full node derives the child and the key tweak [IL] is a valid
    scalar, the neutered node derives it too, with the same address. *)
Theorem neuter_deriveChild_address (this : HDNodeWallet) (i : Z) :
  wf_node this -> 0 <= i < 2 ^ 31 ->
  (forall v, void_deriveChild (neuter this) i = Ok v ->
     exists child, deriveChild this i = Ok child /\
                   void_address (neuter child) = void_address v) /\
  (forall child IL IR,
     deriveChild this i = Ok child ->
     ser_I i (chainCode this) (publicKey this) None = Ok (IL, IR) ->
     0 < toBigInt IL < N ->
     exists v, void_deriveChild (neuter this) i = Ok v /\
               void_address v = void_address (neuter child)).
Proof.
  intros (Hk & _ & _ & _ & _ & _ & Hpub & _) Hi. split.
  - intros v Hv.
    apply void_deriveChild_inv in Hv
      as (_ & IL & IR & Ki & a & HI & HKi & Ha & Hva & _).
    cbn [neuter new_HDNodeVoidWallet void_chainCode void_publicKey] in HI, HKi.
    destruct (tweaked_key IL (privateKey this)) as (key & Hkey & Hlen).
    pose proof (addPoints_sound _ _ _ _ _ Hpub HKi Hkey) as Hpk.
    pose proof (address_of_key _ _ Hpk) as Haddr. rewrite Ha in Haddr.
    unfold deriveChild, assertArgument.
    destruct (Z.leb_spec i 0xffffffff) as [_|]; [|lia]. cbn [bind].
    destruct (child_path this i) as [p d].
    rewrite (ser_I_not_hardened i _ _ _ Hi), HI. cbn [bind].
    rewrite Hkey. cbn [bind]. unfold new_SigningKey, assertArgument.
    rewrite Hlen. cbn [Nat.eqb bind].
    unfold new_HDNodeWallet. rewrite Haddr, Hpk. cbn [bind].
    eexists. split; [reflexivity|]. cbn. congruence.
  - intros child IL IR Hchild HI HIL.
    apply deriveChild_inv in Hchild as (_ & IL' & IR' & key & HI' & Hkey & Hnew).
    rewrite (ser_I_not_hardened i _ _ _ Hi), HI in HI'. injection HI' as <- <-.
    apply new_HDNodeWallet_fields in Hnew
      as (_ & _ & _ & _ & _ & _ & _ & Haddr & Hpk & _).
    destruct (ser_I_length _ _ _ _ _ _ HI) as [HlenIL _].
    pose proof (addPoints_complete _ _ _ _ _ HlenIL HIL Hpub Hkey Hpk) as HKi.
    rewrite (address_of_key _ _ Hpk) in Haddr.
    unfold void_deriveChild, assertArgument.
    destruct (Z.leb_spec i 0xffffffff) as [_|]; [|lia]. cbn [bind].
    cbn [neuter new_HDNodeVoidWallet void_chainCode void_publicKey void_path].
    rewrite HI. cbn [bind]. rewrite HKi. cbn [bind]. rewrite Haddr. cbn [bind].
    eexists. split; reflexivity.
Qed.

(** *** The zone-aware address search *)

Lemma bind_Ok {A : Type} (r : result A) : (let* x := r in Ok x) = r.
Proof. destruct r; reflexivity. Qed.

(** On the decimal numeral of an index, [derivePath] is [deriveChild]. *)
Lemma derivePath_Number_toString (this : HDNodeWallet) (i : Z) :
  0 <= i -> derivePath this (JS.Number_toString i) = deriveChild this i.
Proof.
  intros Hi. unfold derivePath, derivePath_from.
  pose proof (JS.is_decimal_Number_toString i Hi) as Hdec.
  rewrite (JS.split_decimal _ Hdec), (JS.decimal_not_m _ Hdec).
  cbn [derive_components]. unfold path_component.
  rewrite Hdec, (JS.parseInt_Number_toString i Hi). apply bind_Ok.
Qed.

(** Every iteration derives the child of the next index, and [deriveChild]
    rejects an index above [0xffffffff]: the loop ends at that index at the
    latest. *)
Lemma deriveAddress_loop_ends (this : HDNodeWallet) (shard : Shards.ShardInfo)
    (fuel : nat) (addrIndex zoneIndex : Z) :
  0 <= addrIndex -> (1 <= fuel)%nat -> 2 ^ 32 + 1 - addrIndex <= Z.of_nat fuel ->
  exists r, deriveAddress_loop fuel this shard addrIndex zoneIndex = Some r.
Proof.
  revert addrIndex zoneIndex.
  induction fuel as [|fuel IH]; intros addrIndex zoneIndex Ha Hfuel Hmeasure; [lia|].
  cbn [deriveAddress_loop]. rewrite (derivePath_Number_toString this addrIndex Ha).
  destruct (deriveChild this addrIndex) as [newWallet|e] eqn:Hchild; [|eauto].
  apply deriveChild_inv in Hchild as (Hmax & _).
  destruct (0 <? _); [|eauto].
  apply IH; lia.
Qed.

Lemma deriveAddress_loop_fuel (this : HDNodeWallet) (shard : Shards.ShardInfo)
    (fuel fuel' : nat) (addrIndex zoneIndex : Z) (r : result HDNodeWallet) :
  deriveAddress_loop fuel this shard addrIndex zoneIndex = Some r ->
  (fuel <= fuel')%nat ->
  deriveAddress_loop fuel' this shard addrIndex zoneIndex = Some r.
Proof.
  revert fuel' addrIndex zoneIndex.
  induction fuel as [|fuel IH]; intros fuel' addrIndex zoneIndex Hrun Hle;
    [discriminate|].
  destruct fuel' as [|fuel']; [lia|].
  cbn [deriveAddress_loop] in *.
  destruct (derivePath this (JS.Number_toString addrIndex)) as [newWallet|e];
    [|exact Hrun].
  destruct (0 <? _); [|exact Hrun].
  apply IH; [exact Hrun|lia].
Qed.

(** When no derived address is in the zone the count never goes down, and
    the loop can only end by an error. *)
Lemma deriveAddress_loop_no_match (this : HDNodeWallet) (shard : Shards.ShardInfo)
    (fuel : nat) (addrIndex zoneIndex : Z) (r : result HDNodeWallet) :
  (forall j w, derivePath this (JS.Number_toString j) = Ok w -> in_zone shard w = false) ->
  0 < zoneIndex ->
  deriveAddress_loop fuel this shard addrIndex zoneIndex = Some r ->
  exists e, r = Throw e.
Proof.
  intros Hnone Hzone. revert addrIndex.
  induction fuel as [|fuel IH]; intros addrIndex; [discriminate|].
  cbn [deriveAddress_loop].
  destruct (derivePath this (JS.Number_toString addrIndex)) as [newWallet|e] eqn:Hpath.
  - rewrite (Hnone _ _ Hpath). destruct (Z.ltb_spec 0 zoneIndex); [|lia]. apply IH.
  - intros [= <-]. eauto.
Qed.

(** The body of the loop runs once when the count it starts with is not
    positive, and what it has derived is the result, in the zone or not. *)
Lemma deriveAddress_loop_once (this : HDNodeWallet) (shard : Shards.ShardInfo)
    (fuel : nat) (addrIndex zoneIndex : Z) :
  zoneIndex <= 0 ->
  deriveAddress_loop (S fuel) this shard addrIndex zoneIndex
  = Some (derivePath this (JS.Number_toString addrIndex)).
Proof using Type.
  intros Hz. cbn [deriveAddress_loop].
  destruct (derivePath this (JS.Number_toString addrIndex)) as [newWallet|e];
    [|reflexivity].
  destruct (in_zone shard newWallet).
  - destruct (Z.ltb_spec 0 (zoneIndex - 1)); [lia|reflexivity].
  - destruct (Z.ltb_spec 0 zoneIndex); [lia|reflexivity].
Qed.

(** C7, as the code has it.  [deriveAddress] ends on every input: some
    number of iterations, no more than [2 ^ 32 + 1], gives its result, and
    more fuel gives the same.  The bound is the space of child indices,
    which [deriveChild] guards; the search has no other.  When the search is
    entered for an index that is not negative and no derived address is in
    the zone asked for, the result is an error.  When it is entered for a
    negative index, the result is what the derivation of the address of
    index 0 gives, a node or an error, whether that address is in the zone
    or not. *)
Theorem deriveAddress_terminates (this : HDNodeWallet) (index : Z) (zone : option string) :
  exists fuel r,
    Z.of_nat fuel <= 2 ^ 32 + 1 /\
    deriveAddress fuel this index zone = Some r /\
    (forall fuel', (fuel <= fuel')%nat -> deriveAddress fuel' this index zone = Some r) /\
    (forall shard,
       has_path (path this) = true -> has_path zone = true ->
       List.find (names_zone (JS.toLowerCase (default "" zone))) ShardData = Some shard ->
       (0 <= index ->
        (forall j w, derivePath this (JS.Number_toString j) = Ok w ->
                     in_zone shard w = false) ->
        exists e, r = Throw e) /\
       (index < 0 -> r = derivePath this (JS.Number_toString 0))).
Proof.
  unfold deriveAddress.
  destruct (has_path (path this)) eqn:Hpath; cbn [negb].
  2: { exists 1%nat. eexists. split; [lia|]. split; [reflexivity|].
       split; [reflexivity|]. discriminate. }
  destruct (has_path zone) eqn:Hzone; cbn [negb].
  2: { exists 1%nat.
       destruct (coinType_is this 994 || coinType_is this 969);
         eexists; (split; [lia|]; split; [reflexivity|]; split; [reflexivity|]);
         discriminate. }
  destruct (List.find (names_zone (JS.toLowerCase (default "" zone))) ShardData)
    as [shard|] eqn:Hfind.
  2: { exists 1%nat. eexists. split; [lia|]. split; [reflexivity|].
       split; [reflexivity|]. discriminate. }
  destruct (deriveAddress_loop_ends this shard (Z.to_nat (2 ^ 32 + 1)) 0 (index + 1))
    as [r Hr]; [lia|lia|lia|].
  exists (Z.to_nat (2 ^ 32 + 1)), r.
  split; [lia|]. split; [exact Hr|]. split.
  - intros fuel' Hle. apply (deriveAddress_loop_fuel _ _ _ _ _ _ _ Hr Hle).
  - intros shard' _ _ [= <-]. split.
    + intros Hindex Hnone.
      assert (Hcount : 0 < index + 1) by lia.
      apply (deriveAddress_loop_no_match _ _ _ _ _ _ Hnone Hcount Hr).
    + intros Hindex.
      assert (Hcount : index + 1 <= 0) by lia.
      pose proof (deriveAddress_loop_once this shard 0 0 (index + 1) Hcount) as Honce.
      apply (deriveAddress_loop_fuel _ _ _ (Z.to_nat (2 ^ 32 + 1))) in Honce; [|lia].
      congruence.
Qed.

(** *** What [fromExtendedKey] rejects *)

(** The case [0x04358394 ] of the [switch] ends in a space, which [hexlify]
    never gives: no key takes it. *)
Lemma testnet_private_case_dead (bs : list byte) :
  String.eqb (hexlify bs) "0x04358394 " = false.
Proof. apply hexlify_odd_length. exists 5%nat. reflexivity. Qed.

(** The first check passes on 82 bytes, and otherwise only on no bytes at
    all (should the checksum of the empty string be four zero bytes). *)
Lemma fromExtendedKey_check (key : string) (value : Z) :
  decodeBase58 key = Ok value ->
  (length (toBeArray value) =? 82)%nat
  || String.eqb (encodeBase58Check (slice 0 78 (toBeArray value))) key = true ->
  length (toBeArray value) = 82%nat \/ toBeArray value = [].
Proof.
  intros Hdecode Hcheck. apply orb_true_iff in Hcheck as [Hlen|Hsame].
  - left. apply Nat.eqb_eq, Hlen.
  - apply String.eqb_eq in Hsame. unfold encodeBase58Check in Hsame.
    set (bytes := toBeArray value) in *.
    set (payload := slice 0 78 bytes) in *.
    set (check := take 4 (sha256 (sha256 payload))) in *.
    assert (Hvalue : value = toBigInt (payload ++ check)).
    { rewrite <- Hsame, decodeBase58_encodeBase58 in Hdecode. congruence. }
    destruct bytes as [|b rest] eqn:Hbytes; [right; reflexivity|left].
    assert (Hb : b <> Byte.x00).
    { pose proof (toBeArray_head value) as Hhd. fold bytes in Hhd.
      rewrite Hbytes in Hhd. intros ->. apply Hhd; [|reflexivity].
      rewrite Hvalue. apply toBigInt_range. }
    assert (Hround : b :: rest = payload ++ check).
    { rewrite <- Hbytes. unfold bytes. rewrite Hvalue at 1.
      apply toBeArray_toBigInt. subst payload. cbn. congruence. }
    assert (Hpayload : length payload = Nat.min 78 (length (b :: rest))).
    { subst payload. unfold slice. rewrite drop_0, length_take. reflexivity. }
    assert (Hlen : length (b :: rest) = (length payload + 4)%nat).
    { rewrite Hround at 1. rewrite length_app. subst check.
      rewrite length_checksum. reflexivity. }
    lia.
Qed.

(** A string that decodes to anything but 82 bytes is rejected, and so is
    one whose first four bytes are none of the three prefixes that the
    [switch] can take; both with an argument error. *)
Lemma fromExtendedKey_rejects (key : string) (value : Z) :
  decodeBase58 key = Ok value ->
  let bytes := toBeArray value in
  let prefix := hexlify (slice 0 4 bytes) in
  length bytes <> 82%nat \/
  (prefix <> "0x0488b21e" /\ prefix <> "0x043587cf" /\ prefix <> "0x0488ade4") ->
  exists message, fromExtendedKey key = Throw (InvalidArgument message "extendedKey").
Proof.
  intros Hdecode bytes prefix Hbad.
  rewrite fromExtendedKey_unfold, Hdecode. cbn [bind]. fold bytes.
  unfold assertArgument.
  destruct ((length bytes =? 82)%nat
            || String.eqb (encodeBase58Check (slice 0 78 bytes)) key) eqn:Hcheck;
    [|eauto].
  cbn [bind].
  assert (Hprefix : (prefix <> "0x0488b21e" /\ prefix <> "0x043587cf"
                     /\ prefix <> "0x0488ade4") ->
                    exists message,
                      fromExtendedKey_bytes bytes
                      = Throw (InvalidArgument message "extendedKey")).
  { intros (Hpub & Htest & Hpriv). unfold fromExtendedKey_bytes. fold prefix.
    apply String.eqb_neq in Hpub, Htest, Hpriv. rewrite Hpub, Htest, Hpriv.
    unfold prefix. rewrite testnet_private_case_dead. cbn [orb]. eauto. }
  destruct Hbad as [Hlen|Hbad]; [|exact (Hprefix Hbad)].
  destruct (fromExtendedKey_check key value Hdecode Hcheck) as [H82|Hnil].
  - contradiction.
  - apply Hprefix. unfold prefix, bytes. rewrite Hnil.
    repeat split; discriminate.
Qed.

(** The last four bytes play no part in what [fromExtendedKey] returns. *)
Lemma slice_app_le (a b : list byte) (start stop : nat) :
  (stop <= length a)%nat -> slice start stop (a ++ b) = slice start stop a.
Proof.
  intros Hstop. unfold slice.
  destruct (Nat.le_gt_cases start (length a)) as [Hle|Hgt].
  - rewrite drop_app_le by exact Hle. apply take_app_le.
    rewrite length_drop. lia.
  - replace (stop - start)%nat with 0%nat by lia. reflexivity.
Qed.

Lemma fromExtendedKey_bytes_payload (payload check : list byte) :
  length payload = 78%nat ->
  fromExtendedKey_bytes (payload ++ check) = fromExtendedKey_bytes payload.
Proof.
  intros Hlen. unfold fromExtendedKey_bytes.
  rewrite !slice_app_le by lia. rewrite app_nth1 by lia. reflexivity.
Qed.

Theorem fromExtendedKey_ignores_checksum (payload check check' : list byte) :
  length payload = 78%nat -> length check = 4%nat -> length check' = 4%nat ->
  head payload <> Some Byte.x00 ->
  fromExtendedKey (encodeBase58 (payload ++ check))
  = fromExtendedKey (encodeBase58 (payload ++ check')).
Proof.
  intros Hpayload Hcheck Hcheck' Hhd.
  rewrite !fromExtendedKey_encodeBase58;
    try (rewrite length_app; lia);
    try (destruct payload; [discriminate|exact Hhd]).
  rewrite !fromExtendedKey_bytes_payload by exact Hpayload. reflexivity.
Qed.

(** C4 fails on the code.  The two strings differ in the checksum they
    carry, so at most one of them carries the right one; [fromExtendedKey]
    accepts both alike and builds the same neutered node from them
    (whenever [computeAddress] accepts the public key, as it does for this
    one). *)
Theorem fromExtendedKey_accepts_wrong_checksum :
  (let* value := decodeBase58 tv1_xpub in Ok (slice 78 82 (toBeArray value)))
    = Ok [Byte.xab; Byte.x47; Byte.x3b; Byte.x21] /\
  (let* value := decodeBase58 tv1_xpub_altered in Ok (slice 78 82 (toBeArray value)))
    = Ok [Byte.xab; Byte.x47; Byte.x3b; Byte.x22] /\
  fromExtendedKey tv1_xpub_altered = fromExtendedKey tv1_xpub /\
  fromExtendedKey tv1_xpub_altered
    = let* address := computeAddress tv1_publicKey in
      Ok (Neutered (new_HDNodeVoidWallet address tv1_publicKey
                      [Byte.x00; Byte.x00; Byte.x00; Byte.x00] tv1_chainCode None 0 0)).
Proof.
  split; [vm_compute; reflexivity|]. split; [vm_compute; reflexivity|].
  rewrite tv1_xpub_bytes, tv1_xpub_altered_bytes.
  rewrite !fromExtendedKey_encodeBase58 by (discriminate || reflexivity).
  unfold tv1_bytes.
  rewrite !fromExtendedKey_bytes_public by reflexivity.
  split; reflexivity.
Qed.

(** *** The nodes the factories build

    With the sizes of what the library returns (RIPEMD-160 gives 20 bytes, a
    compressed public key has 33), every node that [fromSeed],
    [deriveChild], [neuter], [fromExtendedKey] and [setCoinType] build has
    the fields of a well-formed node, and is well formed when its index is
    not negative. *)
Hypothesis ripemd160_length : forall bs, length (ripemd160 bs) = 20%nat.
Hypothesis compressedPublicKey_length : forall k P,
  SigningKey_compressedPublicKey k = Ok P -> length P = 33%nat.
Hypothesis addPoints_length : forall p0 p1 Q,
  SigningKey_addPoints p0 p1 = Ok Q -> length Q = 33%nat.

Lemma length_fingerprintOf (pk : list byte) : length (fingerprintOf pk) = 4%nat.
Proof. unfold fingerprintOf. rewrite length_take, ripemd160_length. reflexivity. Qed.

Lemma new_HDNodeWallet_wf (k fp cc : list byte) (p : option string) (i d : Z)
    (m : option Mnemonic) (n : HDNodeWallet) :
  new_HDNodeWallet k fp cc p i d m = Ok n ->
  length k = 32%nat -> length fp = 4%nat -> length cc = 32%nat ->
  0 <= i <= 0xffffffff -> 0 <= d -> wf_node n.
Proof.
  intros Hnew Hk Hfp Hcc Hi Hd.
  apply new_HDNodeWallet_fields in Hnew
    as (Hk' & Hfp' & Hcc' & _ & Hi' & Hd' & _ & Haddr & Hpub & Hfinger).
  unfold wf_node.
  rewrite Hk', Hfp', Hcc', Hi', Hd', Hfinger, length_fingerprintOf. auto 10.
Qed.

Lemma fromSeed_wf (seed : list byte) (m : option Mnemonic) (n : HDNodeWallet) :
  fromSeed seed m = Ok n -> wf_node n.
Proof.
  unfold fromSeed, assertArgument.
  destruct ((16 <=? length seed)%nat && (length seed <=? 64)%nat); [|discriminate].
  cbn [bind]. unfold new_SigningKey, assertArgument.
  rewrite length_take, computeHmac_length. cbn [Nat.min Nat.eqb bind].
  intros Hnew. apply (new_HDNodeWallet_wf _ _ _ _ _ _ _ _ Hnew); try reflexivity; try lia.
  - rewrite length_take, computeHmac_length. reflexivity.
  - rewrite length_drop, computeHmac_length. reflexivity.
Qed.

Lemma deriveChild_wf (this child : HDNodeWallet) (i : Z) :
  wf_node this -> 0 <= i -> deriveChild this i = Ok child -> wf_node child.
Proof.
  intros (_ & Hfp & _ & _ & Hd & _ & _ & Hfinger) Hi Hchild.
  apply deriveChild_inv in Hchild as (Hmax & IL & IR & key & HI & Hkey & Hnew).
  apply toBeHex_inv in Hkey as (Hlen & _).
  apply ser_I_length in HI as (_ & HIR).
  apply (new_HDNodeWallet_wf _ _ _ _ _ _ _ _ Hnew); try assumption; try lia.
  - destruct (depth this =? 3); assumption.
  - rewrite child_path_depth. destruct (at_address_level this); lia.
Qed.

Lemma neuter_wf (this : HDNodeWallet) : wf_node this -> wf_void (neuter this).
Proof.
  intros (_ & Hfp & Hcc & Hix & Hd & Haddr & Hpub & _).
  unfold wf_void, neuter, new_HDNodeVoidWallet. cbn.
  rewrite length_fingerprintOf, (compressedPublicKey_length _ _ Hpub).
  rewrite <- (address_of_key _ _ Hpub). auto 10.
Qed.

Lemma void_deriveChild_wf (this child : HDNodeVoidWallet) (i : Z) :
  wf_void this -> 0 <= i -> void_deriveChild this i = Ok child -> wf_void child.
Proof.
  intros (_ & _ & _ & _ & Hd & _ & Hfinger) Hi Hchild.
  apply void_deriveChild_inv in Hchild
    as (Hmax & IL & IR & Ki & a & HI & HKi & Ha & HaC & HpkC & HfpC & HccC & HixC
        & HdC & HfC).
  apply ser_I_length in HI as (_ & HIR).
  unfold wf_void. rewrite HaC, HpkC, HfpC, HccC, HixC, HdC, HfC.
  rewrite (addPoints_length _ _ _ HKi), length_fingerprintOf.
  repeat split; try assumption; lia.
Qed.

Lemma setCoinType_fields (this n : HDNodeWallet) :
  setCoinType this = Ok n ->
  privateKey n = privateKey this /\ address n = address this /\
  publicKey n = publicKey this /\ fingerprint n = fingerprint this /\
  accountFingerprint n = accountFingerprint this /\ mnemonic n = mnemonic this /\
  chainCode n = chainCode this /\ path n = path this /\ index n = index this /\
  depth n = depth this.
Proof using Type.
  unfold setCoinType.
  destruct (match path this with Some _ => _ | None => _ end) as [c|e]; [|discriminate].
  cbn [bind]. intros [= <-]. cbn. auto 12.
Qed.

Lemma setCoinType_wf (this n : HDNodeWallet) :
  setCoinType this = Ok n -> wf_fields this -> wf_fields n.
Proof using Type.
  intros Hset. apply setCoinType_fields in Hset
    as (Hk & Ha & Hp & Hf & Hfp & _ & Hcc & _ & Hi & Hd).
  unfold wf_fields. rewrite Hk, Ha, Hp, Hf, Hfp, Hcc, Hi, Hd. trivial.
Qed.

Lemma fromExtendedKey_wf (key : string) :
  match fromExtendedKey key with
  | Ok (Full n) => wf_node n
  | Ok (Neutered v) => wf_void v
  | Throw _ => True
  end.
Proof.
  rewrite fromExtendedKey_unfold.
  destruct (decodeBase58 key) as [value|e] eqn:Hdecode; [|exact I].
  cbn [bind]. unfold assertArgument.
  destruct ((length (toBeArray value) =? 82)%nat || String.eqb _ key) eqn:Hcheck;
    [|exact I].
  cbn [bind].
  destruct (fromExtendedKey_check key value Hdecode Hcheck) as [H82|Hnil];
    [|rewrite Hnil; exact I].
  set (bytes := toBeArray value) in *. unfold fromExtendedKey_bytes.
  pose proof (toBigInt_range (slice 9 13 bytes)) as Hix.
  rewrite (length_slice 9 13) in Hix by lia.
  pose proof (byte_to_Z_range (nth 4 bytes Byte.x00)) as Hd.
  destruct (String.eqb _ "0x0488b21e" || String.eqb _ "0x043587cf").
  - destruct (computeAddress (slice 45 78 bytes)) as [a|e] eqn:Ha; [|exact I].
    cbn [bind]. unfold wf_void, new_HDNodeVoidWallet.
    cbn [void_address void_publicKey void_fingerprint void_accountFingerprint
         void_chainCode void_index void_depth].
    rewrite length_fingerprintOf, !length_slice by lia.
    change (Z.of_nat (13 - 9)) with 4 in Hix. repeat split; try assumption; lia.
  - destruct (String.eqb _ "0x0488ade4" || String.eqb _ "0x04358394 "); [|exact I].
    destruct (negb _); [exact I|].
    unfold new_SigningKey, assertArgument.
    destruct (length (drop 1 (slice 45 78 bytes)) =? 32)%nat eqn:Hk; [|exact I].
    cbn [bind]. apply Nat.eqb_eq in Hk.
    destruct (new_HDNodeWallet _ _ _ _ _ _ _) as [n|e] eqn:Hnew; [|exact I].
    cbn [bind].
    apply (new_HDNodeWallet_wf _ _ _ _ _ _ _ _ Hnew); try assumption;
      try (apply length_slice; lia).
    + change (Z.of_nat (13 - 9)) with 4 in Hix. lia.
    + lia.
Qed.

(** The same for an index of either sign. *)
Lemma wf_node_fields (n : HDNodeWallet) : wf_node n <-> wf_fields n /\ 0 <= index n.
Proof using Type.
  unfold wf_node, wf_fields. split.
  - intros (H1 & H2 & H3 & (H4 & H5) & H6 & H7 & H8 & H9). repeat split; assumption.
  - intros ((H1 & H2 & H3 & H4 & H5 & H6 & H7 & H8) & H9). repeat split; assumption.
Qed.

Lemma wf_void_node_fields (v : HDNodeVoidWallet) :
  wf_void v <-> wf_void_fields v /\ 0 <= void_index v.
Proof using Type.
  unfold wf_void, wf_void_fields. split.
  - intros (H1 & H2 & H3 & (H4 & H5) & H6 & H7 & H8). repeat split; assumption.
  - intros ((H1 & H2 & H3 & H4 & H5 & H6 & H7) & H8). repeat split; assumption.
Qed.

Lemma new_HDNodeWallet_wf_fields (k fp cc : list byte) (p : option string) (i d : Z)
    (m : option Mnemonic) (n : HDNodeWallet) :
  new_HDNodeWallet k fp cc p i d m = Ok n ->
  length k = 32%nat -> length fp = 4%nat -> length cc = 32%nat ->
  i <= 0xffffffff -> 0 <= d -> wf_fields n.
Proof using ripemd160_length.
  intros Hnew Hk Hfp Hcc Hi Hd.
  apply new_HDNodeWallet_fields in Hnew
    as (Hk' & Hfp' & Hcc' & _ & Hi' & Hd' & _ & Haddr & Hpub & Hfinger).
  unfold wf_fields.
  rewrite Hk', Hfp', Hcc', Hi', Hd', Hfinger, length_fingerprintOf. auto 10.
Qed.

Lemma deriveChild_wf_fields (this child : HDNodeWallet) (i : Z) :
  wf_fields this -> deriveChild this i = Ok child -> wf_fields child.
Proof using computeHmac_length ripemd160_length.
  intros (_ & Hfp & _ & _ & Hd & _ & _ & Hfinger) Hchild.
  apply deriveChild_inv in Hchild as (Hmax & IL & IR & key & HI & Hkey & Hnew).
  apply toBeHex_inv in Hkey as (Hlen & _).
  apply ser_I_length in HI as (_ & HIR).
  apply (new_HDNodeWallet_wf_fields _ _ _ _ _ _ _ _ Hnew); try assumption.
  - destruct (depth this =? 3); assumption.
  - rewrite child_path_depth. destruct (at_address_level this).
    + exact Hd.
    + apply Z.add_nonneg_nonneg; [exact Hd|discriminate].
Qed.

Lemma neuter_wf_fields (this : HDNodeWallet) : wf_fields this -> wf_void_fields (neuter this).
Proof using ripemd160_length compressedPublicKey_length address_of_key.
  intros (_ & Hfp & Hcc & Hix & Hd & Haddr & Hpub & _).
  unfold wf_void_fields, neuter, new_HDNodeVoidWallet. cbn.
  rewrite length_fingerprintOf, (compressedPublicKey_length _ _ Hpub).
  rewrite <- (address_of_key _ _ Hpub). auto 10.
Qed.

Lemma void_deriveChild_wf_fields (this child : HDNodeVoidWallet) (i : Z) :
  wf_void_fields this -> void_deriveChild this i = Ok child -> wf_void_fields child.
Proof using computeHmac_length ripemd160_length addPoints_length.
  intros (_ & _ & _ & _ & Hd & _ & Hfinger) Hchild.
  apply void_deriveChild_inv in Hchild
    as (Hmax & IL & IR & Ki & a & HI & HKi & Ha & HaC & HpkC & HfpC & HccC & HixC
        & HdC & HfC).
  apply ser_I_length in HI as (_ & HIR).
  unfold wf_void_fields. rewrite HaC, HpkC, HfpC, HccC, HixC, HdC, HfC.
  rewrite (addPoints_length _ _ _ HKi), length_fingerprintOf.
  repeat split; try assumption.
  apply Z.add_nonneg_nonneg; [exact Hd|discriminate].
Qed.

(** The nodes that can be built: by the factories, and by [deriveChild] for
    whatever index it accepts. *)
Inductive built : HDNodeWallet -> Prop :=
| built_fromSeed seed m n : fromSeed seed m = Ok n -> built n
| built_deriveChild this i child :
    built this -> deriveChild this i = Ok child -> built child
| built_fromExtendedKey key n : fromExtendedKey key = Ok (Full n) -> built n
| built_setCoinType this n : built this -> setCoinType this = Ok n -> built n.

Inductive built_void : HDNodeVoidWallet -> Prop :=
| built_neuter this : built this -> built_void (neuter this)
| built_void_deriveChild this i child :
    built_void this -> void_deriveChild this i = Ok child -> built_void child
| built_void_fromExtendedKey key v :
    fromExtendedKey key = Ok (Neutered v) -> built_void v.

(** Every node that is built has the fields of a well-formed node, and is
    one when its index is not negative. *)
Theorem built_wf (n : HDNodeWallet) :
  built n -> wf_fields n /\ (0 <= index n -> wf_node n).
Proof.
  intros Hn.
  assert (Hfields : wf_fields n).
  { induction Hn as [seed m n Hseed|this i child _ IH Hchild|key n Hkey
                    |this n _ IH Hset].
    - exact (proj1 (proj1 (wf_node_fields _) (fromSeed_wf _ _ _ Hseed))).
    - exact (deriveChild_wf_fields _ _ _ IH Hchild).
    - pose proof (fromExtendedKey_wf key) as Hwf. rewrite Hkey in Hwf.
      exact (proj1 (proj1 (wf_node_fields _) Hwf)).
    - exact (setCoinType_wf _ _ Hset IH). }
  split; [exact Hfields|]. intros Hindex. apply wf_node_fields. auto.
Qed.

Theorem built_void_wf (v : HDNodeVoidWallet) :
  built_void v -> wf_void_fields v /\ (0 <= void_index v -> wf_void v).
Proof.
  intros Hv.
  assert (Hfields : wf_void_fields v).
  { induction Hv as [this Hthis|this i child _ IH Hchild|key v Hkey].
    - exact (neuter_wf_fields _ (proj1 (built_wf _ Hthis))).
    - exact (void_deriveChild_wf_fields _ _ _ IH Hchild).
    - pose proof (fromExtendedKey_wf key) as Hwf. rewrite Hkey in Hwf.
      exact (proj1 (proj1 (wf_void_node_fields _) Hwf)). }
  split; [exact Hfields|]. intros Hindex. apply wf_void_node_fields. auto.
Qed.

(** *** The index and the path of a child *)

Lemma child_path_fst (this : HDNodeWallet) (i : Z) :
  fst (child_path this i)
  = match path this with
    | Some p => if String.eqb p "" then Some p
                else Some (base_path p +:+ String "/" (child_field i))
    | None => None
    end.
Proof using Type.
  unfold child_path, base_path. destruct (path this) as [p|]; [|reflexivity].
  destruct (String.eqb p ""); [reflexivity|].
  rewrite child_suffix_field.
  destruct (length (JS.split "/" p) =? 6)%nat; reflexivity.
Qed.

(** The index and the path of a child: the index is the one asked for, and
    the path is the parent's, less its last field when it has six, followed
    by [/k] for the index [k] below [2 ^ 31] and by [/k'] for the index
    [2 ^ 31 + k]. *)
Theorem deriveChild_index_path (this child : HDNodeWallet) (i : Z) :
  0 <= i -> deriveChild this i = Ok child ->
  i <= 0xffffffff /\ index child = i /\
  path child
  = match path this with
    | Some p =>
        if String.eqb p "" then Some p
        else Some (base_path p +:+ "/" +:+ JS.Number_toString (i mod 2 ^ 31)
                   +:+ (if 2 ^ 31 <=? i then "'" else ""))
    | None => None
    end.
Proof using Type.
  intros Hi Hchild.
  apply deriveChild_inv in Hchild as (Hmax & IL & IR & key & _ & _ & Hnew).
  apply new_HDNodeWallet_fields in Hnew as (_ & _ & _ & Hpath & Hindex & _).
  split; [exact Hmax|]. split; [exact Hindex|].
  rewrite Hpath, child_path_fst. unfold child_field.
  rewrite (Z.mod_small i (2 ^ 32)) by lia. reflexivity.
Qed.

(** *** The nodes of a seed *)

(** A node derived from a seed: the root [fromSeed] makes, and the children
    [deriveChild] makes of such nodes, for whatever index it accepts. *)
Inductive derived : HDNodeWallet -> Prop :=
| derived_fromSeed seed m n : fromSeed seed m = Ok n -> derived n
| derived_deriveChild this i child :
    derived this -> deriveChild this i = Ok child -> derived child.

(** The path of such a node starts at [m] and has one field more than the
    node is deep, six at most. *)
Definition path_of_depth (n : HDNodeWallet) : Prop :=
  exists p, path n = Some p /\ p <> "" /\
            head (JS.split "/" p) = Some "m" /\
            Z.of_nat (length (JS.split "/" p)) = depth n + 1 /\
            0 <= depth n <= 5.

Lemma path_of_depth_root (seed : list byte) (m : option Mnemonic) (n : HDNodeWallet) :
  fromSeed seed m = Ok n -> path_of_depth n.
Proof using Type.
  unfold fromSeed. destruct (assertArgument _ _ _); [|discriminate]. cbn [bind].
  destruct (new_SigningKey _) as [k|e]; [|discriminate]. cbn [bind].
  intros Hnew.
  apply new_HDNodeWallet_fields in Hnew as (_ & _ & _ & Hpath & _ & Hdepth & _).
  exists "m". rewrite Hpath, Hdepth. repeat split; (reflexivity || discriminate || lia).
Qed.

Lemma head_removelast {A : Type} (l : list A) :
  (2 <= length l)%nat -> head (removelast l) = head l.
Proof. destruct l as [|x [|y l]]; simpl; (lia || reflexivity). Qed.

Lemma length_removelast_fields {A : Type} (l : list A) :
  length (removelast l) = pred (length l).
Proof.
  induction l as [|x l IH]; [reflexivity|].
  destruct l as [|y l]; [reflexivity|].
  change (removelast (x :: y :: l)) with (x :: removelast (y :: l)).
  cbn [length] in *. rewrite IH. reflexivity.
Qed.

Lemma path_of_depth_child (this child : HDNodeWallet) (i : Z) :
  path_of_depth this -> deriveChild this i = Ok child -> path_of_depth child.
Proof using Type.
  intros (p & Hp & Hne & Hhead & Hlen & Hdepth) Hchild.
  apply deriveChild_inv in Hchild as (_ & IL & IR & key & _ & _ & Hnew).
  apply new_HDNodeWallet_fields in Hnew as (_ & _ & _ & Hpath & _ & Hd & _).
  rewrite child_path_fst, Hp in Hpath. rewrite child_path_depth in Hd.
  unfold at_address_level, has_path in Hd. rewrite Hp in Hd.
  change (default "" (Some p)) with p in Hd.
  apply String.eqb_neq in Hne. rewrite Hne in Hpath, Hd. cbn [negb andb] in Hd.
  exists (base_path p +:+ String "/" (child_field i)).
  rewrite (JS.split_app_field "/" _ _ (child_field_no_slash i)), split_base_path.
  rewrite length_app. cbn [length].
  split; [exact Hpath|]. split; [destruct (base_path p); discriminate|].
  destruct (Nat.eqb_spec (length (JS.split "/" p)) 6) as [H6|H6].
  - pose proof (head_removelast (JS.split "/" p) ltac:(lia)) as Hhd.
    pose proof (length_removelast_fields (JS.split "/" p)) as Hl.
    rewrite Hhead in Hhd. rewrite H6 in Hl.
    destruct (removelast (JS.split "/" p)) as [|f fs]; [discriminate|].
    cbn [head app]. split; [exact Hhd|]. rewrite Hl, Hd. split; lia.
  - rewrite Hd. destruct (JS.split "/" p) as [|f fs]; [discriminate|].
    cbn [head app length] in *. split; [exact Hhead|]. split; lia.
Qed.

Lemma derived_index (n : HDNodeWallet) : derived n -> index n <= 0xffffffff.
Proof using Type.
  intros Hn. destruct Hn as [seed m n Hseed|this i child _ Hchild].
  - unfold fromSeed in Hseed. destruct (assertArgument _ _ _); [|discriminate].
    cbn [bind] in Hseed. destruct (new_SigningKey _) as [k|e]; [|discriminate].
    cbn [bind] in Hseed.
    apply new_HDNodeWallet_fields in Hseed as (_ & _ & _ & _ & -> & _). discriminate.
  - apply deriveChild_inv in Hchild as (Hmax & IL & IR & key & _ & _ & Hnew).
    apply new_HDNodeWallet_fields in Hnew as (_ & _ & _ & _ & -> & _). exact Hmax.
Qed.

(** The extended key of a node that is not too deep: written when the index
    is one of 32 bits, and not when the index is negative. *)
Lemma extendedKey_index (n : HDNodeWallet) :
  0 <= depth n < 256 -> index n <= 0xffffffff ->
  (0 <= index n -> exists key, extendedKey n = Ok key) /\
  (index n < 0 ->
     extendedKey n = Throw (InvalidArgument "invalid BytesLike value" "value")).
Proof using Type.
  intros Hdepth Hmax. unfold extendedKey.
  destruct (Z.ltb_spec (depth n) 256) as [_|]; [|lia].
  rewrite (zpad_Ok (depth n) 1) by (simpl; lia). cbn [bind]. split.
  - intros Hindex. rewrite (zpad_Ok (index n) 4) by (simpl; lia). cbn [bind]. eauto.
  - intros Hindex. rewrite (zpad_negative (index n) 4 Hindex). reflexivity.
Qed.

(** A node derived from a seed has a path from [m] with one field more than
    its depth; it is never deeper than 5, whatever the number of
    derivations, so that its extended key never fails for the depth.  The
    key can be written whenever the index of the node is not negative, as it
    is when every index asked for was; the key of a node of negative index
    cannot. *)
Theorem derived_path_depth (n : HDNodeWallet) :
  derived n ->
  path_of_depth n /\
  (0 <= index n -> exists key, extendedKey n = Ok key) /\
  (index n < 0 ->
     extendedKey n = Throw (InvalidArgument "invalid BytesLike value" "value")).
Proof using Type.
  intros Hn. pose proof (derived_index n Hn) as Hmax.
  assert (Hpath : path_of_depth n).
  { clear Hmax. induction Hn as [seed m n Hseed|this i child _ IH Hchild].
    - exact (path_of_depth_root _ _ _ Hseed).
    - exact (path_of_depth_child _ _ _ IH Hchild). }
  split; [exact Hpath|].
  destruct Hpath as (p & _ & _ & _ & _ & Hdepth).
  apply extendedKey_index; [|exact Hmax].
  destruct Hdepth as [Hlow Hhigh]. split; [exact Hlow|].
  apply (Z.le_lt_trans _ 5); [exact Hhigh|reflexivity].
Qed.

(** With the sizes of what the library returns, a node derived from a seed,
    whatever the indices asked for, has a private key and a chain code of 32
    bytes, fingerprints of 4, the address and public key of its private
    key, and a child index of at most [0xffffffff].  The index is the one
    asked for last, and [deriveChild] accepts a negative one: the node is
    well formed, with an index of 32 bits, when its index is not
    negative. *)
Theorem derived_wf (n : HDNodeWallet) :
  derived n -> wf_fields n /\ (0 <= index n -> wf_node n).
Proof using computeHmac_length ripemd160_length.
  intros Hn.
  assert (Hfields : wf_fields n).
  { induction Hn as [seed m n Hseed|this i child _ IH Hchild].
    - exact (proj1 (proj1 (wf_node_fields _) (fromSeed_wf _ _ _ Hseed))).
    - exact (deriveChild_wf_fields _ _ _ IH Hchild). }
  split; [exact Hfields|]. intros Hindex. apply wf_node_fields. auto.
Qed.

(** *** What the zone search finds *)

(** The addresses of index below [n] that the loop counts: those in the
    zone. *)
Fixpoint count_in_zone (this : HDNodeWallet) (shard : Shards.ShardInfo) (n : nat) : Z :=
  match n with
  | O => 0
  | S n' =>
      count_in_zone this shard n'
      + match derivePath this (JS.Number_toString (Z.of_nat n')) with
        | Ok w => if in_zone shard w then 1 else 0
        | Throw _ => 0
        end
  end.

Lemma deriveAddress_loop_finds (this : HDNodeWallet) (shard : Shards.ShardInfo)
    (fuel a : nat) (zoneIndex : Z) (w : HDNodeWallet) :
  0 < zoneIndex ->
  deriveAddress_loop fuel this shard (Z.of_nat a) zoneIndex = Some (Ok w) ->
  exists j : nat,
    (a <= j)%nat /\
    derivePath this (JS.Number_toString (Z.of_nat j)) = Ok w /\
    in_zone shard w = true /\
    count_in_zone this shard j - count_in_zone this shard a = zoneIndex - 1.
Proof using Type.
  revert a zoneIndex. induction fuel as [|fuel IH]; intros a zoneIndex Hz; [discriminate|].
  cbn [deriveAddress_loop].
  destruct (derivePath this (JS.Number_toString (Z.of_nat a))) as [nw|e] eqn:Hpath;
    [|discriminate].
  destruct (Z.ltb_spec 0 (if in_zone shard nw then zoneIndex - 1 else zoneIndex))
    as [Hmore|Hdone].
  - replace (Z.of_nat a + 1) with (Z.of_nat (S a)) by lia. intros Hrun.
    destruct (IH (S a) _ Hmore Hrun) as (j & Hj & Hw & Hin & Hcount).
    exists j. split; [lia|]. split; [exact Hw|]. split; [exact Hin|].
    cbn [count_in_zone] in Hcount. rewrite Hpath in Hcount.
    destruct (in_zone shard nw); lia.
  - intros [= <-]. exists a. split; [lia|]. split; [exact Hpath|].
    destruct (in_zone shard nw); [|lia]. split; [reflexivity|lia].
Qed.

(** The search for the address of index [index] in a zone, for a node with
    a path and a zone that names a shard.  For an index that is not
    negative it returns the node of the first address index [j] such that
    [index + 1] of the addresses up to [j] are in the zone: the address at
    [j] is in the zone, and exactly [index] of those below [j] are.  For a
    negative index it returns the node of address index 0, in the zone or
    not. *)
Theorem deriveAddress_finds (this : HDNodeWallet) (index : Z) (zone : option string)
    (shard : Shards.ShardInfo) (fuel : nat) (w : HDNodeWallet) :
  has_path (path this) = true -> has_path zone = true ->
  List.find (names_zone (JS.toLowerCase (default "" zone))) ShardData = Some shard ->
  deriveAddress fuel this index zone = Some (Ok w) ->
  if 0 <=? index then
    exists j : nat,
      derivePath this (JS.Number_toString (Z.of_nat j)) = Ok w /\
      in_zone shard w = true /\
      count_in_zone this shard j = index
  else derivePath this (JS.Number_toString 0) = Ok w.
Proof using Type.
  intros Hpath Hzone Hfind. unfold deriveAddress.
  rewrite Hpath, Hzone, Hfind. cbn [negb]. intros Hrun.
  destruct (Z.leb_spec 0 index) as [Hindex|Hindex].
  - destruct (deriveAddress_loop_finds this shard fuel 0 (index + 1) w ltac:(lia) Hrun)
      as (j & _ & Hw & Hin & Hcount).
    exists j. cbn [count_in_zone] in Hcount. split; [exact Hw|]. split; [exact Hin|lia].
  - destruct fuel as [|fuel]; [discriminate|].
    rewrite deriveAddress_loop_once in Hrun by lia. congruence.
Qed.

(** *** Nodes from a mnemonic *)

(** What [fromMnemonic] and [fromPhrase] use of [Mnemonic] ([mnemonic.js],
    which is not among the sources). *)
Variable Wordlist : Type.
Variable computeSeed : Mnemonic -> list byte.
Variable Mnemonic_fromPhrase :
  string -> option string -> option Wordlist -> result Mnemonic.

(** ['Invalid path: ' + path], for a path that is a string or [null]
    ([None]). *)
Definition invalid_path (path : option string) : JsError :=
  Error ("Invalid path: " +:+ default "null" path).

(** [path == null || !this.isValidPath(path)] *)
Definition path_refused (path : option string) : bool :=
  match path with
  | Some p => negb (isValidPath p)
  | None => true
  end.


(** [static fromPhrase(phrase, path, password, wordlist)] *)
Definition fromPhrase (phrase : string) (path : option string)
    (password : option string) (wordlist : option Wordlist) : result HDNodeWallet :=
  if path_refused path then Throw (invalid_path path)
  else
    let* mnemonic := Mnemonic_fromPhrase phrase password wordlist in
    let* root := fromSeed (computeSeed mnemonic) (Some mnemonic) in
    derivePath root (default "" path).






(** *** The coin type of a node *)

(** [setCoinType] reads the coin type off the path: 994 on a path of
    [quaiHDAccountPath], 969 on a path of [qiHDAccountPath], and no number
    on a node without a path.  On a path of fewer than three fields, the
    path [m] of a root among them, it throws a [TypeError].  It changes
    nothing else of the node; and once the coin type is 994 or 969,
    [deriveAddress] without a zone throws. *)
Theorem setCoinType_account_paths (this : HDNodeWallet) :
  (forall account, 0 <= account -> path this = Some (quaiHDAccountPath account) ->
     exists n, setCoinType this = Ok n /\ coinType n = Some 994) /\
  (forall account change, 0 <= account ->
     path this = Some (qiHDAccountPath account change) ->
     exists n, setCoinType this = Ok n /\ coinType n = Some 969) /\
  (path this = None -> exists n, setCoinType this = Ok n /\ coinType n = None) /\
  (forall p, path this = Some p -> (length (JS.split "/" p) < 3)%nat ->
     setCoinType this
     = Throw (TypeError "Cannot read properties of undefined (reading 'replace')")) /\
  (forall n, setCoinType this = Ok n ->
     privateKey n = privateKey this /\ address n = address this /\
     chainCode n = chainCode this /\ path n = path this /\
     index n = index this /\ depth n = depth this /\
     (has_path (path this) = true ->
      coinType n = Some 994 \/ coinType n = Some 969 ->
      forall fuel index,
        deriveAddress fuel n index None
        = Some (Throw (Error "No zone provided for a Quai / Qi wallet")))).
Proof using Type.
  split; [|split; [|split; [|split]]].
  - intros account Ha Hpath. unfold setCoinType. rewrite Hpath.
    change (quaiHDAccountPath account)
      with (account_path "994" (JS.Number_toString account) "0").
    rewrite split_account_path
      by (reflexivity || apply JS.is_decimal_Number_toString, Ha).
    cbn [lookup list_lookup].
    change (JS.number_integer (JS.Number (JS.replace "'" "" ("994" +:+ "'"))))
      with (Some 994).
    cbn [bind]. eexists. split; reflexivity.
  - intros account change Ha Hpath. unfold setCoinType. rewrite Hpath.
    change (qiHDAccountPath account change)
      with (account_path "969" (JS.Number_toString account) (if change then "1" else "0")).
    rewrite split_account_path
      by (reflexivity || apply JS.is_decimal_Number_toString, Ha).
    cbn [lookup list_lookup].
    change (JS.number_integer (JS.Number (JS.replace "'" "" ("969" +:+ "'"))))
      with (Some 969).
    cbn [bind]. eexists. split; reflexivity.
  - intros Hpath. unfold setCoinType. rewrite Hpath. cbn [bind].
    eexists. split; reflexivity.
  - intros p Hpath Hshort. unfold setCoinType. rewrite Hpath.
    rewrite (proj2 (lookup_ge_None (JS.split "/" p) 2)) by exact (proj1 (Nat.lt_succ_r _ _) Hshort).
    reflexivity.
  - intros n Hset.
    destruct (setCoinType_fields this n Hset)
      as (Hk & Ha & _ & _ & _ & _ & Hcc & Hp & Hi & Hd).
    repeat (split; [assumption|]).
    intros Hhas Hcoin fuel index. unfold deriveAddress. rewrite Hp, Hhas.
    cbn [negb has_path]. unfold coinType_is.
    destruct Hcoin as [-> | ->]; reflexivity.
Qed.

(** *** The testnet prefixes *)

(** Of the two testnet versions that the [switch] of [fromExtendedKey]
    lists, the public one ([0x043587cf]) is read as the mainnet one is, and
    the private one ([0x04358394]) is refused: its [case] label ends in a
    space. *)
Theorem fromExtendedKey_testnet (key : string) (value : Z) :
  decodeBase58 key = Ok value ->
  let bytes := toBeArray value in
  length bytes = 82%nat ->
  (hexlify (slice 0 4 bytes) = "0x04358394" ->
     fromExtendedKey key
     = Throw (InvalidArgument "invalid extended key prefix" "extendedKey")) /\
  (hexlify (slice 0 4 bytes) = "0x043587cf" ->
     fromExtendedKey key
     = let* address := computeAddress (slice 45 78 bytes) in
       Ok (Neutered (new_HDNodeVoidWallet address (slice 45 78 bytes)
                       (slice 5 9 bytes) (slice 13 45 bytes) None
                       (toBigInt (slice 9 13 bytes))
                       (byte_to_Z (nth 4 bytes Byte.x00))))).
Proof using Type.
  intros Hdecode bytes Hlen.
  rewrite fromExtendedKey_unfold, Hdecode. cbn [bind]. fold bytes.
  rewrite Hlen. cbn [Nat.eqb orb assertArgument bind].
  unfold fromExtendedKey_bytes. fold bytes.
  split; intros ->; reflexivity.
Qed.

End Nodes.

Arguments privateKey {Mnemonic} _.
Arguments address {Mnemonic} _.
Arguments publicKey {Mnemonic} _.
Arguments fingerprint {Mnemonic} _.
Arguments accountFingerprint {Mnemonic} _.
Arguments mnemonic {Mnemonic} _.
Arguments chainCode {Mnemonic} _.
Arguments path {Mnemonic} _.
Arguments index {Mnemonic} _.
Arguments depth {Mnemonic} _.
Arguments coinType {Mnemonic} _.
Arguments Full {Mnemonic} _.
Arguments Neutered {Mnemonic} _.

(** *** A toy curve

    The theorems below hold for every hash function and every curve that keep
    the contracts stated with them.  To run the code, the group of the curve
    is replaced by the integers modulo its order [N], to which it is
    isomorphic: the public key of [k] spells [k] itself, and adding points
    is adding modulo [N].  The hash functions spell the sum of their input. *)
Module Toy.

Definition N : Z :=
  0xfffffffffffffffffffffffffffffffebaaedce6af48a03bbfd25e8cd0364141.

Definition sum_bytes (bs : list byte) : Z :=
  fold_left (fun acc b => acc + byte_to_Z b) bs (Z.of_nat (length bs)).

Definition sha256 (bs : list byte) : list byte :=
  replicate 32 (byte_of_Z (sum_bytes bs)).

Definition ripemd160 (bs : list byte) : list byte :=
  replicate 20 (byte_of_Z (3 * sum_bytes bs + 1)).

Definition computeHmac_sha512 (key data : list byte) : list byte :=
  zeroPad 32 [byte_of_Z (1 + (sum_bytes key + sum_bytes data) mod 255)]
  ++ replicate 32 (byte_of_Z (sum_bytes key + 7 * sum_bytes data)).

Definition MasterSecret : list byte :=
  byte_of_Z <$> [66; 105; 116; 99; 111; 105; 110; 32; 115; 101; 101; 100].

Definition invalid_key : JsError := Error "invalid key".

Definition scalar_Ok (s : Z) : bool := (0 <? s) && (s <? N).

Definition point (s : Z) : list byte := Byte.x02 :: zeroPad 32 (toBeArray s).

Definition SigningKey_compressedPublicKey (k : list byte) : result (list byte) :=
  if (length k =? 32)%nat && scalar_Ok (toBigInt k)
  then Ok (point (toBigInt k)) else Throw invalid_key.

Definition SigningKey_publicKey (k : list byte) : result (list byte) :=
  if (length k =? 32)%nat && scalar_Ok (toBigInt k)
  then Ok (Byte.x04 :: zeroPad 32 (toBeArray (toBigInt k)) ++ replicate 32 Byte.x00)
  else Throw invalid_key.

(** The scalar a public key spells, in either form. *)
Definition scalar_of (p : list byte) : result Z :=
  match p with
  | b :: body =>
      let s := toBigInt (take 32 body) in
      if ((byte_to_Z b =? 2) && (length body =? 32)%nat
          || (byte_to_Z b =? 4) && (length body =? 64)%nat) && scalar_Ok s
      then Ok s else Throw invalid_key
  | [] => Throw invalid_key
  end.

Definition SigningKey_addPoints (p0 p1 : list byte) : result (list byte) :=
  let* s0 := (let* P0 := SigningKey_compressedPublicKey p0 in scalar_of P0) in
  let* s1 := scalar_of p1 in
  let s := (s0 + s1) mod N in
  if s =? 0 then Throw invalid_key else Ok (point s).

Definition computeAddress (p : list byte) : result string :=
  let* s := scalar_of p in
  Ok (hexlify (drop 12 (zeroPad 32 (toBeArray s)))).

Definition ShardData : list Shards.ShardInfo := Shards.ShardData Shards.ZoneData_nine.

Definition cyprus1 : Shards.ShardInfo :=
  Shards.mkShardInfo "Cyprus One" "cyprus1" "zone-0-0" 2 "0x00".

Definition paxos1 : Shards.ShardInfo :=
  Shards.mkShardInfo "Paxos One" "paxos1" "zone-1-0" 2 "0x10".

(** Every address is an account address of Cyprus 1. *)
Definition getShardForAddress (a : string) : option Shards.ShardInfo := Some cyprus1.
Definition isUTXOAddress (a : string) : bool := false.

Abbreviation HDNodeWallet := (HDWallet.HDNodeWallet unit).

Definition fromSeed (seed : list byte) : result HDNodeWallet :=
  HDWallet.fromSeed sha256 ripemd160 computeHmac_sha512 MasterSecret
    SigningKey_publicKey SigningKey_compressedPublicKey computeAddress unit seed None.

Definition deriveChild (this : HDNodeWallet) (index : Z) : result HDNodeWallet :=
  HDWallet.deriveChild sha256 ripemd160 computeHmac_sha512 N
    SigningKey_publicKey SigningKey_compressedPublicKey computeAddress unit this index.

Definition derivePath (this : HDNodeWallet) (path : string) : result HDNodeWallet :=
  HDWallet.derivePath sha256 ripemd160 computeHmac_sha512 N
    SigningKey_publicKey SigningKey_compressedPublicKey computeAddress unit this path.

Definition neuter (this : HDNodeWallet) : HDNodeVoidWallet :=
  HDWallet.neuter sha256 ripemd160 unit this.

Definition void_deriveChild (this : HDNodeVoidWallet) (index : Z) : result HDNodeVoidWallet :=
  HDWallet.void_deriveChild sha256 ripemd160 computeHmac_sha512
    SigningKey_addPoints computeAddress this index.

Definition extendedKey (this : HDNodeWallet) : result string :=
  HDWallet.extendedKey sha256 unit this.

Definition void_extendedKey (this : HDNodeVoidWallet) : result string :=
  HDWallet.void_extendedKey sha256 this.

Definition fromExtendedKey (extendedKey : string) : result (HDNode unit) :=
  HDWallet.fromExtendedKey sha256 ripemd160 SigningKey_publicKey
    SigningKey_compressedPublicKey computeAddress unit extendedKey.

Definition deriveAddress (fuel : nat) (this : HDNodeWallet) (index : Z)
    (zone : option string) : option (result HDNodeWallet) :=
  HDWallet.deriveAddress sha256 ripemd160 computeHmac_sha512 N
    SigningKey_publicKey SigningKey_compressedPublicKey computeAddress
    getShardForAddress isUTXOAddress ShardData unit fuel this index zone.

Definition seed : list byte := replicate 16 Byte.x01.

(** The nodes of the wallet of [seed]: its root, the node of the first
    account at [m/44'/994'/0'/0], and the first address below it. *)
Definition root_node : HDNodeWallet :=
  {| privateKey := replicate 31 Byte.x00 ++ [Byte.xba];
     address := "0x00000000000000000000000000000000000000ba";
     publicKey := Byte.x02 :: replicate 31 Byte.x00 ++ [Byte.xba];
     fingerprint := replicate 4 Byte.x41;
     accountFingerprint := replicate 4 Byte.x00;
     mnemonic := None;
     chainCode := replicate 32 Byte.x75;
     path := Some "m";
     index := 0;
     depth := 0;
     coinType := None |}.

Definition account_node : HDNodeWallet :=
  {| privateKey := replicate 30 Byte.x00 ++ [Byte.x02; Byte.xba];
     address := "0x00000000000000000000000000000000000002ba";
     publicKey := Byte.x02 :: replicate 30 Byte.x00 ++ [Byte.x02; Byte.xba];
     fingerprint := replicate 4 Byte.x01;
     accountFingerprint := replicate 4 Byte.x01;
     mnemonic := None;
     chainCode := replicate 32 Byte.x6d;
     path := Some "m/44'/994'/0'/0";
     index := 0;
     depth := 4;
     coinType := None |}.

Definition address_node : HDNodeWallet :=
  {| privateKey := replicate 30 Byte.x00 ++ [Byte.x03; Byte.x6c];
     address := "0x000000000000000000000000000000000000036c";
     publicKey := Byte.x02 :: replicate 30 Byte.x00 ++ [Byte.x03; Byte.x6c];
     fingerprint := replicate 4 Byte.x21;
     accountFingerprint := replicate 4 Byte.x01;
     mnemonic := None;
     chainCode := replicate 32 Byte.xf5;
     path := Some "m/44'/994'/0'/0/0";
     index := 0;
     depth := 5;
     coinType := None |}.

Definition wf_node (n : HDNodeWallet) : Prop :=
  HDWallet.wf_node SigningKey_publicKey SigningKey_compressedPublicKey
    computeAddress unit n.

Example fromSeed_seed : fromSeed seed = Ok root_node.
Proof. vm_compute. reflexivity. Qed.

Example derivePath_account : derivePath root_node "m/44'/994'/0'/0" = Ok account_node.
Proof. vm_compute. reflexivity. Qed.

Example derivePath_address : derivePath root_node "m/44'/994'/0'/0/0" = Ok address_node.
Proof. vm_compute. reflexivity. Qed.

Example deriveChild_account_0 : deriveChild account_node 0 = Ok address_node.
Proof. vm_compute. reflexivity. Qed.

Lemma wf_account_node : wf_node account_node.
Proof.
  unfold wf_node, HDWallet.wf_node.
  repeat split; try reflexivity; try (vm_compute; discriminate).
Qed.

Lemma wf_address_node : wf_node address_node.
Proof.
  unfold wf_node, HDWallet.wf_node.
  repeat split; try reflexivity; try (vm_compute; discriminate).
Qed.

(** The toy functions keep the contracts. *)
Lemma toy_sha256_length (bs : list byte) : length (sha256 bs) = 32%nat.
Proof. apply length_replicate. Qed.

Lemma toy_ripemd160_length (bs : list byte) : length (ripemd160 bs) = 20%nat.
Proof. apply length_replicate. Qed.

Lemma toy_computeHmac_length (key data : list byte) :
  length (computeHmac_sha512 key data) = 64%nat.
Proof.
  unfold computeHmac_sha512.
  rewrite length_app, length_replicate, length_zeroPad; [reflexivity|].
  simpl. lia.
Qed.

Lemma toy_N_range : 0 < N <= 256 ^ 32.
Proof. unfold N. lia. Qed.

Lemma scalar_Ok_range (s : Z) : scalar_Ok s = true <-> 0 < s < N.
Proof. unfold scalar_Ok. rewrite andb_true_iff, Z.ltb_lt, Z.ltb_lt. tauto. Qed.

Lemma length_scalar (s : Z) : 0 <= s < N -> length (zeroPad 32 (toBeArray s)) = 32%nat.
Proof.
  intros Hs. apply (length_zpad s 32). pose proof toy_N_range.
  change (Z.of_nat 32) with 32. lia.
Qed.

Lemma scalar_of_point (s : Z) : scalar_Ok s = true -> scalar_of (point s) = Ok s.
Proof.
  intros Hs. pose proof (proj1 (scalar_Ok_range s) Hs) as Hrange.
  unfold point, scalar_of.
  rewrite length_scalar by lia.
  rewrite firstn_all2 by (rewrite length_scalar; lia).
  rewrite toBigInt_zeroPad, toBigInt_toBeArray by lia.
  rewrite Hs. reflexivity.
Qed.

Lemma scalar_of_uncompressed (s : Z) :
  scalar_Ok s = true ->
  scalar_of (Byte.x04 :: zeroPad 32 (toBeArray s) ++ replicate 32 Byte.x00) = Ok s.
Proof.
  intros Hs. pose proof (proj1 (scalar_Ok_range s) Hs) as Hrange.
  unfold scalar_of.
  rewrite length_app, length_replicate, length_scalar by lia.
  rewrite take_app_length' by (rewrite length_scalar; lia).
  rewrite toBigInt_zeroPad, toBigInt_toBeArray by lia.
  rewrite Hs. reflexivity.
Qed.

Lemma compressedPublicKey_inv (k P : list byte) :
  SigningKey_compressedPublicKey k = Ok P ->
  length k = 32%nat /\ scalar_Ok (toBigInt k) = true /\ P = point (toBigInt k).
Proof.
  unfold SigningKey_compressedPublicKey.
  destruct (Nat.eqb_spec (length k) 32) as [Hlen|]; [|discriminate].
  destruct (scalar_Ok (toBigInt k)); [|discriminate].
  intros [= <-]. auto.
Qed.

Lemma compressedPublicKey_Ok (k : list byte) :
  length k = 32%nat -> scalar_Ok (toBigInt k) = true ->
  SigningKey_compressedPublicKey k = Ok (point (toBigInt k)).
Proof.
  intros Hlen Hs. unfold SigningKey_compressedPublicKey.
  rewrite Hlen, Hs. reflexivity.
Qed.

Lemma toy_address_of_key (k P : list byte) :
  SigningKey_compressedPublicKey k = Ok P ->
  (let* key := SigningKey_publicKey k in computeAddress key) = computeAddress P.
Proof.
  intros HP. apply compressedPublicKey_inv in HP as (Hlen & Hs & ->).
  unfold SigningKey_publicKey. rewrite Hlen, Hs. cbn [Nat.eqb andb bind].
  unfold computeAddress.
  rewrite scalar_of_uncompressed, scalar_of_point by exact Hs. reflexivity.
Qed.

(** Adding the point of [IL] to the point of [k], when both are valid. *)
Lemma addPoints_spec (IL k : list byte) :
  length IL = 32%nat -> scalar_Ok (toBigInt IL) = true ->
  scalar_Ok (toBigInt k) = true ->
  SigningKey_addPoints IL (point (toBigInt k))
  = let s := (toBigInt IL + toBigInt k) mod N in
    if s =? 0 then Throw invalid_key else Ok (point s).
Proof.
  intros Hlen HIL Hk. unfold SigningKey_addPoints.
  rewrite (compressedPublicKey_Ok IL Hlen HIL). cbn [bind].
  rewrite !scalar_of_point by assumption. reflexivity.
Qed.

Lemma addPoints_inv (IL P Q : list byte) :
  SigningKey_addPoints IL P = Ok Q ->
  length IL = 32%nat /\ scalar_Ok (toBigInt IL) = true.
Proof.
  unfold SigningKey_addPoints.
  destruct (SigningKey_compressedPublicKey IL) as [P0|e] eqn:HP0; [|discriminate].
  apply compressedPublicKey_inv in HP0 as (Hlen & HIL & _). auto.
Qed.

Lemma tweaked_scalar (IL k key : list byte) :
  toBeHex ((toBigInt IL + toBigInt k) mod N) 32 = Ok key ->
  length key = 32%nat /\ toBigInt key = (toBigInt IL + toBigInt k) mod N.
Proof. intros Hkey. apply toBeHex_inv in Hkey as (? & ? & _). auto. Qed.

Lemma toy_addPoints_sound (IL k P Q key : list byte) :
  SigningKey_compressedPublicKey k = Ok P ->
  SigningKey_addPoints IL P = Ok Q ->
  toBeHex ((toBigInt IL + toBigInt k) mod N) 32 = Ok key ->
  SigningKey_compressedPublicKey key = Ok Q.
Proof.
  intros HP HQ Hkey.
  apply compressedPublicKey_inv in HP as (_ & Hk & ->).
  destruct (addPoints_inv _ _ _ HQ) as (Hlen & HIL).
  rewrite (addPoints_spec IL k Hlen HIL Hk) in HQ. cbn zeta in HQ.
  apply tweaked_scalar in Hkey as (Hlenkey & Hval).
  pose proof (Z.mod_pos_bound (toBigInt IL + toBigInt k) N ltac:(unfold N; lia)) as Hmod.
  destruct (Z.eqb_spec ((toBigInt IL + toBigInt k) mod N) 0) as [|Hnz]; [discriminate|].
  injection HQ as <-.
  rewrite <- Hval. apply compressedPublicKey_Ok; [exact Hlenkey|].
  apply scalar_Ok_range. lia.
Qed.

Lemma toy_addPoints_complete (IL k P Q key : list byte) :
  length IL = 32%nat -> 0 < toBigInt IL < N ->
  SigningKey_compressedPublicKey k = Ok P ->
  toBeHex ((toBigInt IL + toBigInt k) mod N) 32 = Ok key ->
  SigningKey_compressedPublicKey key = Ok Q ->
  SigningKey_addPoints IL P = Ok Q.
Proof.
  intros Hlen HIL HP Hkey HQ.
  apply compressedPublicKey_inv in HP as (_ & Hk & ->).
  apply compressedPublicKey_inv in HQ as (_ & Hs & ->).
  apply tweaked_scalar in Hkey as (_ & Hval).
  rewrite (addPoints_spec IL k Hlen (proj2 (scalar_Ok_range _) HIL) Hk). cbn zeta.
  rewrite <- Hval.
  apply scalar_Ok_range in Hs.
  destruct (Z.eqb_spec (toBigInt key) 0); [lia|reflexivity].
Qed.

(** C1 on the first address of the wallet of [seed] and on its neutered
    node: both extended keys are read back to a node of the same kind with
    the same address, chain code, depth and index. *)
Lemma extendedKey_round_trip_witness :
  (exists key n',
     extendedKey address_node = Ok key /\ fromExtendedKey key = Ok (Full n') /\
     address n' = address address_node /\ chainCode n' = chainCode address_node /\
     depth n' = 5 /\ index n' = 0) /\
  (exists key v',
     void_extendedKey (neuter address_node) = Ok key /\
     fromExtendedKey key = Ok (Neutered v') /\
     void_address v' = address address_node /\
     void_chainCode v' = chainCode address_node /\
     void_depth v' = 5 /\ void_index v' = 0).
Proof.
  destruct (extendedKey_round_trip sha256 ripemd160 SigningKey_publicKey
              SigningKey_compressedPublicKey computeAddress unit toy_sha256_length)
    as (Hfull & Hvoid & _).
  split.
  - apply (Hfull address_node wf_address_node). reflexivity.
  - apply (Hvoid (neuter address_node)).
    + unfold wf_void. repeat split; try reflexivity; try (vm_compute; discriminate).
    + reflexivity.
Defined.

(** C2 on the account node of the wallet of [seed] and the index 7: the
    neutered node derives the child, so the full node derives it and the two
    children have the same address. *)
Lemma neuter_deriveChild_address_witness :
  exists v child,
    void_deriveChild (neuter account_node) 7 = Ok v /\
    deriveChild account_node 7 = Ok child /\
    void_address (neuter child) = void_address v /\
    void_address v = "0x0000000000000000000000000000000000000373".
Proof.
  destruct (neuter_deriveChild_address sha256 ripemd160 computeHmac_sha512 N
              SigningKey_publicKey SigningKey_compressedPublicKey
              SigningKey_addPoints computeAddress unit
              toy_computeHmac_length toy_N_range toy_address_of_key
              toy_addPoints_sound toy_addPoints_complete
              account_node 7 wf_account_node ltac:(lia))
    as [Hvoid _].
  destruct (void_deriveChild (neuter account_node) 7) as [v|e] eqn:Hv.
  - destruct (Hvoid v Hv) as (child & Hchild & Haddr).
    exists v, child. repeat split; [exact Hchild|exact Haddr|].
    revert Hv. vm_compute. intros [= <-]. reflexivity.
  - revert Hv. vm_compute. discriminate.
Defined.

(** C3, as the code has it, on the wallet of [seed]: the account node, whose
    path has five fields, has its children one level deeper, and so has its
    neutered node. *)
Lemma deriveChild_depth_witness :
  depth address_node = depth account_node + 1 /\
  exists v, void_deriveChild (neuter account_node) 7 = Ok v /\ void_depth v = 5.
Proof.
  destruct (deriveChild_depth sha256 ripemd160 computeHmac_sha512 N
              SigningKey_publicKey SigningKey_compressedPublicKey
              SigningKey_addPoints computeAddress unit) as [Hfull Hvoid].
  split.
  - exact (Hfull account_node address_node 0 deriveChild_account_0).
  - destruct (void_deriveChild (neuter account_node) 7) as [v|e] eqn:Hv.
    + exists v. split; [reflexivity|]. exact (Hvoid _ _ _ Hv).
    + revert Hv. vm_compute. discriminate.
Defined.

(** C3 fails on the code. The first address of the wallet of [seed] is at
    depth 5 and has a path of six fields; its child of index 1 takes the
    place of the last field and is at depth 5 too. *)
Lemma deriveChild_keeps_depth_of_address :
  derivePath root_node "m/44'/994'/0'/0/0" = Ok address_node /\
  depth address_node = 5 /\
  exists child,
    deriveChild address_node 1 = Ok child /\
    path child = Some "m/44'/994'/0'/0/1" /\
    depth child = 5 /\
    depth child <> depth address_node + 1.
Proof.
  split; [exact derivePath_address|]. split; [reflexivity|].
  eexists. split; [vm_compute; reflexivity|].
  split; [reflexivity|]. split; [reflexivity|]. discriminate.
Qed.

(** C7 on the account node of the wallet of [seed]: every toy address is
    in Cyprus 1, so the search for the address of index 2 in Paxos 1 runs
    through the whole space of indices and ends with an error. *)
Lemma deriveAddress_terminates_witness :
  exists fuel e,
    Z.of_nat fuel <= 2 ^ 32 + 1 /\
    deriveAddress fuel account_node 2 (Some "paxos1") = Some (Throw e).
Proof.
  destruct (deriveAddress_terminates sha256 ripemd160 computeHmac_sha512 N
              SigningKey_publicKey SigningKey_compressedPublicKey computeAddress
              getShardForAddress isUTXOAddress ShardData unit
              account_node 2 (Some "paxos1"))
    as (fuel & r & Hfuel & Hr & _ & Herror).
  destruct (Herror (Shards.mkShardInfo "Paxos One" "paxos1" "zone-1-0" 2 "0x10"))
    as [Hnone _].
  - reflexivity.
  - reflexivity.
  - reflexivity.
  - destruct Hnone as [e ->].
    + lia.
    + intros j w _. reflexivity.
    + exists fuel, e. split; [exact Hfuel|exact Hr].
Defined.

(** C7 fails on the code for a negative index.  No toy address is in
    Paxos 1, and the search for the address of index -1 there returns the
    first address of the account, which is in Cyprus 1: the count the loop
    starts with is 0, and the loop ends after the first address whether it
    is counted or not. *)
Lemma deriveAddress_negative_index_returns :
  List.find (names_zone (JS.toLowerCase "paxos1")) ShardData = Some paxos1 /\
  (forall j w, derivePath account_node (JS.Number_toString j) = Ok w ->
               in_zone getShardForAddress isUTXOAddress unit paxos1 w = false) /\
  getShardForAddress (address address_node) = Some cyprus1 /\
  forall fuel, deriveAddress (S fuel) account_node (-1) (Some "paxos1")
               = Some (Ok address_node).
Proof.
  split; [reflexivity|]. split; [intros j w _; reflexivity|].
  split; [reflexivity|]. intros fuel. reflexivity.
Qed.

Example deriveAddress_cyprus1 :
  exists child,
    deriveAddress 3 account_node 2 (Some "Cyprus1") = Some (Ok child) /\
    path child = Some "m/44'/994'/0'/0/2" /\ index child = 2.
Proof. eexists. split; [vm_compute; reflexivity|]. split; reflexivity. Qed.

(** The nodes between the root and the account node. *)
Definition node_or (d : HDNodeWallet) (r : result HDNodeWallet) : HDNodeWallet :=
  match r with Ok n => n | Throw _ => d end.

Definition purpose_node : HDNodeWallet :=
  Eval vm_compute in node_or root_node (deriveChild root_node (HardenedBit + 44)).

Definition coin_node : HDNodeWallet :=
  Eval vm_compute in node_or root_node (deriveChild purpose_node (HardenedBit + 994)).

Definition hardened_account_node : HDNodeWallet :=
  Eval vm_compute in node_or root_node (deriveChild coin_node (HardenedBit + 0)).

Definition derived (n : HDNodeWallet) : Prop :=
  HDWallet.derived sha256 ripemd160 computeHmac_sha512 MasterSecret N
    SigningKey_publicKey SigningKey_compressedPublicKey computeAddress unit n.

Lemma derived_nodes : derived account_node /\ derived address_node.
Proof.
  assert (H0 : derived root_node).
  { apply (derived_fromSeed _ _ _ _ _ _ _ _ _ seed None). exact fromSeed_seed. }
  assert (H1 : derived purpose_node).
  { apply (derived_deriveChild _ _ _ _ _ _ _ _ _ root_node (HardenedBit + 44));
      [exact H0|vm_compute; reflexivity]. }
  assert (H2 : derived coin_node).
  { apply (derived_deriveChild _ _ _ _ _ _ _ _ _ purpose_node (HardenedBit + 994));
      [exact H1|vm_compute; reflexivity]. }
  assert (H3 : derived hardened_account_node).
  { apply (derived_deriveChild _ _ _ _ _ _ _ _ _ coin_node (HardenedBit + 0));
      [exact H2|vm_compute; reflexivity]. }
  assert (H4 : derived account_node).
  { apply (derived_deriveChild _ _ _ _ _ _ _ _ _ hardened_account_node 0);
      [exact H3|vm_compute; reflexivity]. }
  split; [exact H4|].
  apply (derived_deriveChild _ _ _ _ _ _ _ _ _ account_node 0);
    [exact H4|exact deriveChild_account_0].
Qed.

(** The coin type of the account node is read off its path; the root, at
    [m], has no third field. *)
Example setCoinType_nodes :
  (exists n, setCoinType unit account_node = Ok n /\ coinType n = Some 994) /\
  setCoinType unit root_node
  = Throw (TypeError "Cannot read properties of undefined (reading 'replace')").
Proof. split; [eexists; split; reflexivity|reflexivity]. Qed.

(** The child of index -1 of the root: [deriveChild] tests the index against
    [0xffffffff] only, and the sign bit of -1 makes the child a hardened
    one. *)
Definition negative_node : HDNodeWallet :=
  Eval vm_compute in node_or root_node (deriveChild root_node (-1)).

Lemma deriveChild_negative : deriveChild root_node (-1) = Ok negative_node.
Proof. vm_compute. reflexivity. Qed.

Lemma derived_negative_node : derived negative_node.
Proof.
  apply (derived_deriveChild _ _ _ _ _ _ _ _ _ root_node (-1));
    [|exact deriveChild_negative].
  apply (derived_fromSeed _ _ _ _ _ _ _ _ _ seed None). exact fromSeed_seed.
Qed.

(** C1 fails on the code for a node of negative index.  The child of index
    -1 of the root of the wallet of [seed] is built, at depth 1 and with the
    index -1, and its extended key cannot be written: there is no string to
    decode, and no node with the index -1 to get back. *)
Lemma extendedKey_of_negative_index :
  fromSeed seed = Ok root_node /\
  deriveChild root_node (-1) = Ok negative_node /\
  index negative_node = -1 /\ depth negative_node = 1 /\
  path negative_node = Some "m/2147483647'" /\
  extendedKey negative_node
  = Throw (InvalidArgument "invalid BytesLike value" "value") /\
  ~ (exists key n,
       extendedKey negative_node = Ok key /\ fromExtendedKey key = Ok (Full n) /\
       index n = index negative_node).
Proof.
  split; [exact fromSeed_seed|]. split; [exact deriveChild_negative|].
  split; [reflexivity|]. split; [reflexivity|]. split; [reflexivity|].
  split; [reflexivity|]. intros (key & n & Hkey & _). discriminate Hkey.
Qed.

(** The child of index [2 ^ 31 + 44] of the root is at [m/44'], and the
    child of index 7 of the first address takes its place at
    [m/44'/994'/0'/0/7]. *)
Lemma deriveChild_index_path_witness :
  (exists child, deriveChild root_node (2 ^ 31 + 44) = Ok child /\
                 index child = 2 ^ 31 + 44 /\ path child = Some "m/44'") /\
  (exists child, deriveChild address_node 7 = Ok child /\
                 index child = 7 /\ path child = Some "m/44'/994'/0'/0/7").
Proof.
  split.
  - destruct (deriveChild root_node (2 ^ 31 + 44)) as [child|e] eqn:Hchild.
    + destruct (deriveChild_index_path sha256 ripemd160 computeHmac_sha512 N
                  SigningKey_publicKey SigningKey_compressedPublicKey computeAddress
                  unit root_node child (2 ^ 31 + 44) ltac:(lia) Hchild)
        as (_ & Hindex & Hpath).
      exists child. split; [reflexivity|]. split; [exact Hindex|].
      rewrite Hpath. vm_compute. reflexivity.
    + exfalso. revert Hchild. vm_compute. discriminate.
  - destruct (deriveChild address_node 7) as [child|e] eqn:Hchild.
    + destruct (deriveChild_index_path sha256 ripemd160 computeHmac_sha512 N
                  SigningKey_publicKey SigningKey_compressedPublicKey computeAddress
                  unit address_node child 7 ltac:(lia) Hchild)
        as (_ & Hindex & Hpath).
      exists child. split; [reflexivity|]. split; [exact Hindex|].
      rewrite Hpath. vm_compute. reflexivity.
    + exfalso. revert Hchild. vm_compute. discriminate.
Defined.

(** The first address of the wallet of [seed]: a path of six fields from
    [m], depth 5, and an extended key.  The child of index -1 of the root: a
    path of two fields, and no extended key. *)
Lemma derived_path_depth_witness :
  (path_of_depth unit address_node /\ exists key, extendedKey address_node = Ok key) /\
  (path_of_depth unit negative_node /\
   extendedKey negative_node = Throw (InvalidArgument "invalid BytesLike value" "value")).
Proof.
  split.
  - destruct (derived_path_depth sha256 ripemd160 computeHmac_sha512 MasterSecret N
                SigningKey_publicKey SigningKey_compressedPublicKey computeAddress unit
                address_node (proj2 derived_nodes)) as (Hpath & Hkey & _).
    split; [exact Hpath|]. apply Hkey. discriminate.
  - destruct (derived_path_depth sha256 ripemd160 computeHmac_sha512 MasterSecret N
                SigningKey_publicKey SigningKey_compressedPublicKey computeAddress unit
                negative_node derived_negative_node) as (Hpath & _ & Hthrow).
    split; [exact Hpath|]. apply Hthrow. reflexivity.
Defined.

(** The first address of the wallet of [seed] is well formed, and the child
    of index -1 of the root has the fields of a well-formed node. *)
Lemma derived_wf_witness :
  wf_node address_node /\
  wf_fields SigningKey_publicKey SigningKey_compressedPublicKey computeAddress unit
    negative_node.
Proof.
  split.
  - apply (derived_wf sha256 ripemd160 computeHmac_sha512 MasterSecret N
             SigningKey_publicKey SigningKey_compressedPublicKey computeAddress unit
             toy_computeHmac_length toy_ripemd160_length
             address_node (proj2 derived_nodes)).
    discriminate.
  - apply (derived_wf sha256 ripemd160 computeHmac_sha512 MasterSecret N
             SigningKey_publicKey SigningKey_compressedPublicKey computeAddress unit
             toy_computeHmac_length toy_ripemd160_length
             negative_node derived_negative_node).
Defined.

(** Every toy address is in Cyprus 1: the address of index 2 there is the
    one of address index 2, with two addresses of the zone below it.  The
    address of index -1 in Paxos 1 is the one of address index 0. *)
Lemma deriveAddress_finds_witness :
  (exists w j,
     deriveAddress 3 account_node 2 (Some "Cyprus1") = Some (Ok w) /\
     derivePath account_node (JS.Number_toString (Z.of_nat j)) = Ok w /\
     count_in_zone sha256 ripemd160 computeHmac_sha512 N SigningKey_publicKey
       SigningKey_compressedPublicKey computeAddress getShardForAddress isUTXOAddress
       unit account_node cyprus1 j = 2) /\
  derivePath account_node (JS.Number_toString 0) = Ok address_node.
Proof.
  split.
  - destruct (deriveAddress 3 account_node 2 (Some "Cyprus1")) as [[w|e]|] eqn:Hrun.
    + pose proof (deriveAddress_finds sha256 ripemd160 computeHmac_sha512 N
                    SigningKey_publicKey SigningKey_compressedPublicKey computeAddress
                    getShardForAddress isUTXOAddress ShardData unit
                    account_node 2 (Some "Cyprus1") cyprus1 3 w
                    eq_refl eq_refl eq_refl Hrun) as Hfind.
      change (0 <=? 2) with true in Hfind. cbv iota in Hfind.
      destruct Hfind as (j & Hw & _ & Hcount).
      exists w, j. auto.
    + exfalso. revert Hrun. vm_compute. discriminate.
    + exfalso. revert Hrun. vm_compute. discriminate.
  - exact (deriveAddress_finds sha256 ripemd160 computeHmac_sha512 N
             SigningKey_publicKey SigningKey_compressedPublicKey computeAddress
             getShardForAddress isUTXOAddress ShardData unit
             account_node (-1) (Some "paxos1") paxos1 1 address_node
             eq_refl eq_refl eq_refl eq_refl).
Defined.

(** A string that decodes to three bytes is no extended key. *)
Lemma fromExtendedKey_rejects_witness :
  exists message, fromExtendedKey "abcd" = Throw (InvalidArgument message "extendedKey").
Proof.
  apply (fromExtendedKey_rejects sha256 ripemd160 SigningKey_publicKey
           SigningKey_compressedPublicKey computeAddress unit toy_sha256_length
           "abcd" (decoded "abcd")); [reflexivity|].
  left. vm_compute. discriminate.
Defined.

(** The master key of test vector 1 of BIP-32 as a testnet private key is
    refused, and as a testnet public key it gives the neutered node. *)
Lemma fromExtendedKey_testnet_witness :
  fromExtendedKey tv1_tprv
  = Throw (InvalidArgument "invalid extended key prefix" "extendedKey") /\
  HDWallet.fromExtendedKey sha256 ripemd160 SigningKey_publicKey
    SigningKey_compressedPublicKey (fun key => Ok (hexlify (drop 13 key))) unit tv1_tpub
  = Ok (Neutered (new_HDNodeVoidWallet sha256 ripemd160
                    (hexlify (drop 13 tv1_publicKey)) tv1_publicKey
                    [Byte.x00; Byte.x00; Byte.x00; Byte.x00] tv1_chainCode None 0 0)).
Proof.
  split.
  - apply (fromExtendedKey_testnet sha256 ripemd160 SigningKey_publicKey
             SigningKey_compressedPublicKey computeAddress unit
             tv1_tprv (decoded tv1_tprv)); reflexivity.
  - apply (fromExtendedKey_testnet sha256 ripemd160 SigningKey_publicKey
             SigningKey_compressedPublicKey (fun key => Ok (hexlify (drop 13 key))) unit
             tv1_tpub (decoded tv1_tpub)); reflexivity.
Defined.

End Toy.

End HDWallet.

(** ** The websockets of the shards ([src/providers/provider-websocket.ts])

    [initUrlMap] opens one websocket for Prime and one for every running
    zone, at URLs it makes of the URL it is given. *)

Module InitUrlMap.

(** A field of a split in a template literal: a field that is missing is
    [undefined] and prints as such. *)
Definition template_field (fields : list string) (i : nat) : string :=
  default "undefined" (fields !! i).

(** [`${url.split(':')[0]}:${url.split(':')[1]}`], the base URL for a URL of
    the array. *)
Definition baseUrl_of (url : string) : string :=
  template_field (JS.split ":" url) 0 +:+ ":" +:+ template_field (JS.split ":" url) 1.

(** [baseUrl.split(':').slice(0, 2).join(':')] *)
Definition shardUrl_of (baseUrl : string) : string :=
  JS.join ":" (take 2 (JS.split ":" baseUrl)).

(** [8200 + 20 * shard[0] + shard[1]] *)
Definition shardPort (shard : Z * Z) : Z := 8200 + 20 * fst shard + snd shard.

(** [createWebSocket(baseUrl, port)] opens [`${baseUrl}:${port}`]. *)
Definition createWebSocket (baseUrl : string) (port : Z) : string :=
  baseUrl +:+ ":" +:+ JS.Number_toString port.

(** The URLs opened for one URL of the array, when Prime gets ready and
    [getRunningLocations] gives [shards]: that of Prime, then one per
    location, in order. *)
Definition websocketUrls (url : string) (shards : list (Z * Z)) : list string :=
  let baseUrl := baseUrl_of url in
  createWebSocket baseUrl 8001
  :: ((fun shard => createWebSocket (shardUrl_of baseUrl) (shardPort shard)) <$> shards).

(** *** Properties *)

Lemma split_two_fields (first second rest : string) :
  JS.contains ":" first = false -> JS.contains ":" second = false ->
  rest = "" \/ (exists more, rest = String ":" more) ->
  exists fields,
    JS.split ":" (first +:+ ":" +:+ second +:+ rest) = first :: second :: fields.
Proof.
  intros Hfirst Hsecond Hrest.
  change (first +:+ ":" +:+ second +:+ rest)
    with (first +:+ String ":" (second +:+ rest)).
  rewrite (JS.split_field _ _ _ Hfirst).
  destruct Hrest as [->|[more ->]].
  - rewrite JS.append_empty_r, (JS.split_whole _ _ Hsecond). eauto.
  - rewrite (JS.split_field _ _ _ Hsecond). eauto.
Qed.

(** Of the URL given, only what stands before the second colon is used: the
    port, and anything else after it, is dropped.  Prime is reached at port
    8001 and the zone [z] of region [r] at port [8200 + 20 r + z]; the ports
    of different zones differ (for [z] below 20), and none is Prime's.  A
    URL without a colon gets the text 'undefined' for a host. *)
Theorem websocketUrls_ports (first second rest : string) (shards : list (Z * Z)) :
  JS.contains ":" first = false -> JS.contains ":" second = false ->
  rest = "" \/ (exists more, rest = String ":" more) ->
  websocketUrls (first +:+ ":" +:+ second +:+ rest) shards
  = (first +:+ ":" +:+ second +:+ ":8001")
    :: ((fun shard => first +:+ ":" +:+ second +:+ ":"
                      +:+ JS.Number_toString (8200 + 20 * fst shard + snd shard))
        <$> shards) /\
  websocketUrls first shards
  = (first +:+ ":undefined:8001")
    :: ((fun shard => first +:+ ":undefined:"
                      +:+ JS.Number_toString (8200 + 20 * fst shard + snd shard))
        <$> shards) /\
  (forall s1 s2, 0 <= snd s1 < 20 -> 0 <= snd s2 < 20 ->
     shardPort s1 = shardPort s2 -> s1 = s2) /\
  (forall s, 0 <= fst s -> 0 <= snd s -> shardPort s <> 8001).
Proof.
  intros Hfirst Hsecond Hrest.
  assert (Hbase : forall f s, JS.contains ":" f = false -> JS.contains ":" s = false ->
                              shardUrl_of (f +:+ ":" +:+ s) = f +:+ ":" +:+ s).
  { intros f s Hf Hs. unfold shardUrl_of.
    change (f +:+ ":" +:+ s) with (f +:+ String ":" s).
    rewrite (JS.split_field _ _ _ Hf), (JS.split_whole _ _ Hs). reflexivity. }
  split; [|split; [|split]].
  - destruct (split_two_fields first second rest Hfirst Hsecond Hrest) as [fields Hsplit].
    unfold websocketUrls, baseUrl_of. rewrite Hsplit.
    cbn [template_field lookup list_lookup default]. change (id first) with first.
    change (id second) with second.
    rewrite (Hbase _ _ Hfirst Hsecond). unfold createWebSocket, shardPort.
    change (JS.Number_toString 8001) with "8001". f_equal.
    + rewrite !JS.append_assoc. reflexivity.
    + apply list_fmap_ext. intros _ shard _. rewrite !JS.append_assoc. reflexivity.
  - unfold websocketUrls, baseUrl_of. rewrite (JS.split_whole _ _ Hfirst).
    cbn [template_field lookup list_lookup default]. change (id first) with first.
    rewrite (Hbase first "undefined" Hfirst eq_refl).
    unfold createWebSocket, shardPort.
    change (JS.Number_toString 8001) with "8001". f_equal.
    + rewrite !JS.append_assoc. reflexivity.
    + apply list_fmap_ext. intros _ shard _. rewrite !JS.append_assoc. reflexivity.
  - intros [r1 z1] [r2 z2]. unfold shardPort. cbn [fst snd]. intros H1 H2 Heq.
    assert (r1 = r2) by lia. subst. f_equal. lia.
  - intros [r z]. unfold shardPort. cbn [fst snd]. lia.
Qed.

Lemma websocketUrls_ports_witness :
  websocketUrls "ws://localhost:8546" [(0, 0); (1, 2)]
  = ["ws://localhost:8001"; "ws://localhost:8200"; "ws://localhost:8222"] /\
  websocketUrls "localhost" [(2, 1)]
  = ["localhost:undefined:8001"; "localhost:undefined:8241"].
Proof.
  split.
  - apply (websocketUrls_ports "ws" "//localhost" ":8546" [(0, 0); (1, 2)]);
      [reflexivity|reflexivity|right; eexists; reflexivity].
  - apply (websocketUrls_ports "localhost" "" "" [(2, 1)]);
      [reflexivity|reflexivity|left; reflexivity].
Defined.

End InitUrlMap.


(** ** Account paths and the choice of the wallet

    The paths that the helpers of [hdwallet.js] give, through
    [Wallet.fromPhrase] of [wallet.ts]. *)

Module AccountPaths.

Section FromPhrase.

Variables QuaiHDWallet QiHDWallet Provider Wordlist : Type.
Variable QuaiHDWallet_fromPhrase :
  string -> string -> option Wordlist -> result QuaiHDWallet.
Variable QiHDWallet_fromPhrase :
  string -> string -> option Wordlist -> result QiHDWallet.
Variable QuaiHDWallet_connect : QuaiHDWallet -> Provider -> QuaiHDWallet.
Variable QiHDWallet_connect : QiHDWallet -> Provider -> QiHDWallet.

Definition fromPhrase : string -> string -> option Provider -> option Wordlist ->
    result (Wallet.HDWallet QuaiHDWallet QiHDWallet) :=
  Wallet.fromPhrase QuaiHDWallet QiHDWallet Provider Wordlist
    QuaiHDWallet_fromPhrase QiHDWallet_fromPhrase
    QuaiHDWallet_connect QiHDWallet_connect.

Lemma fromPhrase_coinType (phrase rest : string) (coinType : Z)
    (provider : option Provider) (wordlist : option Wordlist) :
  0 <= coinType ->
  fromPhrase phrase (Wallet.bip44_path coinType rest) provider wordlist
  = if coinType =? 994 then
      let* wallet := QuaiHDWallet_fromPhrase phrase (Wallet.bip44_path coinType rest) wordlist in
      Ok (Wallet.Quai _ _ (Wallet.connected _ QuaiHDWallet_connect provider wallet))
    else if coinType =? 969 then
      let* wallet := QiHDWallet_fromPhrase phrase (Wallet.bip44_path coinType rest) wordlist in
      Ok (Wallet.Qi _ _ (Wallet.connected _ QiHDWallet_connect provider wallet))
    else Throw (Error ("Unsupported cointype "
                       +:+ JS.NumberOrNaN_toString (Some coinType)
                       +:+ " for HD wallet derivation")).
Proof.
  intros Hc. destruct (Wallet.coinTypeOf_bip44 coinType rest Hc) as [Hcoin Hlen].
  unfold fromPhrase, Wallet.fromPhrase. fold (Wallet.coinTypeOf (Wallet.bip44_path coinType rest)).
  rewrite Hcoin. destruct (Nat.ltb_spec (length (JS.split "/" (Wallet.bip44_path coinType rest))) 3);
    [lia|reflexivity].
Qed.

(** [Wallet.fromPhrase] makes the Quai wallet of a path of
    [quaiHDAccountPath] and the Qi wallet of a path of [qiHDAccountPath],
    and it refuses the paths of [getAccountPath] and
    [getIndexedAccountPath], whose coin type is 60. *)
Theorem fromPhrase_account_paths (phrase : string) (provider : option Provider)
    (wordlist : option Wordlist) :
  (forall account, 0 <= account ->
     fromPhrase phrase (HDWallet.quaiHDAccountPath account) provider wordlist
     = let* wallet := QuaiHDWallet_fromPhrase phrase (HDWallet.quaiHDAccountPath account)
                        wordlist in
       Ok (Wallet.Quai _ _ (Wallet.connected _ QuaiHDWallet_connect provider wallet))) /\
  (forall account change, 0 <= account ->
     fromPhrase phrase (HDWallet.qiHDAccountPath account change) provider wordlist
     = let* wallet := QiHDWallet_fromPhrase phrase (HDWallet.qiHDAccountPath account change)
                        wordlist in
       Ok (Wallet.Qi _ _ (Wallet.connected _ QiHDWallet_connect provider wallet))) /\
  (forall index path,
     HDWallet.getAccountPath index = Ok path \/ HDWallet.getIndexedAccountPath index = Ok path ->
     fromPhrase phrase path provider wordlist
     = Throw (Error "Unsupported cointype 60 for HD wallet derivation")).
Proof.
  split; [|split].
  - intros account Ha.
    apply (fromPhrase_coinType phrase (JS.Number_toString account +:+ "'/0") 994).
    lia.
  - intros account change Ha.
    apply (fromPhrase_coinType phrase
             (JS.Number_toString account +:+ "'/" +:+ (if change then "1" else "0")) 969).
    lia.
  - intros index path [Hpath|Hpath].
    + unfold HDWallet.getAccountPath in Hpath.
      destruct (assertArgument _ _ _); [|discriminate]. injection Hpath as <-.
      apply (fromPhrase_coinType phrase (JS.Number_toString index +:+ "'/0/0") 60). lia.
    + unfold HDWallet.getIndexedAccountPath in Hpath.
      destruct (assertArgument _ _ _); [|discriminate]. injection Hpath as <-.
      apply (fromPhrase_coinType phrase ("0'/0/" +:+ JS.Number_toString index) 60). lia.
Qed.

End FromPhrase.

End AccountPaths.
